(** * openwebui-discord: rate limiter, conversation store, retry executor
      and the code around them

    A shallow embedding of the stateful components of the relay
    ([internal/ratelimit/limiter.go], [internal/context/manager.go] and
    [internal/openwebui/client.go]), of the Discord client, the handler
    and the helpers that use them, together with the properties their
    specification states about them and further properties the code
    shows.

    Conventions of the embedding:
    - Go's [int], [int64] and [time.Duration] are 64-bit two's-complement
      integers; they are values of [Z] and every arithmetic operation the
      source performs on them is followed by [wrap64].
    - [float64] is Rocq's primitive binary64 type, so the refill formula is
      evaluated with the same IEEE-754 roundings as the compiled program.
    - [time.Time] is a reading of the process' monotonic clock in
      nanoseconds.  Every call of [time.Now()] in the source is an explicit
      argument of the embedded function, named after its call site.
    - Maps are [gmap]s.  For one caller at a time a [map[string]*T] is a
      [gmap string T] whose entries are written back; for concurrent
      callers ([registry_race]) it is a map to pointers into a heap.
    - A string is its sequence of bytes.
    - What lies outside the embedded code (the remote call, the caller's
      context, Discord, [json.Unmarshal], Unicode's tables) is a parameter
      of the function that meets it.
    - A loop that the source does not bound runs on fuel; that the fuel
      given suffices is part of what is proved.

    The file has four parts: the embedding, the notions the properties
    are stated with, the properties of the specification, and further
    properties of the code. *)

From Stdlib Require Import ZArith Lia Bool List Floats.
From Stdlib Require Ascii String.
From stdpp Require Import base option list gmap strings pretty fin_maps relations.

Local Open Scope Z_scope.

(** ** Machine integers *)

Module GoInt.

Definition min_int : Z := - 2 ^ 63.
Definition max_int : Z := 2 ^ 63 - 1.

(** Two's-complement reduction of a mathematical integer to 64 bits. *)
Definition wrap64 (z : Z) : Z := (z + 2 ^ 63) mod 2 ^ 64 - 2 ^ 63.

Definition in_range (z : Z) : Prop := min_int <= z <= max_int.

Definition add (a b : Z) : Z := wrap64 (a + b).
Definition sub (a b : Z) : Z := wrap64 (a - b).
Definition mul (a b : Z) : Z := wrap64 (a * b).
Definition neg (a : Z) : Z := wrap64 (- a).

(** [1 << k] on a 64-bit signed operand with an unsigned shift count:
    counts of 64 and more shift every bit out, and 63 gives the least
    integer. *)
Definition shl1 (k : Z) : Z :=
  if 64 <=? k then 0 else wrap64 (Z.shiftl 1 k).

(** [uint(x)]: conversion of an [int] to the unsigned type of the same
    width. *)
Definition to_uint (x : Z) : Z := x mod 2 ^ 64.

End GoInt.

(** ** time.Time and time.Duration *)

Module GoTime.
Import GoInt.

(** Nanoseconds. *)
Definition Duration := Z.
(** A reading of the monotonic clock, in nanoseconds. *)
Definition Time := Z.

Definition Nanosecond : Duration := 1.
Definition Second : Duration := 1000000000.
Definition Minute : Duration := 60 * Second.

(** [t.Sub(u)]: the difference, saturated to the range of [Duration]. *)
Definition Sub (t u : Time) : Duration :=
  Z.max min_int (Z.min max_int (t - u)).

Definition Add (t : Time) (d : Duration) : Time := t + d.
Definition After (t u : Time) : bool := u <? t.
Definition Before (t u : Time) : bool := t <? u.

End GoTime.

(** ** float64 *)

Module Float64.
Import GoInt.

(** Conversion of a non-negative integer below [2^64]; [of_uint63] rounds
    to nearest-even and covers everything below [2^63], and [2^63] itself
    is a power of two. *)
Definition of_magnitude (n : Z) : float :=
  if n <? 2 ^ 63 then PrimFloat.of_uint63 (Uint63.of_Z n)
  else PrimFloat.mul (PrimFloat.of_uint63 (Uint63.of_Z (n / 2))) 2%float.

(** [float64(x)] for a 64-bit signed [x]. *)
Definition float64_of_int (x : Z) : float :=
  if x <? 0 then PrimFloat.opp (of_magnitude (- x)) else of_magnitude x.

(** [int(f)]: truncation toward zero.  The language leaves the result
    implementation-dependent when the value does not fit; the amd64
    instruction the compiler emits yields the least integer then, and for
    a NaN. *)
Definition int_of_float64 (f : float) : Z :=
  match Prim2SF f with
  | S754_zero _ => 0
  | S754_finite s m e =>
      let mag := Z.shiftl (Zpos m) e in
      let v := if s then - mag else mag in
      if (min_int <=? v) && (v <=? max_int) then v else min_int
  | S754_infinity _ | S754_nan => min_int
  end.

End Float64.

(** ** internal/ratelimit/limiter.go *)

Module ratelimit.
Import GoInt GoTime Float64.

Record Limiter : Type := mkLimiter {
  tokens : Z;
  maxTokens : Z;
  refillRate : Z;
  refillInterval : Duration;
  lastRefill : Time
}.

Definition min (a b : Z) : Z := if a <? b then a else b.

Definition NewLimiter (now : Time) (requestsPerMinute : Z) : Limiter :=
  let maxTokens := requestsPerMinute in
  let refillRate := requestsPerMinute in
  let refillInterval := Minute in
  {| tokens := maxTokens;
     maxTokens := maxTokens;
     refillRate := refillRate;
     refillInterval := refillInterval;
     lastRefill := now |}.

(** The [tokensToAdd] local of [refill]. *)
Definition tokensToAdd (now : Time) (l : Limiter) : Z :=
  let elapsed := Sub now (lastRefill l) in
  let intervalsElapsed :=
    PrimFloat.div (float64_of_int elapsed) (float64_of_int (refillInterval l)) in
  int_of_float64 (PrimFloat.mul intervalsElapsed (float64_of_int (refillRate l))).

Definition refill (now : Time) (l : Limiter) : Limiter :=
  let tokensToAdd := tokensToAdd now l in
  if 0 <? tokensToAdd then
    {| tokens := min (maxTokens l) (add (tokens l) tokensToAdd);
       maxTokens := maxTokens l;
       refillRate := refillRate l;
       refillInterval := refillInterval l;
       lastRefill := now |}
  else l.

(** [l.tokens--] *)
Definition consume (l : Limiter) : Limiter :=
  {| tokens := sub (tokens l) 1;
     maxTokens := maxTokens l;
     refillRate := refillRate l;
     refillInterval := refillInterval l;
     lastRefill := lastRefill l |}.

Definition Allow (now : Time) (l : Limiter) : bool * Limiter :=
  let l := refill now l in
  if 0 <? tokens l then (true, consume l) else (false, l).

Definition RemainingTokens (now : Time) (l : Limiter) : Z * Limiter :=
  let l := refill now l in
  (tokens l, l).

(** How a call of [Wait] stands after the clock readings it was given. *)
Inductive WaitOutcome : Type :=
| Acquired        (* a token was consumed and the call returned *)
| Sleeping        (* still in the loop, asleep before the next check *)
| DivideByZero.   (* [refillInterval / Duration(refillRate)] panicked *)

(** One turn of the loop of [Wait], at the clock reading [now]. *)
Definition waitTurn (now : Time) (l : Limiter) : WaitOutcome * Limiter :=
  let l := refill now l in
  if 0 <? tokens l then (Acquired, consume l)
  else if refillRate l =? 0 then (DivideByZero, l)
  else (Sleeping, l).

(** [Wait]: one reading of the clock per turn of the loop.  The sleep
    between two turns lasts [refillInterval / refillRate]; the reading the
    next turn sees is whatever the clock shows then. *)
Fixpoint Wait (nows : list Time) (l : Limiter) : WaitOutcome * Limiter :=
  match nows with
  | [] => (Sleeping, l)
  | now :: later =>
      match waitTurn now l with
      | (Sleeping, l) => Wait later l
      | returned => returned
      end
  end.

(** The sleep of [Wait], for a rate that is not zero (the division by a
    zero rate is the panic of [waitTurn]); Go's integer division truncates
    toward zero. *)
Definition timeToNextToken (l : Limiter) : Duration :=
  wrap64 (Z.quot (refillInterval l) (refillRate l)).

End ratelimit.

(** The registry of per-channel limiters, run by one caller at a time. *)

Module ChannelLimiter.
Import GoInt GoTime ratelimit.

Record ChannelLimiter : Type := mkChannelLimiter {
  limiters : gmap string Limiter;
  globalLimiter : Limiter
}.

Definition NewChannelLimiter (now : Time)
    (globalRequestsPerMinute channelRequestsPerMinute : Z) : ChannelLimiter :=
  {| limiters := ∅;
     globalLimiter := NewLimiter now globalRequestsPerMinute |}.

(** The block shared by [Allow] and [Wait]: the lookup under the read
    lock, and for an unseen channel the second lookup and the creation
    under the write lock.  Returns the limiter and the map. *)
Definition getOrCreate (nowCreate : Time) (channelID : string)
    (m : gmap string Limiter) : Limiter * gmap string Limiter :=
  match m !! channelID with
  | Some limiter => (limiter, m)
  | None =>
      match m !! channelID with
      | Some limiter => (limiter, m)
      | None =>
          let limiter := NewLimiter nowCreate 10 in
          (limiter, <[channelID := limiter]> m)
      end
  end.

Definition Allow (nowGlobal nowCreate nowChannel : Time) (channelID : string)
    (cl : ChannelLimiter) : bool * ChannelLimiter :=
  let '(ok, g) := ratelimit.Allow nowGlobal (globalLimiter cl) in
  if negb ok then (false, {| limiters := limiters cl; globalLimiter := g |})
  else
    let '(limiter, m) := getOrCreate nowCreate channelID (limiters cl) in
    let '(ok, limiter) := ratelimit.Allow nowChannel limiter in
    (ok, {| limiters := <[channelID := limiter]> m; globalLimiter := g |}).

(** [Wait] returns only once both limiters gave a token; a call that is
    still asleep in the first loop has not looked at the map yet. *)
Definition Wait (nowsGlobal : list Time) (nowCreate : Time)
    (nowsChannel : list Time) (channelID : string)
    (cl : ChannelLimiter) : WaitOutcome * ChannelLimiter :=
  let '(out, g) := ratelimit.Wait nowsGlobal (globalLimiter cl) in
  match out with
  | Acquired =>
      let '(limiter, m) := getOrCreate nowCreate channelID (limiters cl) in
      let '(out, limiter) := ratelimit.Wait nowsChannel limiter in
      (out, {| limiters := <[channelID := limiter]> m; globalLimiter := g |})
  | _ => (out, {| limiters := limiters cl; globalLimiter := g |})
  end.

End ChannelLimiter.

(** ** internal/context/manager.go *)

Module contextmgr.
Import GoInt GoTime.

Record Message : Type := mkMessage {
  Role : string;
  Content : string;
  Name : string;
  Timestamp : Time
}.

Record ChannelContext : Type := mkChannelContext {
  ChannelID : string;
  Messages : list Message;
  LastActive : Time
}.

Record Manager : Type := mkManager {
  contexts : gmap string ChannelContext;
  maxAgeMinutes : Z
}.

Definition NewManager (maxAgeMinutes : Z) : Manager :=
  {| contexts := ∅; maxAgeMinutes := maxAgeMinutes |}.

(** [time.Now().Add(-time.Duration(m.maxAgeMinutes) * time.Minute)] *)
Definition pruneCutoff (now : Time) (maxAgeMinutes : Z) : Time :=
  Add now (mul (neg maxAgeMinutes) Minute).

(** The [for i, msg := range ctx.Messages] loop of [pruneChannelContext]:
    [firstValidIndex] keeps the value it had unless some message passes
    the test, in which case it receives that index and the loop ends. *)
Fixpoint scanFirstValid (cutoffTime : Time) (i : nat) (msgs : list Message)
    (firstValidIndex : nat) : nat :=
  match msgs with
  | [] => firstValidIndex
  | msg :: rest =>
      if After (Timestamp msg) cutoffTime then i
      else scanFirstValid cutoffTime (S i) rest firstValidIndex
  end.

Definition withMessages (ctx : ChannelContext) (msgs : list Message) : ChannelContext :=
  {| ChannelID := ChannelID ctx; Messages := msgs; LastActive := LastActive ctx |}.

Definition pruneChannelContext (now : Time) (maxAgeMinutes : Z)
    (ctx : ChannelContext) : ChannelContext :=
  match Messages ctx with
  | [] => ctx
  | _ :: _ =>
      let cutoffTime := pruneCutoff now maxAgeMinutes in
      let firstValidIndex := scanFirstValid cutoffTime 0 (Messages ctx) 0 in
      if (length (Messages ctx) <=? firstValidIndex)%nat then withMessages ctx []
      else if (0 <? firstValidIndex)%nat then
        withMessages ctx (drop firstValidIndex (Messages ctx))
      else ctx
  end.

Definition AddMessage (nowMessage nowActive nowPrune : Time)
    (channelID role content username : string) (m : Manager) : Manager :=
  let ctx :=
    match contexts m !! channelID with
    | Some ctx => ctx
    | None => {| ChannelID := channelID; Messages := []; LastActive := 0 |}
    end in
  let message :=
    {| Role := role; Content := content; Name := username;
       Timestamp := nowMessage |} in
  let ctx :=
    {| ChannelID := ChannelID ctx;
       Messages := Messages ctx ++ [message];
       LastActive := nowActive |} in
  let ctx := pruneChannelContext nowPrune (maxAgeMinutes m) ctx in
  {| contexts := <[channelID := ctx]> (contexts m);
     maxAgeMinutes := maxAgeMinutes m |}.

Definition GetMessages (channelID : string) (m : Manager) : list Message :=
  match contexts m !! channelID with
  | None => []
  | Some ctx => Messages ctx
  end.

Definition ClearChannel (channelID : string) (m : Manager) : Manager :=
  {| contexts := delete channelID (contexts m);
     maxAgeMinutes := maxAgeMinutes m |}.

(** [time.Now().Add(-time.Duration(m.maxAgeMinutes*2) * time.Minute)] *)
Definition inactiveCutoff (now : Time) (maxAgeMinutes : Z) : Time :=
  Add now (mul (neg (mul maxAgeMinutes 2)) Minute).

(** The sweep.  [now] is the reading taken for the cutoff; [nowAt k] is
    the reading [pruneChannelContext] takes when the loop reaches the
    window of [k].  The loop body touches the entry of its own key only,
    so the order in which the map is ranged over does not matter. *)
Definition cleanupInactiveContexts (now : Time) (nowAt : string -> Time)
    (m : Manager) : Manager :=
  let cutoffTime := inactiveCutoff now (maxAgeMinutes m) in
  {| contexts :=
       map_imap (fun channelID ctx =>
                   if Before (LastActive ctx) cutoffTime then None
                   else Some (pruneChannelContext (nowAt channelID)
                                (maxAgeMinutes m) ctx))
                (contexts m);
     maxAgeMinutes := maxAgeMinutes m |}.

Definition GetContextSize (channelID : string) (m : Manager) : Z :=
  match contexts m !! channelID with
  | None => 0
  | Some ctx => Z.of_nat (length (Messages ctx))
  end.

End contextmgr.

(** ** Go error values *)

Module GoError.

(** The errors the retry code can meet: the sentinels it tests for, an
    error that carries a text only ([errors.New], or [fmt.Errorf] without
    [%w]), and an error that carries a text and wraps another one
    ([fmt.Errorf] with [%w], [*url.Error]). *)
Inductive error : Type :=
| DeadlineExceeded              (* context.DeadlineExceeded *)
| Canceled                      (* context.Canceled *)
| EOF                           (* io.EOF *)
| ErrUnexpectedEOF              (* io.ErrUnexpectedEOF *)
| errorString (s : string)
| wrapError (msg : string) (err : error).

(** [err.Error()] *)
Definition Error (err : error) : string :=
  match err with
  | DeadlineExceeded => "context deadline exceeded"
  | Canceled => "context canceled"
  | EOF => "EOF"
  | ErrUnexpectedEOF => "unexpected EOF"
  | errorString s => s
  | wrapError msg _ => msg
  end.

(** [errors.Unwrap(err)] *)
Definition Unwrap (err : error) : option error :=
  match err with
  | wrapError _ inner => Some inner
  | _ => None
  end.

Definition is_sentinel (err target : error) : bool :=
  match err, target with
  | DeadlineExceeded, DeadlineExceeded
  | Canceled, Canceled
  | EOF, EOF
  | ErrUnexpectedEOF, ErrUnexpectedEOF => true
  | _, _ => false
  end.

(** [errors.Is(err, target)] for a sentinel [target]: equality somewhere
    along the chain of wrapped errors. *)
Fixpoint Is (err target : error) : bool :=
  is_sentinel err target
  || match err with
     | wrapError _ inner => Is inner target
     | _ => false
     end.

(** [fmt.Errorf(prefix + "%w", err)] *)
Definition Errorf_w (prefix : string) (err : error) : error :=
  wrapError (prefix +:+ Error err) err.

(** The same call when [err] may be the nil interface, which [%w] prints
    as a formatting mistake and does not wrap. *)
Definition Errorf_w_nilable (prefix : string) (err : option error) : error :=
  match err with
  | Some err => Errorf_w prefix err
  | None => errorString (prefix +:+ "%!w(<nil>)")
  end.

End GoError.

(** ** internal/openwebui/client.go *)

Module openwebui.
Import GoInt GoTime GoError.

Fixpoint hasPrefix (s prefix : string) {struct prefix} : bool :=
  match prefix, s with
  | EmptyString, _ => true
  | String a prefix, String b s => Ascii.eqb a b && hasPrefix s prefix
  | String _ _, EmptyString => false
  end.

(** [contains]: [bytes.Contains] on the bytes of both strings. *)
Fixpoint contains (s substr : string) : bool :=
  hasPrefix s substr
  || match s with
     | EmptyString => false
     | String _ s => contains s substr
     end.

(** The [error] object of an error response. *)
Record ErrorResponse : Type := mkErrorResponse {
  Message : string;
  Type_ : string;
  Code : string
}.

(** What [ChatCompletion] reads of the HTTP response. *)
Record Response : Type := mkResponse {
  StatusCode : Z;
  Body : string
}.

Definition StatusOK : Z := 200.

(** The block of [ChatCompletion] that turns a response whose status is
    not 200 into an error.  [unmarshal] is [json.Unmarshal] into an
    [ErrorResponse]: [Some] when it returns no error. *)
Definition errorOfResponse (unmarshal : string -> option ErrorResponse)
    (resp : Response) : option error :=
  if negb (StatusCode resp =? StatusOK) then
    match unmarshal (Body resp) with
    | Some errResp =>
        Some (errorString
                ("API error: " +:+ Message errResp +:+
                 " (type: " +:+ Type_ errResp +:+
                 ", code: " +:+ Code errResp +:+ ")"))
    | None =>
        Some (errorString
                ("API error: status " +:+ pretty (StatusCode resp) +:+
                 ", body: " +:+ Body resp))
    end
  else None.

Definition isRetryableError (err : error) : bool :=
  if Is err DeadlineExceeded then true
  else if Is err Canceled then false
  else if Is err EOF || Is err ErrUnexpectedEOF then true
  else
    let errStr := Error err in
    if contains errStr "429" || contains errStr "status 5" then true
    else false.

(** [time.Duration(1<<uint(attempt-1)) * time.Second], capped. *)
Definition backoffDuration (attempt : Z) : Duration :=
  let backoffDuration := mul (shl1 (to_uint (sub attempt 1))) Second in
  if mul 30 Second <? backoffDuration then mul 30 Second
  else backoffDuration.

(** What [WithRetry] did, in order. *)
Inductive Event : Type :=
| Backoff (d : Duration)                 (* [time.After(d)] fired *)
| BackoffCancelled (d : Duration)        (* [ctx.Done()] fired first *)
| Call (outcome : error + string).       (* [c.GetCompletion] returned *)

Definition isCall (e : Event) : bool :=
  match e with Call _ => true | _ => false end.

Definition calls (log : list Event) : nat := length (filter isCall log).

Section WithRetry.
(** The world outside the function: the server, the network and the
    caller's context. *)
Context {World : Type}.
(** [c.GetCompletion(ctx, messages)]: the error or the completion. *)
Variable GetCompletion : World -> (error + string) * World.
(** The [select] between [time.After(d)] and [ctx.Done()]: [None] when
    the timer fired, [Some err] when the context was done first, with
    [err] the value of [ctx.Err()]. *)
Variable backoffSelect : Duration -> World -> option error * World.

(** The [if attempt > 0] block at the head of the loop body: the wait, and
    the error of the context when the wait was cut short. *)
Definition backoffBefore (attempt : Z) (w : World) (log : list Event)
    : option error * World * list Event :=
  if 0 <? attempt then
    let d := backoffDuration attempt in
    let '(done, w) := backoffSelect d w in
    match done with
    | Some ctxErr => (Some ctxErr, w, log ++ [BackoffCancelled d])
    | None => (None, w, log ++ [Backoff d])
    end
  else (None, w, log).

(** The loop from [attempt] on, with [n] turns left to
    [attempt <= maxRetries].  The result is the pair the function
    returns, [None] standing for a nil error. *)
Fixpoint retryLoop (n : nat) (attempt : Z) (lastErr : option error)
    (w : World) (log : list Event)
    : (string * option error) * World * list Event :=
  match n with
  | O => (("", Some (Errorf_w_nilable "max retries exceeded: " lastErr)), w, log)
  | S n =>
      let '(interrupted, w, log) := backoffBefore attempt w log in
      match interrupted with
      | Some ctxErr =>
          (("", Some (Errorf_w "context cancelled during backoff: " ctxErr)), w, log)
      | None =>
          let '(outcome, w) := GetCompletion w in
          let log := log ++ [Call outcome] in
          match outcome with
          | inr completion => ((completion, None), w, log)
          | inl err =>
              if negb (isRetryableError err) then
                (("", Some (Errorf_w "non-retryable error: " err)), w, log)
              else retryLoop n (add attempt 1) (Some err) w log
          end
      end
  end.

(** [maxRetries + 1] turns; the counter cannot wrap before it passes a
    [maxRetries] below the largest integer. *)
Definition WithRetry (maxRetries : Z) (w : World)
    : (string * option error) * World * list Event :=
  retryLoop (Z.to_nat (maxRetries + 1)) 0 None w [].

End WithRetry.

End openwebui.

(** ** The registry under concurrent callers *)

(** [ChannelLimiter.Allow] and [ChannelLimiter.Wait] run by several
    goroutines.  The registry maps a channel to a pointer, so the buckets
    live on a heap and a goroutine keeps the pointer it read in a local
    variable.  A goroutine advances by the stretches of code that run
    under one lock: the check of the global bucket (the mutex of that
    bucket), the lookup under the read lock, the second lookup and the
    creation under the write lock, the check of the bucket of the channel
    (the mutex of that bucket).  Between two stretches any other goroutine
    may run. *)

Module registry_race.
Import GoInt GoTime ratelimit.

(** A bucket on the heap, with the channel it was created for. *)
Record Cell : Type := mkCell {
  owner : string;
  bucket : Limiter
}.

Record Shared : Type := mkShared {
  limiters : gmap string nat;
  heap : list Cell;
  globalLimiter : Limiter
}.

Inductive Method : Type := CallAllow | CallWait.

(** Where a goroutine stands in its call. *)
Inductive Pc : Type :=
| AtGlobal                      (* before [cl.globalLimiter.Allow()], or in
                                   the loop of [cl.globalLimiter.Wait()] *)
| AtLookup                      (* before [cl.mutex.RLock()] *)
| AtCreate                      (* saw no limiter; before [cl.mutex.Lock()] *)
| AtLimiter (limiter : nat)     (* before [limiter.Allow()], or in the loop
                                   of [limiter.Wait()] *)
| Returned (allowed : bool) (limiter : option nat)
| Panicked.

Record Thread : Type := mkThread {
  method : Method;
  channelID : string;
  pc : Pc
}.

Definition goto (t : Thread) (pc : Pc) : Thread :=
  {| method := method t; channelID := channelID t; pc := pc |}.

Definition withGlobal (s : Shared) (g : Limiter) : Shared :=
  {| limiters := limiters s; heap := heap s; globalLimiter := g |}.

Definition withBucket (s : Shared) (p : nat) (c : Cell) (l : Limiter) : Shared :=
  {| limiters := limiters s;
     heap := <[p := {| owner := owner c; bucket := l |}]> (heap s);
     globalLimiter := globalLimiter s |}.

(** The stretch under the write lock: the second lookup, and for a channel
    still unseen the creation and the registration of its bucket. *)
Definition lockedCreate (now : Time) (channelID : string) (s : Shared)
    : nat * Shared :=
  match limiters s !! channelID with
  | Some limiter => (limiter, s)
  | None =>
      let limiter := length (heap s) in
      (limiter,
       {| limiters := <[channelID := limiter]> (limiters s);
          heap := heap s ++ [{| owner := channelID; bucket := NewLimiter now 10 |}];
          globalLimiter := globalLimiter s |})
  end.

(** The next stretch of a goroutine, at the clock reading [now]; [None]
    when the call is over. *)
Definition stepThread (now : Time) (t : Thread) (s : Shared)
    : option (Thread * Shared) :=
  match pc t with
  | AtGlobal =>
      match method t with
      | CallAllow =>
          let '(ok, g) := Allow now (globalLimiter s) in
          Some (goto t (if ok then AtLookup else Returned false None),
                withGlobal s g)
      | CallWait =>
          let '(out, g) := waitTurn now (globalLimiter s) in
          Some (goto t match out with
                       | Acquired => AtLookup
                       | Sleeping => AtGlobal
                       | DivideByZero => Panicked
                       end,
                withGlobal s g)
      end
  | AtLookup =>
      match limiters s !! channelID t with
      | Some limiter => Some (goto t (AtLimiter limiter), s)
      | None => Some (goto t AtCreate, s)
      end
  | AtCreate =>
      let '(limiter, s) := lockedCreate now (channelID t) s in
      Some (goto t (AtLimiter limiter), s)
  | AtLimiter limiter =>
      match heap s !! limiter with
      | None => None
      | Some c =>
          match method t with
          | CallAllow =>
              let '(ok, l) := Allow now (bucket c) in
              Some (goto t (Returned ok (Some limiter)), withBucket s limiter c l)
          | CallWait =>
              let '(out, l) := waitTurn now (bucket c) in
              Some (goto t match out with
                           | Acquired => Returned true (Some limiter)
                           | Sleeping => AtLimiter limiter
                           | DivideByZero => Panicked
                           end,
                    withBucket s limiter c l)
          end
      end
  | Returned _ _ | Panicked => None
  end.

(** One goroutine runs one stretch. *)
Inductive step : Shared * list Thread -> Shared * list Thread -> Prop :=
| step_thread i now t t' s s' ts :
    ts !! i = Some t ->
    stepThread now t s = Some (t', s') ->
    step (s, ts) (s', <[i := t']> ts).

(** The buckets on the heap that were created for a channel. *)
Definition createdFor (channelID : string) (h : list Cell) : list Cell :=
  filter (fun c => owner c = channelID) h.

(** The goroutine has the pointer [p] in its local [limiter]. *)
Definition uses (t : Thread) (p : nat) : Prop :=
  pc t = AtLimiter p \/ exists allowed, pc t = Returned allowed (Some p).

(** Registry and heap agree: a registered pointer leads to a bucket created
    for that channel, and every bucket on the heap is the registered one of
    its channel. *)
Definition registered (s : Shared) : Prop :=
  (forall k p, limiters s !! k = Some p ->
     exists c, heap s !! p = Some c /\ owner c = k)
  /\ (forall p c, heap s !! p = Some c -> limiters s !! owner c = Some p).

Definition threadsAgree (s : Shared) (ts : list Thread) : Prop :=
  forall i t p, ts !! i = Some t -> uses t p ->
    limiters s !! channelID t = Some p.

End registry_race.

(** ** internal/context/manager.go: [FormatForAPI] *)

Module contextmgr_api.
Import GoInt GoTime contextmgr.

(** [FormatForAPI]: one map per message of the window, in order. *)
Definition FormatForAPI (channelID : string) (m : Manager)
    : list (gmap string string) :=
  let messages := GetMessages channelID m in
  (fun msg =>
     let content :=
       if String.eqb (Role msg) "user" && negb (String.eqb (Name msg) "")
       then Name msg +:+ ": " +:+ Content msg
       else Content msg in
     ({[ "role" := Role msg; "name" := Name msg; "content" := content ]}
        : gmap string string)) <$> messages.

End contextmgr_api.

(** ** internal/openwebui: [GetCompletion] *)

Module openwebui_chat.
Import GoInt GoTime GoError.

Record Message : Type := mkMessage {
  Role : string;
  Content : string
}.

Record Choice : Type := mkChoice {
  Index : Z;
  Message_ : Message;
  FinishReason : string
}.

Record Usage : Type := mkUsage {
  PromptTokens : Z;
  CompletionTokens : Z;
  TotalTokens : Z
}.

Record ChatCompletionResponse : Type := mkChatCompletionResponse {
  ID : string;
  Object : string;
  Created : Z;
  Model : string;
  Choices : list Choice;
  Usage_ : Usage
}.

Section GetCompletion.
Context {World : Type}.
(** [c.ChatCompletion(ctx, messages)]: the error or the response. *)
Variable ChatCompletion : World -> (error + ChatCompletionResponse) * World.

Definition GetCompletion (w : World) : (error + string) * World :=
  let '(r, w) := ChatCompletion w in
  match r with
  | inl err => (inl err, w)
  | inr resp =>
      match Choices resp with
      | [] => (inl (errorString "no completion choices returned"), w)
      | choice :: _ => (inr (Content (Message_ choice)), w)
      end
  end.

End GetCompletion.

End openwebui_chat.

(** ** Go strings *)

(** A Go string is a sequence of bytes; [len], the slice expressions and
    [strings.LastIndex] count bytes.  The length of a string fits an
    [int], so the index arithmetic of the code that follows cannot wrap
    and is written in [Z]. *)

Module GoString.

Definition len (s : string) : Z := Z.of_nat (String.length s).

Fixpoint takeBytes (n : nat) (s : string) : string :=
  match n, s with
  | S n, String a s => String a (takeBytes n s)
  | _, _ => EmptyString
  end.

Fixpoint dropBytes (n : nat) (s : string) : string :=
  match n, s with
  | S n, String _ s => dropBytes n s
  | _, _ => s
  end.

(** [s[:hi]]; [None] is the panic of an index out of range. *)
Definition slice_to (s : string) (hi : Z) : option string :=
  if (0 <=? hi) && (hi <=? len s) then Some (takeBytes (Z.to_nat hi) s)
  else None.

(** [s[lo:]] *)
Definition slice_from (s : string) (lo : Z) : option string :=
  if (0 <=? lo) && (lo <=? len s) then Some (dropBytes (Z.to_nat lo) s)
  else None.

(** [strings.LastIndex(s, substr)]: the index of the last occurrence, or
    -1. *)
Fixpoint LastIndex (s substr : string) : Z :=
  match s with
  | EmptyString => if openwebui.hasPrefix s substr then 0 else -1
  | String _ rest =>
      let inRest := LastIndex rest substr in
      if 0 <=? inRest then inRest + 1
      else if openwebui.hasPrefix s substr then 0 else -1
  end.

Definition newline : string := String (Ascii.ascii_of_nat 10) EmptyString.

(** The concatenation of the strings of a list. *)
Definition concat (parts : list string) : string :=
  fold_right String.append EmptyString parts.

End GoString.

(** ** internal/discord/client.go *)

Module discord.
Import GoInt GoTime GoError GoString.

(** The two loops of [isAuthorized]: [true] at the first entry that
    equals [id]. *)
Fixpoint listed (id : string) (authorized : list string) : bool :=
  match authorized with
  | [] => false
  | entry :: authorized =>
      if String.eqb id entry then true else listed id authorized
  end.

Definition isAuthorized (authorizedGuilds authorizedChannels : list string)
    (guildID channelID : string) : bool :=
  if (length authorizedGuilds =? 0)%nat && (length authorizedChannels =? 0)%nat
  then true
  else if listed guildID authorizedGuilds then true
  else if listed channelID authorizedChannels then true
  else false.

(** How a call of [splitMessage] stands when the fuel of the loop is
    used up. *)
Inductive SplitOutcome : Type :=
| Parts (parts : list string)     (* returned *)
| SliceOutOfRange                 (* a slice expression panicked *)
| StillSplitting.                 (* the loop has not ended *)

(** The body of the loop up to the final value of [splitIndex]. *)
Definition nextSplitIndex (message : string) (maxLength : Z) : option Z :=
  let splitIndex := maxLength in
  let splitIndex := if len message <? splitIndex then len message else splitIndex in
  match slice_to message splitIndex with
  | None => None
  | Some head =>
      let newlineIndex := LastIndex head newline in
      if Z.quot maxLength 2 <? newlineIndex then Some (newlineIndex + 1)
      else
        let spaceIndex := LastIndex head " " in
        if Z.quot maxLength 2 <? spaceIndex then Some (spaceIndex + 1)
        else Some splitIndex
  end.

(** [for len(message) > 0 { ... }], one unit of fuel per turn. *)
Fixpoint splitLoop (fuel : nat) (message : string) (maxLength : Z)
    (parts : list string) : SplitOutcome :=
  if 0 <? len message then
    match fuel with
    | O => StillSplitting
    | S fuel =>
        match nextSplitIndex message maxLength with
        | None => SliceOutOfRange
        | Some splitIndex =>
            match slice_to message splitIndex, slice_from message splitIndex with
            | Some part, Some rest =>
                splitLoop fuel rest maxLength (parts ++ [part])
            | _, _ => SliceOutOfRange
            end
        end
    end
  else Parts parts.

Definition splitMessage (fuel : nat) (message : string) (maxLength : Z)
    : SplitOutcome :=
  if len message <=? maxLength then Parts [message]
  else splitLoop fuel message maxLength [].

Section sendMessage.
Context {World : Type}.
(** [c.session.ChannelMessageSend(channelID, content)]: the error, or the
    ID of the message Discord created. *)
Variable ChannelMessageSend :
  string -> string -> World -> (error + string) * World.

(** The [for i, msg := range messages] loop of [sendMessage]; [send] is
    the call of the function to itself. *)
Fixpoint sendEach
    (send : string -> World -> list string ->
            option ((string * option error) * World * list string))
    (messages : list string) (i : nat) (rest : list string)
    (lastMessageID : string) (w : World) (sent : list string)
    : option ((string * option error) * World * list string) :=
  match rest with
  | [] => Some ((lastMessageID, None), w, sent)
  | msg :: rest =>
      match send msg w sent with
      | None => None
      | Some ((id, err), w, sent) =>
          let lastMessageID :=
            if (i =? length messages - 1)%nat then id else lastMessageID in
          match err with
          | Some err => Some (("", Some err), w, sent)
          | None => sendEach send messages (S i) rest lastMessageID w sent
          end
      end
  end.

(** [sendMessage], with the contents it handed to Discord in order.
    [depth] bounds the nesting of the calls of the function to itself;
    [None] when it is used up or [splitMessage] did not return. *)
Fixpoint sendMessage (depth : nat) (channelID content : string) (w : World)
    (sent : list string) : option ((string * option error) * World * list string) :=
  match depth with
  | O => None
  | S depth =>
      if 2000 <? len content then
        match splitMessage (String.length content) content 1900 with
        | Parts messages =>
            sendEach (sendMessage depth channelID) messages 0 messages "" w sent
        | _ => None
        end
      else
        let '(r, w) := ChannelMessageSend channelID content w in
        match r with
        | inl err =>
            Some (("", Some (Errorf_w "error sending message: " err)), w,
                  sent ++ [content])
        | inr id => Some ((id, None), w, sent ++ [content])
        end
  end.

End sendMessage.

End discord.

(** ** utils: errors with context, and the generic retry *)

Module utils.
Import GoInt GoTime.

Section Errors.
(** The values of a context map ([interface{}] in the source). *)
Context {Value : Type}.

(** The package's sentinel errors; [errors.Is] tells them apart by
    identity, not by text. *)
Inductive Sentinel : Type :=
| ErrNotFound | ErrUnauthorized | ErrRateLimited
| ErrTimeout | ErrInvalidInput | ErrInternal.

(** The errors this package meets: its sentinels, an error that carries a
    text only, one that carries a text and wraps another, and its own
    [*ErrorWithContext].  A [nil] map is [None]. *)
#[warnings="-register-all"] Inductive error : Type :=
| sentinel (s : Sentinel)
| errorString (s : string)
| wrapError (msg : string) (err : error)
| ErrorWithContext (Err : option error) (Context : option (gmap string Value))
    (Stack : string).

Definition sentinelText (s : Sentinel) : string :=
  match s with
  | ErrNotFound => "not found"
  | ErrUnauthorized => "unauthorized"
  | ErrRateLimited => "rate limited"
  | ErrTimeout => "timeout"
  | ErrInvalidInput => "invalid input"
  | ErrInternal => "internal error"
  end.

(** [err.Error()] *)
Fixpoint Error (err : error) : string :=
  match err with
  | sentinel s => sentinelText s
  | errorString s => s
  | wrapError msg _ => msg
  | ErrorWithContext None _ _ => "nil error"
  | ErrorWithContext (Some err) _ _ => Error err
  end.

(** [errors.Unwrap(err)] *)
Definition Unwrap (err : error) : option error :=
  match err with
  | wrapError _ inner => Some inner
  | ErrorWithContext inner _ _ => inner
  | _ => None
  end.

Definition Sentinel_eqb (a b : Sentinel) : bool :=
  match a, b with
  | ErrNotFound, ErrNotFound | ErrUnauthorized, ErrUnauthorized
  | ErrRateLimited, ErrRateLimited | ErrTimeout, ErrTimeout
  | ErrInvalidInput, ErrInvalidInput | ErrInternal, ErrInternal => true
  | _, _ => false
  end.

(** [errors.Is(err, target)] for a sentinel [target]. *)
Fixpoint Is (err : error) (target : Sentinel) : bool :=
  match err with
  | sentinel s => Sentinel_eqb s target
  | errorString _ => false
  | wrapError _ inner => Is inner target
  | ErrorWithContext None _ _ => false
  | ErrorWithContext (Some inner) _ _ => Is inner target
  end.

(** [errors.As(err, &errWithContext)]: the first [*ErrorWithContext] along
    the chain, as its three fields. *)
Fixpoint As (err : error)
    : option (option error * option (gmap string Value) * string) :=
  match err with
  | sentinel _ | errorString _ => None
  | wrapError _ inner => As inner
  | ErrorWithContext inner context stack => Some (inner, context, stack)
  end.

(** What a call returns, or the panic of an assignment to an entry of a
    nil map. *)
Inductive Outcome (A : Type) : Type :=
| Returns (a : A)
| NilMapAssignment.
Arguments Returns {A} a.
Arguments NilMapAssignment {A}.

(** [WithContext]; [stack] is what [captureStack(2)] returns.  Ranging
    over a nil map runs no assignment. *)
Definition WithContext (stack : string) (err : option error)
    (context : option (gmap string Value)) : Outcome (option error) :=
  match err with
  | None => Returns None
  | Some err =>
      match As err with
      | Some (inner, held, heldStack) =>
          let added := default ∅ context in
          if decide (added = ∅) then
            Returns (Some (ErrorWithContext inner held heldStack))
          else
            match held with
            | None => NilMapAssignment
            | Some held =>
                Returns (Some (ErrorWithContext inner (Some (added ∪ held))
                                 heldStack))
            end
      | None => Returns (Some (ErrorWithContext (Some err) context stack))
      end
  end.

(** [strings.ToLower], which maps by Unicode's case tables. *)
Variable ToLower : string -> string.

Definition retryablePatterns : list string :=
  [ "connection reset"; "connection refused"; "temporary failure"; "timeout";
    "too many requests"; "try again"; "503"; "429" ].

(** The loop over the patterns: [true] at the first one found. *)
Fixpoint anyPattern (errStr : string) (patterns : list string) : bool :=
  match patterns with
  | [] => false
  | pattern :: patterns =>
      if openwebui.contains (ToLower errStr) pattern then true
      else anyPattern errStr patterns
  end.

Definition IsRetryable (err : option error) : bool :=
  match err with
  | None => false
  | Some err =>
      if Is err ErrRateLimited || Is err ErrTimeout then true
      else anyPattern (Error err) retryablePatterns
  end.

(** [backoff] of [WithRetry], in seconds. *)
Definition backoffSeconds (attempt : Z) : Z :=
  let backoff := shl1 (to_uint attempt) in
  if 30 <? backoff then 30 else backoff.

(** What [WithRetry] did, in order. *)
Inductive Event : Type :=
| Called (err : option error)       (* [fn()] returned *)
| Slept (d : Duration).             (* the timer fired *)

Context {World : Type}.
(** [fn()]: the error, [None] for nil. *)
Variable fn : World -> option error * World.

(** The loop from [attempt] on, with [n] turns left to
    [attempt <= maxRetries]. *)
Fixpoint retryLoop (maxRetries : Z) (n : nat) (attempt : Z)
    (lastErr : option error) (w : World) (log : list Event)
    : option error * World * list Event :=
  match n with
  | O => (lastErr, w, log)
  | S n =>
      let '(err, w) := fn w in
      let log := log ++ [Called err] in
      match err with
      | None => (None, w, log)
      | Some _ =>
          let lastErr := err in
          if negb (IsRetryable err) || (attempt =? maxRetries) then
            (lastErr, w, log)
          else
            let backoff := backoffSeconds attempt in
            let log := log ++ [Slept (mul backoff Second)] in
            retryLoop maxRetries n (add attempt 1) lastErr w log
      end
  end.

(** The loop leaves by [break] at [attempt == maxRetries], so the counter
    never passes [maxRetries] and cannot wrap. *)
Definition WithRetry (maxRetries : Z) (w : World)
    : option error * World * list Event :=
  retryLoop maxRetries (Z.to_nat (maxRetries + 1)) 0 None w [].

End Errors.

Arguments error : clear implicits.
Arguments Event : clear implicits.
Arguments Returns {A} a.
Arguments NilMapAssignment {A}.

End utils.

(** ** Package strings, for a separator of one byte *)

Module GoStrings.
Import GoString.

Definition pipe : Ascii.ascii := Ascii.ascii_of_nat 124.
Definition lf : Ascii.ascii := Ascii.ascii_of_nat 10.

(** The text in front of the first [sep] and the text behind it. *)
Fixpoint cutAt (sep : Ascii.ascii) (s : string) : option (string * string) :=
  match s with
  | EmptyString => None
  | String a s =>
      if Ascii.eqb a sep then Some (EmptyString, s)
      else match cutAt sep s with
           | Some (before, after) => Some (String a before, after)
           | None => None
           end
  end.

(** [strings.SplitN(s, sep, 2)] *)
Definition SplitN2 (sep : Ascii.ascii) (s : string) : list string :=
  match cutAt sep s with
  | Some (before, after) => [before; after]
  | None => [s]
  end.

(** [strings.Split(s, sep)] *)
Fixpoint Split (sep : Ascii.ascii) (s : string) : list string :=
  match s with
  | EmptyString => [EmptyString]
  | String a s =>
      if Ascii.eqb a sep then EmptyString :: Split sep s
      else match Split sep s with
           | field :: fields => String a field :: fields
           | [] => [String a EmptyString]
           end
  end.

(** [strings.Join(elems, sep)] *)
Fixpoint Join (elems : list string) (sep : string) : string :=
  match elems with
  | [] => EmptyString
  | [elem] => elem
  | elem :: elems => elem +:+ sep +:+ Join elems sep
  end.

End GoStrings.

(** ** internal/discord/handler.go *)

Module handler.
Import GoString GoStrings contextmgr.

(** An action the model asked for, as [ParseActions] returns it. *)
Record Action : Type := mkAction {
  Type_ : string;
  Parameters : string
}.

Definition ActionFormat : string := "format".
Definition ActionPin : string := "pin".

(** [prepareMessages]: the system prompt, then the window of the
    channel. *)
Definition prepareMessages (systemPrompt channelID : string) (m : Manager)
    : list openwebui_chat.Message :=
  let contextMessages := GetMessages channelID m in
  [ {| openwebui_chat.Role := "system";
       openwebui_chat.Content := systemPrompt |} ]
  ++ ((fun msg => {| openwebui_chat.Role := Role msg;
                     openwebui_chat.Content := Content msg |})
        <$> contextMessages).

(** The [switch formatType] of [HandleMessage] on the parameters of a
    format action: the text it assigns to [formattedResponse], [None]
    when it assigns nothing. *)
Definition formatText (parameters : string) : option string :=
  match SplitN2 pipe parameters with
  | formatType :: formatContent :: _ =>
      if String.eqb formatType "code" then
        match SplitN2 pipe formatContent with
        | language :: code :: _ =>
            Some ("```" +:+ language +:+ newline +:+ code +:+ newline +:+ "```")
        | _ => None
        end
      else if String.eqb formatType "bold" then
        Some ("**" +:+ formatContent +:+ "**")
      else if String.eqb formatType "italic" then
        Some ("*" +:+ formatContent +:+ "*")
      else if String.eqb formatType "quote" then
        let lines := Split lf formatContent in
        let quotedLines := (fun line => "> " +:+ line) <$> lines in
        Some (Join quotedLines newline)
      else None
  | _ => None
  end.

Section Respond.
(** [ActionSilence], a constant of a version of the prompt package that
    is not among the sources. *)
Variable ActionSilence : string.

(** The loop that looks for a silence action. *)
Fixpoint hasSilenceAction (actions : list Action) : bool :=
  match actions with
  | [] => false
  | action :: actions =>
      if String.eqb (Type_ action) ActionSilence then true
      else hasSilenceAction actions
  end.

(** The body of the loop over the actions, on the two variables it
    assigns. *)
Definition formatStep (state : string * bool) (action : Action)
    : string * bool :=
  let '(formattedResponse, shouldPin) := state in
  if String.eqb (Type_ action) ActionFormat then
    match formatText (Parameters action) with
    | Some text => (text, shouldPin)
    | None => (formattedResponse, shouldPin)
    end
  else if String.eqb (Type_ action) ActionPin then (formattedResponse, true)
  else (formattedResponse, shouldPin).

(** The part of [HandleMessage] between the parsing of the actions and
    the sending: [formattedResponse] and [shouldPin]. *)
Definition formatResponse (cleanResponse : string) (actions : list Action)
    : string * bool :=
  let formattedResponse := cleanResponse in
  let shouldPin := false in
  let formattedResponse :=
    if hasSilenceAction actions then EmptyString else formattedResponse in
  fold_left formatStep actions (formattedResponse, shouldPin).

End Respond.

End handler.

(** ** internal/discord/actions.go: [ParseActions] *)

(** The regular expression of [ParseActions] is a sequence of literal
    texts and of capturing groups that take one or more bytes of a class,
    as many as they can.  [matchHere] is the leftmost-first match of
    package regexp for such a sequence: a group tries its longest run
    first and gives bytes back one at a time while the rest of the
    sequence does not match.  The classes of the expression tell ASCII
    bytes apart only, so that matching by bytes and matching by runes
    take the same spans. *)

Module regexp.
Import GoString.

Inductive Item : Type :=
| Lit (text : string)
| Group (class : Ascii.ascii -> bool).

(** The length of the longest run of bytes of [class] at the head of
    [s]. *)
Fixpoint span (class : Ascii.ascii -> bool) (s : string) : nat :=
  match s with
  | EmptyString => 0
  | String a s => if class a then S (span class s) else 0
  end.

(** A group that may take [k] bytes at most: the longest take the rest of
    the expression, [rest], accepts. *)
Fixpoint tryLengths (k : nat) (s : string)
    (rest : string -> option (list string * string))
    : option (list string * string) :=
  match k with
  | O => None
  | S shorter =>
      match rest (dropBytes k s) with
      | Some (groups, unread) => Some (takeBytes k s :: groups, unread)
      | None => tryLengths shorter s rest
      end
  end.

(** The match of [items] at the head of [s]: the texts of the groups and
    what follows the match. *)
Fixpoint matchHere (items : list Item) (s : string)
    : option (list string * string) :=
  match items with
  | [] => Some ([], s)
  | Lit text :: items =>
      if openwebui.hasPrefix s text
      then matchHere items (dropBytes (String.length text) s)
      else None
  | Group class :: items => tryLengths (span class s) s (matchHere items)
  end.

(** The matches of [items] in [s] from left to right, none overlapping
    another, each as [FindAllStringSubmatch] returns it (the match, then
    its groups), and [s] without them, which is what
    [ReplaceAllString(s, "")] returns.  One unit of fuel per position
    tried.  The expressions used here match no empty text. *)
Fixpoint findAll (fuel : nat) (items : list Item) (s : string)
    : option (list (list string) * string) :=
  match s with
  | EmptyString => Some ([], EmptyString)
  | String a behind =>
      match fuel with
      | O => None
      | S fuel =>
          match matchHere items s with
          | Some (groups, unread) =>
              let whole :=
                takeBytes (String.length s - String.length unread) s in
              match findAll fuel items unread with
              | Some (matches, without) =>
                  Some ((whole :: groups) :: matches, without)
              | None => None
              end
          | None =>
              match findAll fuel items behind with
              | Some (matches, without) => Some (matches, String a without)
              | None => None
              end
          end
      end
  end.

End regexp.

Module actions.
Import GoString regexp handler.

Definition isLetter (a : Ascii.ascii) : bool :=
  let n := Ascii.nat_of_ascii a in
  ((97 <=? n) && (n <=? 122) || (65 <=? n) && (n <=? 90))%nat.

Definition notBracket (a : Ascii.ascii) : bool :=
  negb (Ascii.eqb a (Ascii.ascii_of_nat 93)).

(** [\[ACTION:([a-zA-Z]+)\|([^\]]+)\]] *)
Definition actionRegex : list Item :=
  [Lit "[ACTION:"; Group isLetter; Lit "|"; Group notBracket; Lit "]"].

(** [strings.ToLower] on a text of ASCII letters. *)
Definition lowerByte (a : Ascii.ascii) : Ascii.ascii :=
  let n := Ascii.nat_of_ascii a in
  if ((65 <=? n) && (n <=? 90))%nat then Ascii.ascii_of_nat (n + 32) else a.

Fixpoint ToLower (s : string) : string :=
  match s with
  | EmptyString => EmptyString
  | String a s => String (lowerByte a) (ToLower s)
  end.

Section ParseActions.
(** [strings.TrimSpace], which trims by Unicode's table of white
    space. *)
Variable TrimSpace : string -> string.

(** The loop over the matches. *)
Fixpoint actionsOf (matches : list (list string)) : list Action :=
  match matches with
  | [] => []
  | match_ :: matches =>
      match match_ with
      | _ :: actionType :: parameters :: _ =>
          {| Type_ := ToLower actionType; Parameters := parameters |}
          :: actionsOf matches
      | _ => actionsOf matches
      end
  end.

(** [ParseActions]; [None] when the fuel of the search is used up. *)
Definition ParseActions (content : string) : option (list Action * string) :=
  match findAll (String.length content) actionRegex content with
  | Some (matches, cleanContent) =>
      Some (actionsOf matches, TrimSpace cleanContent)
  | None => None
  end.

End ParseActions.

End actions.

(** * Notions of the specification, and fixtures *)

Module contextmgr_spec.
Import GoInt GoTime contextmgr.

(** A message is stale at [cutoffTime] when its timestamp is not after
    it. *)
Definition stale (cutoffTime : Time) (msg : Message) : Prop :=
  After (Timestamp msg) cutoffTime = false.

(** A window with two messages, written at minute 0 and at minute 5. *)
Definition staleWindow : ChannelContext :=
  {| ChannelID := "general";
     Messages := [ {| Role := "user"; Content := "hello"; Name := "ann";
                      Timestamp := 0 |};
                   {| Role := "assistant"; Content := "hi"; Name := "";
                      Timestamp := 5 * Minute |} ];
     LastActive := 5 * Minute |}.

Definition staleStore : Manager :=
  {| contexts := {[ "general" := staleWindow ]}; maxAgeMinutes := 20 |}.

(** The same window under a configured age of 76861434 minutes, the least
    whose double, in nanoseconds, is beyond the largest [Duration]. *)
Definition centuryStore : Manager :=
  {| contexts := {[ "general" := staleWindow ]}; maxAgeMinutes := 76861434 |}.

End contextmgr_spec.

Module Float64_spec.
Import GoInt Float64.

(** A product or quotient that is a zero or a NaN. *)
Definition zero_or_nan (x : spec_float) : Prop :=
  match x with
  | S754_zero _ | S754_nan => True
  | _ => False
  end.

End Float64_spec.

Module ratelimit_spec.
Import GoInt GoTime Float64 ratelimit.

(** The gain of a refill as a function of the elapsed time alone. *)
Definition gainOf (elapsed interval : Duration) (rate : Z) : Z :=
  int_of_float64
    (PrimFloat.mul (PrimFloat.div (float64_of_int elapsed) (float64_of_int interval))
                   (float64_of_int rate)).

(** The refill as the specification words it: the elapsed time over the
    interval as a real number, times the rate, rounded down. *)
Definition spec_tokensToAdd (now : Time) (l : Limiter) : Z :=
  (Sub now (lastRefill l) * refillRate l) / refillInterval l.

Definition spec_refill (now : Time) (l : Limiter) : Limiter :=
  let tokensToAdd := spec_tokensToAdd now l in
  if 0 <? tokensToAdd then
    {| tokens := Z.min (maxTokens l) (tokens l + tokensToAdd);
       maxTokens := maxTokens l;
       refillRate := refillRate l;
       refillInterval := refillInterval l;
       lastRefill := now |}
  else l.

(** Calls of [Allow] at the clock readings [t0 + d], for the offsets [d] in
    turn. *)
Fixpoint allowAt (t0 : Time) (offsets : list Duration) (l : Limiter)
    : list bool * Limiter :=
  match offsets with
  | [] => ([], l)
  | d :: offsets =>
      let '(ok, l) := Allow (t0 + d) l in
      let '(oks, l) := allowAt t0 offsets l in
      (ok :: oks, l)
  end.

(** A bucket of 100 per minute, emptied by 100 calls at its creation. *)
Definition drained100 : Limiter :=
  snd (allowAt 0 (repeat 0 100%nat) (NewLimiter 0 100)).

(** The bucket of the specification's example: 5 per minute, created at
    [t0], after [k] tokens were taken without any refill. *)
Definition bucket5 (t0 : Time) (k : Z) : Limiter :=
  {| tokens := 5 - k; maxTokens := 5; refillRate := 5;
     refillInterval := Minute; lastRefill := t0 |}.

(** The operations of a bucket, each with the clock readings it takes. *)
Inductive Op : Type :=
| OpAllow (now : Time)
| OpWait (nows : list Time)
| OpRemaining (now : Time).

Definition step (op : Op) (l : Limiter) : Limiter :=
  match op with
  | OpAllow now => snd (Allow now l)
  | OpWait nows => snd (Wait nows l)
  | OpRemaining now => snd (RemainingTokens now l)
  end.

Definition run (ops : list Op) (l : Limiter) : Limiter :=
  fold_left (fun l op => step op l) ops l.

Definition within_capacity (l : Limiter) : Prop :=
  0 <= tokens l <= maxTokens l.

(** The sum of [refill] fits the machine integer. *)
Definition fits (now : Time) (l : Limiter) : Prop :=
  tokens l + tokensToAdd now l <= max_int.

(** Every refill of a call of [Wait] fits. *)
Fixpoint wait_fits (nows : list Time) (l : Limiter) : Prop :=
  match nows with
  | [] => True
  | now :: later => fits now l /\ wait_fits later (refill now l)
  end.

Definition op_fits (op : Op) (l : Limiter) : Prop :=
  match op with
  | OpAllow now | OpRemaining now => fits now l
  | OpWait nows => wait_fits nows l
  end.

(** Every refill of a sequence of operations fits. *)
Fixpoint run_fits (ops : list Op) (l : Limiter) : Prop :=
  match ops with
  | [] => True
  | op :: ops => op_fits op l /\ run_fits ops (step op l)
  end.

End ratelimit_spec.

Module ChannelLimiter_spec.
Import GoInt GoTime ratelimit ChannelLimiter.

(** A registry whose global bucket of one per minute was just emptied and
    whose bucket for the channel is full. *)
Definition exhaustedGlobal : ChannelLimiter :=
  {| limiters := {[ "general" := NewLimiter 0 10 ]};
     globalLimiter := consume (NewLimiter 0 1) |}.

(** The calls a registry receives, each with the clock readings it takes,
    and what each answers. *)
Inductive Call : Type :=
| CallAllow (nowGlobal nowCreate nowChannel : Time) (channelID : string)
| CallWait (nowsGlobal : list Time) (nowCreate : Time)
    (nowsChannel : list Time) (channelID : string).

Inductive Answer : Type :=
| Allowed (ok : bool)
| Waited (out : WaitOutcome).

Definition perform (c : Call) (cl : ChannelLimiter) : Answer * ChannelLimiter :=
  match c with
  | CallAllow nowGlobal nowCreate nowChannel channelID =>
      let '(ok, cl) := Allow nowGlobal nowCreate nowChannel channelID cl in
      (Allowed ok, cl)
  | CallWait nowsGlobal nowCreate nowsChannel channelID =>
      let '(out, cl) := Wait nowsGlobal nowCreate nowsChannel channelID cl in
      (Waited out, cl)
  end.

Fixpoint session (cs : list Call) (cl : ChannelLimiter)
    : list Answer * ChannelLimiter :=
  match cs with
  | [] => ([], cl)
  | c :: cs =>
      let '(a, cl) := perform c cl in
      let '(answers, cl) := session cs cl in
      (a :: answers, cl)
  end.

(** A bucket with the ceiling written into [getOrCreate]. *)
Definition ten_per_minute (l : Limiter) : Prop :=
  maxTokens l = 10 /\ refillRate l = 10 /\ refillInterval l = Minute.

Definition all_ten_per_minute (m : gmap string Limiter) : Prop :=
  forall channelID l, m !! channelID = Some l -> ten_per_minute l.

End ChannelLimiter_spec.

Module openwebui_spec.
Import GoInt GoTime GoError openwebui.

(** The text [ChatCompletion] gives the error when the body is no JSON
    error object. *)
Definition statusText (status : Z) : string :=
  "API error: status " +:+ pretty status.

(** The text of the error when the body is a JSON error object: the status
    is not part of it. *)
Definition objectText (errResp : ErrorResponse) : string :=
  "API error: " +:+ Message errResp +:+ " (type: " +:+ Type_ errResp +:+
  ", code: " +:+ Code errResp +:+ ")".

(** [json.Unmarshal] of the body [{}] into an [ErrorResponse] returns no
    error and leaves the three fields empty; other bodies are not needed
    here. *)
Definition unmarshalEmptyObject (body : string) : option ErrorResponse :=
  if String.eqb body "{}" then
    Some {| Message := ""; Type_ := ""; Code := "" |}
  else None.

(** The server that answers every request with 503 and the body [{}]. *)
Definition overloaded (w : unit) : (error + string) * unit :=
  match errorOfResponse unmarshalEmptyObject {| StatusCode := 503; Body := "{}" |} with
  | Some err => (inl err, w)
  | None => (inr "", w)
  end.

Definition neverCancelled (d : Duration) (w : unit) : option error * unit :=
  (None, w).

(** The error of the last call that failed, [dflt] when none did. *)
Definition lastFailure (log : list Event) (dflt : option error) : option error :=
  fold_left (fun acc ev => match ev with
                           | Call (inl err) => Some err
                           | _ => acc
                           end) log dflt.

(** Every call fails, with an error the classification retries. *)
Definition always_retryable {World : Type}
    (GetCompletion : World -> (error + string) * World) : Prop :=
  forall w, exists err w',
    GetCompletion w = (inl err, w') /\ isRetryableError err = true.

(** The context is never done before the timer of a backoff fires. *)
Definition never_cancelled {World : Type}
    (backoffSelect : Duration -> World -> option error * World) : Prop :=
  forall d w, fst (backoffSelect d w) = None.

(** The server whose every answer comes after the deadline of the call,
    and the context whose own deadline passes during the first wait. *)
Definition alwaysTimesOut (w : unit) : (error + string) * unit :=
  (inl DeadlineExceeded, w).

Definition deadlinePassed (d : Duration) (w : unit) : option error * unit :=
  (Some DeadlineExceeded, w).

(** The waits that ran to their end, in order. *)
Definition backoffs (log : list Event) : list Duration :=
  omap (fun ev => match ev with Backoff d => Some d | _ => None end) log.


End openwebui_spec.

Module registry_race_spec.
Import GoInt GoTime ratelimit registry_race.

(** A schedule: which goroutine runs its next stretch, and what the clock
    shows then. *)
Fixpoint schedule (sched : list (nat * Time)) (σ : Shared * list Thread)
    : option (Shared * list Thread) :=
  match sched with
  | [] => Some σ
  | (i, now) :: sched =>
      match σ.2 !! i with
      | None => None
      | Some t =>
          match stepThread now t σ.1 with
          | None => None
          | Some (t', s') => schedule sched (s', <[i := t']> σ.2)
          end
      end
  end.

(** A new registry, and two goroutines that call [Allow] and [Wait] for the
    same channel.  Both pass the global bucket, both find no bucket under
    the read lock, the second takes the write lock first and creates the
    bucket, the first takes it next and finds that bucket. *)
Definition freshRegistry : Shared :=
  {| limiters := ∅; heap := []; globalLimiter := NewLimiter 0 30 |}.

Definition twoCallers : list Thread :=
  [ {| method := CallAllow; channelID := "general"; pc := AtGlobal |};
    {| method := CallWait; channelID := "general"; pc := AtGlobal |} ].

Definition raceSchedule : list (nat * Time) :=
  [ (0%nat, 1); (1%nat, 2); (0%nat, 3); (1%nat, 4); (1%nat, 5); (0%nat, 6) ].

(** The registry as a single caller sees it: each channel with the bucket
    its pointer leads to. *)
Definition view (s : Shared) : ChannelLimiter.ChannelLimiter :=
  {| ChannelLimiter.limiters :=
       omap (fun p => bucket <$> heap s !! p) (limiters s);
     ChannelLimiter.globalLimiter := globalLimiter s |}.

(** A call of [Allow] whose stretches run with no other goroutine in
    between; the lookup under the read lock reads no clock. *)
Definition soloAllow (nowGlobal nowCreate nowChannel : Time)
    (channelID : string) (s : Shared) : option (Pc * Shared) :=
  let t := {| method := CallAllow; channelID := channelID; pc := AtGlobal |} in
  match stepThread nowGlobal t s with
  | None => None
  | Some (t, s) =>
      match pc t with
      | AtLookup =>
          match stepThread nowGlobal t s with
          | None => None
          | Some (t, s) =>
              match
                match pc t with
                | AtCreate => stepThread nowCreate t s
                | _ => Some (t, s)
                end
              with
              | None => None
              | Some (t, s) =>
                  match stepThread nowChannel t s with
                  | None => None
                  | Some (t, s) => Some (pc t, s)
                  end
              end
          end
      | _ => Some (pc t, s)
      end
  end.

End registry_race_spec.

Module contextmgr_notions.
Import GoInt GoTime contextmgr.

(** A message is live at [cutoffTime] when its timestamp is after it. *)
Definition live (cutoffTime : Time) (msg : Message) : Prop :=
  After (Timestamp msg) cutoffTime = true.

(** The messages of a window were stamped in the order they stand in. *)
Definition chronological (msgs : list Message) : Prop :=
  forall i j a b, msgs !! i = Some a -> msgs !! j = Some b -> (i <= j)%nat ->
    Timestamp a <= Timestamp b.

#[global] Instance live_dec cutoffTime msg : Decision (live cutoffTime msg).
Proof. unfold live. apply _. Defined.

Definition threeMessages : list Message :=
  [ {| Role := "user"; Content := "one"; Name := "ann"; Timestamp := 0 |};
    {| Role := "assistant"; Content := "two"; Name := ""; Timestamp := 10 * Minute |};
    {| Role := "user"; Content := "three"; Name := "bob"; Timestamp := 30 * Minute |} ].

Definition threeWindow : ChannelContext :=
  {| ChannelID := "general"; Messages := threeMessages; LastActive := 30 * Minute |}.

End contextmgr_notions.

Module openwebui_notions.
Import GoInt GoTime GoError openwebui.

(** A server that answers by a script: each call takes the next outcome;
    once the script is over the connection is closed. *)
Definition scripted (w : list (error + string))
    : (error + string) * list (error + string) :=
  match w with
  | outcome :: w => (outcome, w)
  | [] => (inl EOF, [])
  end.

(** The wait the loop logs before the attempt [attempt] when nothing cuts
    it short. *)
Definition waited (attempt : Z) : list Event :=
  if 0 <? attempt then [Backoff (backoffDuration attempt)] else [].

(** What the loop logs while the calls from [attempt] on fail with
    [errs]. *)
Fixpoint failures (attempt : Z) (errs : list error) : list Event :=
  match errs with
  | [] => []
  | err :: errs =>
      waited attempt ++ [Call (inl err)] ++ failures (attempt + 1) errs
  end.

(** The error [WithRetry] holds in [lastErr] after the failures [errs]. *)
Definition lastOf (errs : list error) (dflt : option error) : option error :=
  match last errs with
  | Some err => Some err
  | None => dflt
  end.

(** The context that is done once the server has nothing more to say,
    and not before. *)
Definition doneWhenSilent (d : Duration) (w : list (error + string))
    : option error * list (error + string) :=
  match w with
  | [] => (Some Canceled, w)
  | _ :: _ => (None, w)
  end.

(** An answer that carries no choice, and the server that gives it. *)
Definition emptyAnswer : openwebui_chat.ChatCompletionResponse :=
  {| openwebui_chat.ID := "chatcmpl-1";
     openwebui_chat.Object := "chat.completion";
     openwebui_chat.Created := 0;
     openwebui_chat.Model := "default";
     openwebui_chat.Choices := [];
     openwebui_chat.Usage_ :=
       {| openwebui_chat.PromptTokens := 0;
          openwebui_chat.CompletionTokens := 0;
          openwebui_chat.TotalTokens := 0 |} |}.

Definition noChoices (w : unit)
    : (error + openwebui_chat.ChatCompletionResponse) * unit :=
  (inr emptyAnswer, w).

End openwebui_notions.

Module discord_notions.
Import GoError.

(** A Discord that takes every message and gives it the ID [1]. *)
Definition alwaysDelivers (channelID content : string) (w : unit)
    : (error + string) * unit :=
  (inr "1", w).

End discord_notions.

Module utils_notions.
Import GoInt GoTime utils.

(** The calls of [fn] and the waits of a log. *)
Definition isCalled {Value} (ev : Event Value) : bool :=
  match ev with Called _ => true | _ => false end.

Definition calls {Value} (log : list (Event Value)) : nat :=
  length (filter isCalled log).

Definition sleeps {Value} (log : list (Event Value)) : list Duration :=
  omap (fun ev => match ev with Slept d => Some d | _ => None end) log.

(** An operation that fails every time it is called, with the sentinel
    of a rate limit. *)
Definition alwaysRateLimited (w : unit) : option (error Z) * unit :=
  (Some (wrapError "send: rate limited" (sentinel ErrRateLimited)), w).

(** An error of the network that wraps the sentinel of a timeout, two
    context maps, and an error that was wrapped again after it got its
    context. *)
Definition timedOut : error Z :=
  wrapError "read: timeout" (sentinel ErrTimeout).

Definition opContext : gmap string Z := {[ "try" := 1 ]}.

Definition retryContext : gmap string Z := {[ "try" := 2 ]}.

Definition rewrapped : error Z :=
  wrapError "outer: boom"
    (ErrorWithContext (Some (errorString "boom")) (Some opContext) "first.stack").

End utils_notions.

Module handler_notions.
Import GoString GoStrings handler.

(** The texts the format actions of a list assign, in order. *)
Definition formats (actions : list Action) : list string :=
  omap (fun action =>
          if String.eqb (Type_ action) ActionFormat
          then formatText (Parameters action) else None) actions.

(** No byte of the string is [sep]. *)
Fixpoint free (sep : Ascii.ascii) (s : string) : Prop :=
  match s with
  | EmptyString => True
  | String a s => Ascii.eqb a sep = false /\ free sep s
  end.

End handler_notions.

Module actions_notions.
Import GoString regexp handler actions.

(** Every byte of the string is of the class. *)
Fixpoint every (class : Ascii.ascii -> bool) (s : string) : Prop :=
  match s with
  | EmptyString => True
  | String a s => class a = true /\ every class s
  end.

Definition notOpen (a : Ascii.ascii) : bool :=
  negb (Ascii.eqb a (Ascii.ascii_of_nat 91)).

(** The markup of an action, as the system prompt describes it. *)
Definition markup (action : Action) : string :=
  "[ACTION:" +:+ Type_ action +:+ "|" +:+ Parameters action +:+ "]".

(** An action whose markup the expression matches as a whole: letters
    for the type, and parameters without a closing bracket, neither
    empty. *)
Definition wellFormed (action : Action) : Prop :=
  Type_ action <> "" /\ every isLetter (Type_ action)
  /\ Parameters action <> "" /\ every notBracket (Parameters action).

(** A response: texts, each followed by the markup of an action, and a
    last text. *)
Definition render (segments : list (string * Action)) (tail : string) : string :=
  fold_right (fun segment behind =>
                fst segment +:+ markup (snd segment) +:+ behind)
             tail segments.

(** The same response without the markups. *)
Definition textOf (segments : list (string * Action)) (tail : string) : string :=
  fold_right (fun segment behind => fst segment +:+ behind) tail segments.

(** The action as [ParseActions] returns it: the type in lower case. *)
Definition normalised (action : Action) : Action :=
  {| Type_ := ToLower (Type_ action); Parameters := Parameters action |}.

End actions_notions.

(** * Properties *)

(** ** Machine arithmetic *)

Module GoInt_facts.
Import GoInt.

Lemma wrap64_id z : in_range z -> wrap64 z = z.
Proof.
  unfold in_range, wrap64, min_int, max_int. intros H.
  rewrite Z.mod_small by lia. lia.
Qed.

Lemma wrap64_range z : in_range (wrap64 z).
Proof.
  unfold in_range, wrap64, min_int, max_int.
  pose proof (Z.mod_pos_bound (z + 2 ^ 63) (2 ^ 64)). lia.
Qed.

End GoInt_facts.

(** ** The conversation store *)

Module contextmgr_facts.
Import GoInt GoTime GoInt_facts contextmgr contextmgr_spec.

Lemma scanFirstValid_none cutoffTime msgs : forall i firstValidIndex,
  Forall (stale cutoffTime) msgs ->
  scanFirstValid cutoffTime i msgs firstValidIndex = firstValidIndex.
Proof.
  induction msgs as [|msg rest IH]; intros i d Hall; simpl; [reflexivity|].
  inversion Hall as [|? ? Hmsg Hrest]; subst.
  unfold stale in Hmsg. rewrite Hmsg. apply IH, Hrest.
Qed.

(** The loop leaves [firstValidIndex] at its initial 0 when it finds no
    live message, so neither of the two truncations runs. *)
Lemma prune_all_stale now maxAge ctx :
  Forall (stale (pruneCutoff now maxAge)) (Messages ctx) ->
  pruneChannelContext now maxAge ctx = ctx.
Proof.
  intros Hall. unfold pruneChannelContext.
  destruct (Messages ctx) as [|msg rest] eqn:E; [reflexivity|].
  rewrite scanFirstValid_none by assumption. reflexivity.
Qed.

Lemma prune_keeps_window now maxAge ctx :
  ChannelID (pruneChannelContext now maxAge ctx) = ChannelID ctx
  /\ LastActive (pruneChannelContext now maxAge ctx) = LastActive ctx.
Proof.
  unfold pruneChannelContext.
  destruct (Messages ctx); [tauto|].
  repeat case_match; simpl; tauto.
Qed.

(** The cutoff of the sweep is [now - 2 * maxAge] minutes whenever that
    many nanoseconds fit a [Duration]. *)
Lemma inactiveCutoff_exact now maxAge :
  - max_int <= 2 * maxAge * Minute <= max_int ->
  inactiveCutoff now maxAge = now - 2 * maxAge * Minute.
Proof.
  unfold inactiveCutoff, Add, mul, neg, Minute, Second, max_int.
  intros H.
  rewrite (wrap64_id (maxAge * 2)) by (unfold in_range, min_int, max_int; lia).
  rewrite (wrap64_id (- (maxAge * 2))) by (unfold in_range, min_int, max_int; lia).
  rewrite wrap64_id by (unfold in_range, min_int, max_int; lia).
  lia.
Qed.

Lemma pruneCutoff_exact now maxAge :
  - max_int <= maxAge * Minute <= max_int ->
  pruneCutoff now maxAge = now - maxAge * Minute.
Proof.
  unfold pruneCutoff, Add, mul, neg, Minute, Second, max_int.
  intros H.
  rewrite (wrap64_id (- maxAge)) by (unfold in_range, min_int, max_int; lia).
  rewrite wrap64_id by (unfold in_range, min_int, max_int; lia).
  lia.
Qed.

Lemma sweep_lookup now nowAt m key :
  contexts (cleanupInactiveContexts now nowAt m) !! key =
  match contexts m !! key with
  | Some ctx =>
      if Before (LastActive ctx) (inactiveCutoff now (maxAgeMinutes m)) then None
      else Some (pruneChannelContext (nowAt key) (maxAgeMinutes m) ctx)
  | None => None
  end.
Proof.
  unfold cleanupInactiveContexts. simpl.
  rewrite map_lookup_imap. destruct (contexts m !! key); reflexivity.
Qed.

(** C1 (the code departs from the claim).  The claim: a prune pass over a
    window none of whose entries is newer than [now - maxAge] leaves the
    window in the store with an empty entry sequence.  The window does
    stay, but the entries stay too: at a sweep 40 minutes in, both entries
    of [staleWindow] are at or before the cutoff of 20 minutes, and the
    store still reads both of them. *)
Theorem stale_entries_survive_prune :
  let now := 40 * Minute in
  let m := cleanupInactiveContexts now (fun _ => now) staleStore in
  Forall (fun msg => Timestamp msg <= now - 20 * Minute) (Messages staleWindow)
  /\ pruneChannelContext now 20 staleWindow = staleWindow
  /\ contexts m !! "general" = Some staleWindow
  /\ GetContextSize "general" m = 2
  /\ GetMessages "general" m <> [].
Proof.
  intros now m.
  assert (Hprune : pruneChannelContext now 20 staleWindow = staleWindow)
    by (vm_compute; reflexivity).
  assert (Hlook : contexts m !! "general" = Some staleWindow).
  { subst m. rewrite sweep_lookup. simpl contexts.
    rewrite lookup_singleton_eq. simpl maxAgeMinutes.
    replace (Before (LastActive staleWindow) (inactiveCutoff now 20)) with false
      by (vm_compute; reflexivity).
    cbv beta iota. rewrite Hprune. reflexivity. }
  split; [|split; [exact Hprune|split; [exact Hlook|split]]].
  - subst now. repeat constructor; vm_compute; discriminate.
  - unfold GetContextSize. rewrite Hlook. reflexivity.
  - unfold GetMessages. rewrite Hlook. discriminate.
Qed.

(** The same on the append path, where it takes a window of zero minutes
    for the entry just appended to be stale. *)
Lemma stale_entry_survives_append :
  let m := AddMessage 100 100 100 "general" "user" "hello" "ann" (NewManager 0) in
  pruneCutoff 100 0 = 100 /\ GetContextSize "general" m = 1.
Proof.
  simpl. split; [vm_compute; reflexivity|].
  unfold GetContextSize, AddMessage. simpl contexts.
  rewrite lookup_insert_eq. reflexivity.
Qed.

(** The example of the specification: a window of 20 minutes and
    messages at minutes 0, 5 and 25; after the third, only the third is
    read. *)
Example append_prunes_stale_prefix :
  let add t text := AddMessage t t t "general" "user" text "ann" in
  let m := add (25 * Minute) "three"
             (add (5 * Minute) "two" (add 0 "one" (NewManager 20))) in
  map Content (GetMessages "general" m) = ["three"]
  /\ GetContextSize "general" m = 1.
Proof. vm_compute. split; reflexivity. Qed.

(** A window whose last activity is earlier than the cutoff the sweep
    computes is deleted from the store; its size then reads 0 and its
    messages read as the empty sequence, not as an error.  Every window
    that is not earlier than that cutoff is kept, and is pruned by
    [pruneChannelContext]. *)
Lemma sweep_deletes_inactive_window now nowAt m key ctx :
  contexts m !! key = Some ctx ->
  let cutoffTime := inactiveCutoff now (maxAgeMinutes m) in
  let m' := cleanupInactiveContexts now nowAt m in
  (LastActive ctx < cutoffTime ->
     contexts m' !! key = None
     /\ GetContextSize key m' = 0
     /\ GetMessages key m' = [])
  /\ (~ LastActive ctx < cutoffTime ->
     contexts m' !! key =
       Some (pruneChannelContext (nowAt key) (maxAgeMinutes m) ctx)).
Proof.
  intros Hctx cutoffTime m'.
  assert (Hlook := sweep_lookup now nowAt m key).
  rewrite Hctx in Hlook. fold m' cutoffTime in Hlook. unfold Before in Hlook.
  split; intros Hlt.
  - apply Z.ltb_lt in Hlt. rewrite Hlt in Hlook.
    unfold GetContextSize, GetMessages. rewrite Hlook. auto.
  - apply Z.ltb_nlt in Hlt. rewrite Hlt in Hlook. exact Hlook.
Qed.

(** A 20 minute window swept at minute 50: the cutoff is minute 10, and
    [staleWindow] was last written at minute 5. *)
Lemma sweep_deletes_inactive_window_witness :
  let m' := cleanupInactiveContexts (50 * Minute) (fun _ => 50 * Minute) staleStore in
  inactiveCutoff (50 * Minute) 20 = 10 * Minute
  /\ contexts m' !! "general" = None
  /\ GetContextSize "general" m' = 0
  /\ GetMessages "general" m' = [].
Proof.
  intros m'. split; [vm_compute; reflexivity|].
  refine (proj1 (sweep_deletes_inactive_window (50 * Minute)
                   (fun _ => 50 * Minute) staleStore "general" staleWindow _) _).
  - unfold staleStore. simpl. apply lookup_singleton_eq.
  - vm_compute. reflexivity.
Defined.

(** The other branch at minute 30: the cutoff is ten minutes before the
    clock started, so the window is kept and pruned. *)
Lemma sweep_prunes_active_window :
  let m' := cleanupInactiveContexts (30 * Minute) (fun _ => 30 * Minute) staleStore in
  contexts m' !! "general" =
    Some (pruneChannelContext (30 * Minute) 20 staleWindow).
Proof.
  intros m'. subst m'. rewrite sweep_lookup.
  unfold staleStore. simpl contexts. rewrite lookup_singleton_eq.
  reflexivity.
Qed.

(** Where twice the age fits a [Duration], the sweep deletes the windows
    last written before [now - 2 * maxAge] and prunes the others. *)
Lemma sweep_at_the_exact_threshold now nowAt m key ctx :
  contexts m !! key = Some ctx ->
  - max_int <= 2 * maxAgeMinutes m * Minute <= max_int ->
  let m' := cleanupInactiveContexts now nowAt m in
  (LastActive ctx < now - 2 * maxAgeMinutes m * Minute ->
     contexts m' !! key = None
     /\ GetContextSize key m' = 0
     /\ GetMessages key m' = [])
  /\ (~ LastActive ctx < now - 2 * maxAgeMinutes m * Minute ->
     contexts m' !! key =
       Some (pruneChannelContext (nowAt key) (maxAgeMinutes m) ctx)).
Proof.
  intros Hctx Hfit m'.
  assert (Hlook := sweep_lookup now nowAt m key).
  rewrite Hctx, (inactiveCutoff_exact now _ Hfit) in Hlook.
  fold m' in Hlook. unfold Before in Hlook.
  split; intros Hlt.
  - apply Z.ltb_lt in Hlt. rewrite Hlt in Hlook.
    unfold GetContextSize, GetMessages. rewrite Hlook. auto.
  - apply Z.ltb_nlt in Hlt. rewrite Hlt in Hlook. exact Hlook.
Qed.

(** C8 (the code departs from the claim).  The claim: the sweep deletes
    the windows last written before [now - 2 * maxAge] and prunes every
    other window.  The sweep computes its cutoff with the 64-bit product
    [-time.Duration(m.maxAgeMinutes*2) * time.Minute].  Under a configured
    age of 76861434 minutes twice the age is 9223372080000000000
    nanoseconds, more than the largest [Duration]; the negated product
    wraps to a positive duration and the cutoff lies 292 years after
    [now].  A window written at the very instant of the sweep is then
    before the cutoff: it is not past the threshold of the claim, a prune
    would keep both of its messages, and the sweep deletes it. *)
Theorem sweep_deletes_active_window_when_cutoff_wraps :
  let now := 5 * Minute in
  let m' := cleanupInactiveContexts now (fun _ => now) centuryStore in
  contexts centuryStore !! "general" = Some staleWindow
  /\ LastActive staleWindow = now
  /\ ~ LastActive staleWindow < now - 2 * maxAgeMinutes centuryStore * Minute
  /\ 2 * maxAgeMinutes centuryStore * Minute = 9223372080000000000
  /\ max_int = 9223372036854775807
  /\ inactiveCutoff now (maxAgeMinutes centuryStore) = now + 9223371993709551616
  /\ pruneChannelContext now (maxAgeMinutes centuryStore) staleWindow = staleWindow
  /\ contexts m' !! "general" = None
  /\ GetContextSize "general" m' = 0
  /\ GetMessages "general" m' = [].
Proof.
  intros now m'.
  assert (Hstore : contexts centuryStore !! "general" = Some staleWindow)
    by (unfold centuryStore; simpl; apply lookup_singleton_eq).
  assert (Hlook : contexts m' !! "general" = None).
  { subst m'. rewrite sweep_lookup, Hstore.
    replace (Before (LastActive staleWindow)
               (inactiveCutoff now (maxAgeMinutes centuryStore))) with true
      by (vm_compute; reflexivity).
    reflexivity. }
  split; [exact Hstore|].
  split; [vm_compute; reflexivity|].
  split; [vm_compute; discriminate|].
  split; [vm_compute; reflexivity|].
  split; [vm_compute; reflexivity|].
  split; [vm_compute; reflexivity|].
  split; [vm_compute; reflexivity|].
  split; [exact Hlook|].
  unfold GetContextSize, GetMessages. rewrite Hlook. split; reflexivity.
Qed.

End contextmgr_facts.

(** ** float64 facts *)

Module Float64_facts.
Import GoInt Float64 Float64_spec.

Lemma int_of_zero_or_nan f : zero_or_nan (Prim2SF f) -> int_of_float64 f <= 0.
Proof.
  unfold int_of_float64. destruct (Prim2SF f); simpl; try tauto;
    intros _; unfold min_int; lia.
Qed.

Lemma div_zero_l y : zero_or_nan (Prim2SF (PrimFloat.div (float64_of_int 0) y)).
Proof.
  rewrite div_spec.
  change (Prim2SF (float64_of_int 0)) with (S754_zero false).
  destruct (Prim2SF y); exact I.
Qed.

Lemma mul_zero_or_nan x y :
  zero_or_nan (Prim2SF x) -> zero_or_nan (Prim2SF (PrimFloat.mul x y)).
Proof.
  rewrite mul_spec. destruct (Prim2SF x), (Prim2SF y); simpl; tauto.
Qed.

End Float64_facts.

(** ** The token bucket *)

Module ratelimit_facts.
Import GoInt GoTime Float64 GoInt_facts Float64_facts ratelimit ratelimit_spec.

Lemma min_spec a b : min a b = Z.min a b.
Proof. unfold min. destruct (Z.ltb_spec a b); lia. Qed.

Lemma tokensToAdd_gainOf now l :
  tokensToAdd now l = gainOf (Sub now (lastRefill l)) (refillInterval l) (refillRate l).
Proof. reflexivity. Qed.

Lemma Sub_small t d : in_range d -> Sub (t + d) t = d.
Proof.
  unfold Sub, in_range. intros H. replace (t + d - t) with d by lia. lia.
Qed.

Lemma Sub_diag t : Sub t t = 0.
Proof. unfold Sub, min_int, max_int. rewrite Z.sub_diag. lia. Qed.

(** No time elapsed: the quotient is a zero (or a NaN when the interval is
    zero too), so is the product, and nothing is added. *)
Lemma gainOf_zero interval rate : gainOf 0 interval rate <= 0.
Proof.
  unfold gainOf. apply int_of_zero_or_nan, mul_zero_or_nan, div_zero_l.
Qed.

Lemma refill_unfold now l :
  refill now l =
  if 0 <? tokensToAdd now l then
    {| tokens := Z.min (maxTokens l) (wrap64 (tokens l + tokensToAdd now l));
       maxTokens := maxTokens l;
       refillRate := refillRate l;
       refillInterval := refillInterval l;
       lastRefill := now |}
  else l.
Proof. unfold refill. rewrite min_spec. reflexivity. Qed.

Lemma refill_no_gain now l : tokensToAdd now l <= 0 -> refill now l = l.
Proof.
  intros H. unfold refill. destruct (Z.ltb_spec 0 (tokensToAdd now l)); [lia|reflexivity].
Qed.

Lemma refill_static now l :
  maxTokens (refill now l) = maxTokens l
  /\ refillRate (refill now l) = refillRate l
  /\ refillInterval (refill now l) = refillInterval l.
Proof. unfold refill. case_match; simpl; tauto. Qed.

Lemma Allow_static now l :
  maxTokens (snd (Allow now l)) = maxTokens l
  /\ refillRate (snd (Allow now l)) = refillRate l
  /\ refillInterval (snd (Allow now l)) = refillInterval l.
Proof.
  unfold Allow. pose proof (refill_static now l).
  case_match; simpl; tauto.
Qed.

Lemma waitTurn_static now l :
  maxTokens (snd (waitTurn now l)) = maxTokens l
  /\ refillRate (snd (waitTurn now l)) = refillRate l
  /\ refillInterval (snd (waitTurn now l)) = refillInterval l.
Proof.
  unfold waitTurn. pose proof (refill_static now l).
  repeat case_match; simpl; tauto.
Qed.

Lemma Wait_static nows : forall l,
  maxTokens (snd (Wait nows l)) = maxTokens l
  /\ refillRate (snd (Wait nows l)) = refillRate l
  /\ refillInterval (snd (Wait nows l)) = refillInterval l.
Proof.
  induction nows as [|now later IH]; intros l; simpl; [tauto|].
  pose proof (waitTurn_static now l) as (H1 & H2 & H3).
  destruct (waitTurn now l) as [[] l1]; simpl in *; try tauto.
  destruct (IH l1) as (I1 & I2 & I3). repeat split; congruence.
Qed.

Lemma refill_capped now l :
  tokens l <= maxTokens l -> tokens (refill now l) <= maxTokens l.
Proof.
  intros H. rewrite refill_unfold. case_match; simpl; lia.
Qed.

Lemma drained100_tokens :
  drained100 =
  {| tokens := 0; maxTokens := 100; refillRate := 100;
     refillInterval := Minute; lastRefill := 0 |}.
Proof. vm_compute. reflexivity. Qed.

(** C5 as stated does not hold: 34.2 seconds are 0.57 intervals, and 0.57
    times 100 is 57, but the binary64 product of 0.57 and 100 is just below
    57 and is truncated to 56. *)
Lemma refill_is_not_the_exact_floor :
  ~ (forall now l, refill now l = spec_refill now l).
Proof.
  intros H. specialize (H 34200000000 drained100).
  rewrite drained100_tokens in H.
  assert (Hcode : tokens (refill 34200000000
            {| tokens := 0; maxTokens := 100; refillRate := 100;
               refillInterval := Minute; lastRefill := 0 |}) = 56)
    by (vm_compute; reflexivity).
  rewrite H in Hcode. vm_compute in Hcode. discriminate.
Qed.

Lemma allow_no_gain now l :
  tokensToAdd now l <= 0 ->
  Allow now l = if 0 <? tokens l then (true, consume l) else (false, l).
Proof. intros H. unfold Allow. rewrite refill_no_gain by assumption. reflexivity. Qed.

Lemma tokensToAdd_offset t0 d l :
  lastRefill l = t0 -> in_range d ->
  tokensToAdd (t0 + d) l = gainOf d (refillInterval l) (refillRate l).
Proof.
  intros Hl Hd. rewrite tokensToAdd_gainOf, Hl, Sub_small by assumption. reflexivity.
Qed.

Lemma bucket5_allow t0 d k :
  0 <= k <= 5 ->
  In d [0; 1 * Second; 2 * Second; 3 * Second; 4 * Second; 5 * Second] ->
  Allow (t0 + d) (bucket5 t0 k) =
  if 0 <? 5 - k then (true, bucket5 t0 (k + 1)) else (false, bucket5 t0 k).
Proof.
  intros Hk Hd. rewrite allow_no_gain.
  - unfold consume, bucket5, sub. simpl tokens. case_match; [|reflexivity].
    rewrite wrap64_id by (unfold in_range; change min_int with (-9223372036854775808);
                          change max_int with 9223372036854775807; lia).
    do 2 f_equal. lia.
  - rewrite (tokensToAdd_offset t0 d) by
      (try reflexivity;
       simpl in Hd; intuition (subst d; unfold in_range; vm_compute; split; discriminate)).
    simpl in Hd.
    intuition (subst d; apply Z.leb_le; vm_compute; reflexivity).
Qed.

Lemma bucket5_take t0 d k k' :
  0 <= k < 5 -> k' = k + 1 ->
  In d [0; 1 * Second; 2 * Second; 3 * Second; 4 * Second; 5 * Second] ->
  Allow (t0 + d) (bucket5 t0 k) = (true, bucket5 t0 k').
Proof.
  intros Hk -> Hd. rewrite bucket5_allow by (assumption || lia).
  destruct (Z.ltb_spec 0 (5 - k)); [reflexivity|lia].
Qed.

Lemma bucket5_empty t0 d :
  In d [0; 1 * Second; 2 * Second; 3 * Second; 4 * Second; 5 * Second] ->
  Allow (t0 + d) (bucket5 t0 5) = (false, bucket5 t0 5).
Proof. intros Hd. rewrite bucket5_allow by (assumption || lia). reflexivity. Qed.

Lemma example_six_calls t0 :
  allowAt t0 [0; 1 * Second; 2 * Second; 3 * Second; 4 * Second; 5 * Second]
    (NewLimiter t0 5)
  = ([true; true; true; true; true; false], bucket5 t0 5).
Proof.
  change (NewLimiter t0 5) with (bucket5 t0 0).
  unfold allowAt.
  rewrite (bucket5_take t0 0 0 1) by (simpl; first [lia | tauto]).
  rewrite (bucket5_take t0 (1 * Second) 1 2) by (simpl; first [lia | tauto]).
  rewrite (bucket5_take t0 (2 * Second) 2 3) by (simpl; first [lia | tauto]).
  rewrite (bucket5_take t0 (3 * Second) 3 4) by (simpl; first [lia | tauto]).
  rewrite (bucket5_take t0 (4 * Second) 4 5) by (simpl; first [lia | tauto]).
  rewrite (bucket5_empty t0 (5 * Second)) by (simpl; tauto).
  reflexivity.
Qed.

Lemma example_remaining t0 :
  fst (RemainingTokens (t0 + 12 * Second) (bucket5 t0 5)) = 1.
Proof.
  unfold RemainingTokens. cbn [fst]. rewrite refill_unfold.
  rewrite (tokensToAdd_offset t0) by
    (try reflexivity; unfold in_range; vm_compute; split; discriminate).
  replace (gainOf (12 * Second) (refillInterval (bucket5 t0 5))
             (refillRate (bucket5 t0 5))) with 1 by (vm_compute; reflexivity).
  reflexivity.
Qed.

(** C5 (amended).  The refill adds the gain [tokensToAdd] computes: the
    binary64 quotient of the elapsed time by the interval, times the rate
    in binary64, truncated; the sum is capped at the capacity, so a count
    within the capacity stays within it.  [lastRefill] moves to [now] only
    when that gain is positive, otherwise the bucket is left as it was; a
    refill with no time elapsed leaves it as it was.  With a capacity of 5
    and 5 per minute, five calls of [Allow] one second apart succeed, the
    sixth fails, and 12 seconds after the creation [RemainingTokens]
    reports 1. *)
Theorem refill_adds_binary64_gain now l :
  let gain := tokensToAdd now l in
  (0 < gain ->
     tokens (refill now l) = Z.min (maxTokens l) (add (tokens l) gain)
     /\ lastRefill (refill now l) = now)
  /\ (gain <= 0 -> refill now l = l)
  /\ (tokens l <= maxTokens l -> tokens (refill now l) <= maxTokens l)
  /\ refill (lastRefill l) l = l
  /\ (forall t0,
        let '(oks, l') :=
          allowAt t0 [0; 1 * Second; 2 * Second; 3 * Second; 4 * Second; 5 * Second]
            (NewLimiter t0 5) in
        oks = [true; true; true; true; true; false]
        /\ fst (RemainingTokens (t0 + 12 * Second) l') = 1).
Proof.
  intros gain. subst gain.
  split; [|split; [|split; [|split]]].
  - intros Hgain. rewrite refill_unfold. apply Z.ltb_lt in Hgain.
    rewrite Hgain. split; reflexivity.
  - apply refill_no_gain.
  - apply refill_capped.
  - apply refill_no_gain. rewrite tokensToAdd_gainOf, Sub_diag. apply gainOf_zero.
  - intros t0. rewrite example_six_calls. split; [reflexivity|apply example_remaining].
Qed.

(** The refill 12 seconds after the bucket of the example ran empty. *)
Lemma refill_adds_binary64_gain_witness :
  tokensToAdd (12 * Second) (bucket5 0 5) = 1
  /\ tokens (refill (12 * Second) (bucket5 0 5)) = 1
  /\ lastRefill (refill (12 * Second) (bucket5 0 5)) = 12 * Second.
Proof.
  split; [vm_compute; reflexivity|].
  assert (H := proj1 (refill_adds_binary64_gain (12 * Second) (bucket5 0 5))).
  cbv zeta in H.
  replace (tokensToAdd (12 * Second) (bucket5 0 5)) with 1 in H
    by (vm_compute; reflexivity).
  exact (H eq_refl).
Defined.

(** *** The range of the token count *)

Lemma consume_within l :
  within_capacity l -> 0 < tokens l -> maxTokens l <= max_int ->
  within_capacity (consume l).
Proof.
  unfold within_capacity, consume, sub. simpl. intros H Hpos Hmax.
  rewrite wrap64_id by (unfold in_range, min_int, max_int in *; lia). lia.
Qed.

Lemma refill_within now l :
  within_capacity l -> fits now l -> within_capacity (refill now l).
Proof.
  unfold within_capacity, fits. intros H Hfit. rewrite refill_unfold.
  destruct (Z.ltb_spec 0 (tokensToAdd now l)); simpl; [|assumption].
  rewrite wrap64_id by (unfold in_range, min_int, max_int in *; lia). lia.
Qed.

Lemma Allow_within now l :
  within_capacity l -> maxTokens l <= max_int -> fits now l ->
  within_capacity (snd (Allow now l)).
Proof.
  intros H Hmax Hfit. unfold Allow.
  pose proof (refill_within now l H Hfit) as Hr.
  pose proof (refill_static now l) as (Hm & _).
  destruct (Z.ltb_spec 0 (tokens (refill now l))); simpl; [|assumption].
  apply consume_within; [assumption..|lia].
Qed.

Lemma Wait_within nows : forall l,
  within_capacity l -> maxTokens l <= max_int -> wait_fits nows l ->
  within_capacity (snd (Wait nows l)).
Proof.
  induction nows as [|now later IH]; intros l H Hmax Hfit; simpl; [assumption|].
  destruct Hfit as [Hfit Hlater]. unfold waitTurn.
  pose proof (refill_within now l H Hfit) as Hr.
  pose proof (refill_static now l) as (Hm & _).
  destruct (Z.ltb_spec 0 (tokens (refill now l))); simpl.
  - apply consume_within; [assumption..|lia].
  - destruct (refillRate (refill now l) =? 0); simpl; [assumption|].
    apply IH; [assumption|lia|assumption].
Qed.

Lemma step_static op l :
  maxTokens (step op l) = maxTokens l.
Proof.
  destruct op as [now|nows|now]; simpl.
  - apply Allow_static.
  - apply Wait_static.
  - unfold RemainingTokens. simpl. apply refill_static.
Qed.

(** As long as the sums of the refills fit the machine integer, the token
    count of a bucket stays between 0 and the capacity, whatever the
    operations and the clock readings. *)
Lemma run_within ops : forall l,
  within_capacity l -> maxTokens l <= max_int -> run_fits ops l ->
  within_capacity (run ops l).
Proof.
  induction ops as [|op ops IH]; intros l H Hmax Hfit; [assumption|].
  destruct Hfit as [Hop Hrest]. unfold run. simpl fold_left. apply IH.
  - destruct op as [now|nows|now]; simpl in *.
    + apply Allow_within; assumption.
    + apply Wait_within; assumption.
    + unfold RemainingTokens. simpl. apply refill_within; assumption.
  - rewrite step_static. assumption.
  - assumption.
Qed.

(** C7 (the code departs from the claim).  The claim: whatever the
    operations on a bucket created with a positive capacity, its token
    count stays between 0 and the capacity.  The sum [l.tokens+tokensToAdd]
    of [refill] is a machine addition: for a bucket of [2^62] per minute
    that is still full, the refill one minute after its creation adds
    [2^62] to [2^62], which wraps to the least integer; the cap keeps that
    value, and the call of [Allow] that ran the refill is refused. *)
Theorem refill_sum_wraps_below_zero :
  let l := NewLimiter 0 (2 ^ 62) in
  0 < maxTokens l
  /\ within_capacity l
  /\ tokensToAdd Minute l = 2 ^ 62
  /\ Allow Minute l = (false, refill Minute l)
  /\ tokens (run [OpAllow Minute] l) = - 2 ^ 63.
Proof.
  intros l. subst l.
  assert (Hgain : tokensToAdd Minute (NewLimiter 0 (2 ^ 62)) = 2 ^ 62)
    by (vm_compute; reflexivity).
  assert (Hrefill : tokens (refill Minute (NewLimiter 0 (2 ^ 62))) = - 2 ^ 63).
  { rewrite refill_unfold, Hgain. vm_compute. reflexivity. }
  assert (Hallow : Allow Minute (NewLimiter 0 (2 ^ 62))
                   = (false, refill Minute (NewLimiter 0 (2 ^ 62)))).
  { unfold Allow. rewrite Hrefill. reflexivity. }
  assert (Hrun : tokens (run [OpAllow Minute] (NewLimiter 0 (2 ^ 62))) = - 2 ^ 63).
  { unfold run, step. simpl fold_left. rewrite Hallow. exact Hrefill. }
  split; [reflexivity|].
  split; [split; vm_compute; discriminate|].
  split; [exact Hgain|]. split; [exact Hallow|exact Hrun].
Qed.

End ratelimit_facts.

(** ** The registry of per-channel buckets *)

Module ChannelLimiter_facts.
Import GoInt GoTime ratelimit ratelimit_facts ChannelLimiter ChannelLimiter_spec.

(** C6.  When the global bucket holds no token after its refill, [Allow]
    answers false whatever the registry holds for the channel, and returns
    the registry as it was: no bucket is created, and none is changed. *)
Theorem global_rejection_short_circuits
    nowGlobal nowCreate nowChannel channelID cl :
  tokens (refill nowGlobal (globalLimiter cl)) = 0 ->
  Allow nowGlobal nowCreate nowChannel channelID cl =
    (false, {| limiters := limiters cl;
               globalLimiter := refill nowGlobal (globalLimiter cl) |}).
Proof.
  intros Hzero. unfold Allow, ratelimit.Allow. rewrite Hzero. reflexivity.
Qed.

Lemma global_rejection_short_circuits_witness :
  fst (Allow 1 2 3 "general" exhaustedGlobal) = false
  /\ limiters (snd (Allow 1 2 3 "general" exhaustedGlobal))
     = {[ "general" := NewLimiter 0 10 ]}.
Proof.
  rewrite (global_rejection_short_circuits 1 2 3 "general" exhaustedGlobal).
  - split; reflexivity.
  - vm_compute. reflexivity.
Defined.

(** *** The ceiling of the per-channel buckets *)

Lemma getOrCreate_unseen nowCreate channelID (m : gmap string Limiter) :
  m !! channelID = None ->
  getOrCreate nowCreate channelID m =
    (NewLimiter nowCreate 10, <[channelID := NewLimiter nowCreate 10]> m).
Proof. intros H. unfold getOrCreate. rewrite H. reflexivity. Qed.

Lemma getOrCreate_seen nowCreate channelID (m : gmap string Limiter) l :
  m !! channelID = Some l -> getOrCreate nowCreate channelID m = (l, m).
Proof. intros H. unfold getOrCreate. rewrite H. reflexivity. Qed.

Lemma getOrCreate_ten nowCreate channelID (m : gmap string Limiter) :
  all_ten_per_minute m ->
  ten_per_minute (fst (getOrCreate nowCreate channelID m))
  /\ all_ten_per_minute (snd (getOrCreate nowCreate channelID m)).
Proof.
  intros Hm. destruct (m !! channelID) as [l|] eqn:E.
  - rewrite (getOrCreate_seen _ _ _ l E). simpl. split; [eapply Hm, E|exact Hm].
  - rewrite (getOrCreate_unseen _ _ _ E). simpl. split.
    + repeat split.
    + intros k l Hk. destruct (decide (channelID = k)) as [->|Hne].
      * rewrite lookup_insert_eq in Hk. inversion Hk. repeat split.
      * rewrite lookup_insert_ne in Hk by assumption. eapply Hm, Hk.
Qed.

Lemma insert_ten channelID l (m : gmap string Limiter) :
  ten_per_minute l -> all_ten_per_minute m ->
  all_ten_per_minute (<[channelID := l]> m).
Proof.
  intros Hl Hm k l' Hk. destruct (decide (channelID = k)) as [->|Hne].
  - rewrite lookup_insert_eq in Hk. inversion Hk. subst. exact Hl.
  - rewrite lookup_insert_ne in Hk by assumption. eapply Hm, Hk.
Qed.

Lemma perform_ten c cl :
  all_ten_per_minute (limiters cl) ->
  all_ten_per_minute (limiters (snd (perform c cl))).
Proof.
  intros Hm. destruct c as [nowG nowC nowCh id | nowsG nowC nowsCh id]; simpl.
  - unfold Allow.
    destruct (ratelimit.Allow nowG (globalLimiter cl)) as [ok g].
    destruct ok; simpl; [|exact Hm].
    destruct (getOrCreate_ten nowC id (limiters cl) Hm) as [Hl Hm'].
    destruct (getOrCreate nowC id (limiters cl)) as [l m'].
    pose proof (Allow_static nowCh l) as (H1 & H2 & H3).
    destruct (ratelimit.Allow nowCh l) as [ok' l']. simpl in *.
    apply insert_ten; [|exact Hm'].
    unfold ten_per_minute in *. intuition congruence.
  - unfold Wait.
    destruct (ratelimit.Wait nowsG (globalLimiter cl)) as [out g].
    destruct out; simpl; try exact Hm.
    destruct (getOrCreate_ten nowC id (limiters cl) Hm) as [Hl Hm'].
    destruct (getOrCreate nowC id (limiters cl)) as [l m'].
    pose proof (Wait_static nowsCh l) as (H1 & H2 & H3).
    destruct (ratelimit.Wait nowsCh l) as [out' l']. simpl in *.
    apply insert_ten; [|exact Hm'].
    unfold ten_per_minute in *. intuition congruence.
Qed.

Lemma session_ten cs : forall cl,
  all_ten_per_minute (limiters cl) ->
  all_ten_per_minute (limiters (snd (session cs cl))).
Proof.
  induction cs as [|c cs IH]; intros cl Hm; simpl; [exact Hm|].
  pose proof (perform_ten c cl Hm) as Hc.
  destruct (perform c cl) as [a cl1]. simpl in Hc.
  specialize (IH cl1 Hc). destruct (session cs cl1) as [answers cl2].
  exact IH.
Qed.

(** C10.  The second argument of [NewChannelLimiter] does not reach the
    registry: two registries that differ in it only are equal, and so are
    the answers and the states of any sequence of calls on them.  A bucket
    created for an unseen channel is [NewLimiter 10], and every bucket a
    registry ever holds has capacity 10 and refills 10 per minute. *)
Theorem channel_ceiling_is_ten now globalRequestsPerMinute
    channelRequestsPerMinute channelRequestsPerMinute' cs :
  let cl := NewChannelLimiter now globalRequestsPerMinute channelRequestsPerMinute in
  let cl' := NewChannelLimiter now globalRequestsPerMinute channelRequestsPerMinute' in
  cl = cl'
  /\ session cs cl = session cs cl'
  /\ (forall nowCreate channelID (m : gmap string Limiter),
        m !! channelID = None ->
        fst (getOrCreate nowCreate channelID m) = NewLimiter nowCreate 10)
  /\ (forall channelID l,
        limiters (snd (session cs cl)) !! channelID = Some l ->
        maxTokens l = 10 /\ refillRate l = 10).
Proof.
  intros cl cl'. repeat split.
  - intros nowCreate channelID m H. rewrite getOrCreate_unseen by assumption.
    reflexivity.
  - eapply (session_ten cs cl); [|eassumption].
    intros k l' Hk. subst cl. simpl in Hk. rewrite lookup_empty in Hk. discriminate.
  - eapply (session_ten cs cl); [|eassumption].
    intros k l' Hk. subst cl. simpl in Hk. rewrite lookup_empty in Hk. discriminate.
Qed.

(** A configured ceiling of 1 per minute on each channel, and a second
    request on the same channel in the same minute: it is allowed, and the
    bucket of the channel started from 10. *)
Lemma channel_ceiling_is_ten_example :
  let cl := NewChannelLimiter 0 100 1 in
  fst (session [CallAllow 1 1 1 "general"; CallAllow 2 2 2 "general"] cl)
    = [Allowed true; Allowed true].
Proof. vm_compute. reflexivity. Qed.

End ChannelLimiter_facts.

(** ** The retry executor *)

Module openwebui_facts.
Import GoInt GoTime GoError GoInt_facts openwebui openwebui_spec.

(** A check that holds on every integer of a range holds on each of them. *)
Lemma range_check (P : Z -> bool) (lo len : Z) :
  forallb P (seqZ lo len) = true ->
  forall z, lo <= z < lo + len -> P z = true.
Proof.
  intros H z Hz. rewrite forallb_forall in H. apply H.
  apply list_elem_of_In, elem_of_seqZ. exact Hz.
Qed.

(** *** Classification of the errors of the remote call *)

Lemma hasPrefix_app s t prefix :
  hasPrefix s prefix = true -> hasPrefix (s +:+ t) prefix = true.
Proof.
  revert s. induction prefix as [|a prefix IH]; intros [|b s]; simpl; try done.
  intros H. apply andb_true_iff in H as [Hab Hs].
  rewrite Hab. simpl. apply IH, Hs.
Qed.

Lemma contains_app s t substr :
  contains s substr = true -> contains (s +:+ t) substr = true.
Proof.
  induction s as [|a s IH]; simpl.
  - destruct substr; simpl; [intros _|discriminate].
    destruct t; reflexivity.
  - intros H. apply orb_true_iff in H as [H|H].
    + pose proof (hasPrefix_app (String a s) t substr H) as H'.
      change (hasPrefix (String a (s +:+ t)) substr = true) in H'.
      rewrite H'. reflexivity.
    + rewrite (IH H). apply orb_true_r.
Qed.

Lemma append_assoc (s t u : string) : s +:+ (t +:+ u) = (s +:+ t) +:+ u.
Proof.
  induction s as [|a s IH]; [reflexivity|].
  change (String a (s +:+ (t +:+ u)) = String a ((s +:+ t) +:+ u)).
  f_equal. exact IH.
Qed.

Lemma statusText_signal status :
  status = 429 \/ 500 <= status <= 599 ->
  contains (statusText status) "429" || contains (statusText status) "status 5" = true.
Proof.
  intros [->|H]; [vm_compute; reflexivity|].
  apply (range_check
           (fun status => (contains (statusText status) "429"
                           || contains (statusText status) "status 5")) 500 100);
    [vm_compute; reflexivity|lia].
Qed.

(** An error response whose body is not a JSON error object keeps its
    status in the text, and is retried when the status is 429 or 5xx. *)
Lemma plain_status_is_retryable unmarshal resp :
  unmarshal (Body resp) = None ->
  StatusCode resp = 429 \/ 500 <= StatusCode resp <= 599 ->
  exists err, errorOfResponse unmarshal resp = Some err
              /\ isRetryableError err = true.
Proof.
  intros Hbody Hstatus. unfold errorOfResponse. rewrite Hbody.
  assert ((StatusCode resp =? StatusOK) = false) as ->
    by (apply Z.eqb_neq; unfold StatusOK; lia).
  simpl negb. cbv iota. eexists. split; [reflexivity|].
  unfold isRetryableError. simpl Is. cbv iota. simpl Error.
  pose proof (statusText_signal _ Hstatus) as Hsig.
  apply orb_true_iff in Hsig as [Hsig|Hsig].
  - rewrite append_assoc.
    fold (statusText (StatusCode resp)).
    rewrite (contains_app _ _ _ Hsig). reflexivity.
  - rewrite append_assoc.
    fold (statusText (StatusCode resp)).
    rewrite (contains_app _ _ _ Hsig), orb_true_r. reflexivity.
Qed.

Lemma json_body_drops_status unmarshal resp errResp :
  StatusCode resp <> StatusOK ->
  unmarshal (Body resp) = Some errResp ->
  errorOfResponse unmarshal resp = Some (errorString (objectText errResp)).
Proof.
  intros Hstatus Hbody. unfold errorOfResponse. rewrite Hbody.
  apply Z.eqb_neq in Hstatus. rewrite Hstatus. reflexivity.
Qed.

(** C2 (the code departs from the claim).  The claim: an error of the
    remote call that stems from a 429 or a 5xx answer is classified as
    retryable.  When the body of such an answer parses as a JSON object,
    [ChatCompletion] builds the error from the fields of the object and
    leaves the status out, so [isRetryableError] finds neither of the two
    texts it looks for: a 503 and a 429 with the body [{}] are classified
    as not retryable, and [WithRetry] gives up after the first call. *)
Theorem json_error_body_is_not_retried :
  let err := errorString "API error:  (type: , code: )" in
  errorOfResponse unmarshalEmptyObject {| StatusCode := 503; Body := "{}" |} = Some err
  /\ errorOfResponse unmarshalEmptyObject {| StatusCode := 429; Body := "{}" |} = Some err
  /\ isRetryableError err = false
  /\ WithRetry overloaded neverCancelled 3 tt =
       (("", Some (Errorf_w "non-retryable error: " err)), tt, [Call (inl err)]).
Proof. vm_compute. repeat split; reflexivity. Qed.

(** *** The retry loop *)

Lemma calls_app log1 log2 : calls (log1 ++ log2) = (calls log1 + calls log2)%nat.
Proof. unfold calls. rewrite filter_app, length_app. reflexivity. Qed.

Lemma lastFailure_app log1 log2 dflt :
  lastFailure (log1 ++ log2) dflt = lastFailure log2 (lastFailure log1 dflt).
Proof. unfold lastFailure. apply fold_left_app. Qed.

Section Executor.
Context {World : Type}.
Variable GetCompletion : World -> (error + string) * World.
Variable backoffSelect : Duration -> World -> option error * World.

Lemma backoffBefore_completes attempt w log :
  never_cancelled backoffSelect ->
  exists w' evs,
    backoffBefore backoffSelect attempt w log = (None, w', log ++ evs)
    /\ calls evs = 0%nat.
Proof.
  intros Hcancel. unfold backoffBefore. destruct (0 <? attempt).
  - cbv zeta. pose proof (Hcancel (backoffDuration attempt) w) as Hc.
    destruct (backoffSelect (backoffDuration attempt) w) as [done w0].
    simpl in Hc. subst done. exists w0, [Backoff (backoffDuration attempt)].
    split; reflexivity.
  - exists w, []. rewrite app_nil_r. split; reflexivity.
Qed.

Lemma retryLoop_exhausts n : forall attempt lastErr w log,
  always_retryable GetCompletion -> never_cancelled backoffSelect ->
  exists w' evs,
    retryLoop GetCompletion backoffSelect n attempt lastErr w log =
      (("", Some (Errorf_w_nilable "max retries exceeded: " (lastFailure evs lastErr))),
       w', log ++ evs)
    /\ calls evs = n
    /\ match n with
       | O => lastFailure evs lastErr = lastErr
       | S _ => exists err, lastFailure evs lastErr = Some err
                            /\ isRetryableError err = true
       end.
Proof.
  induction n as [|n IH]; intros attempt lastErr w log Hretry Hcancel.
  - exists w, []. simpl. rewrite app_nil_r. repeat split; reflexivity.
  - simpl.
    destruct (backoffBefore_completes attempt w log Hcancel)
      as (w1 & evs1 & -> & Hevs1).
    destruct (Hretry w1) as (err & w2 & Hcall & Hclass).
    rewrite Hcall, Hclass. simpl negb. cbv iota.
    destruct (IH (add attempt 1) (Some err) w2 ((log ++ evs1) ++ [Call (inl err)])
                Hretry Hcancel) as (w' & evs & -> & Hevs & Hlast).
    exists w', (evs1 ++ [Call (inl err)] ++ evs).
    assert (Hfold : lastFailure (evs1 ++ [Call (inl err)] ++ evs) lastErr
                    = lastFailure evs (Some err)).
    { rewrite !lastFailure_app. reflexivity. }
    rewrite Hfold. split; [|split].
    + rewrite <- !app_assoc. reflexivity.
    + rewrite !calls_app, Hevs1, Hevs. reflexivity.
    + destruct n as [|n].
      * exists err. rewrite Hlast. split; [reflexivity|assumption].
      * exact Hlast.
Qed.

Lemma first_failure_aborts n attempt lastErr w log err w' :
  (attempt <= 0) ->
  GetCompletion w = (inl err, w') -> isRetryableError err = false ->
  retryLoop GetCompletion backoffSelect (S n) attempt lastErr w log =
    (("", Some (Errorf_w "non-retryable error: " err)), w', log ++ [Call (inl err)]).
Proof.
  intros Hatt Hcall Hclass. simpl. unfold backoffBefore.
  destruct (Z.ltb_spec 0 attempt); [lia|].
  rewrite Hcall, Hclass. reflexivity.
Qed.

(** A wait that the context cuts short ends the function: the error of the
    context is wrapped and returned, and the call is not made. *)
Lemma cancelled_backoff_aborts n attempt lastErr w log ctxErr w' :
  0 < attempt ->
  backoffSelect (backoffDuration attempt) w = (Some ctxErr, w') ->
  retryLoop GetCompletion backoffSelect (S n) attempt lastErr w log =
    (("", Some (Errorf_w "context cancelled during backoff: " ctxErr)), w',
     log ++ [BackoffCancelled (backoffDuration attempt)]).
Proof.
  intros Hatt Hsel. simpl. unfold backoffBefore.
  destruct (Z.ltb_spec 0 attempt); [|lia].
  cbv zeta. rewrite Hsel. reflexivity.
Qed.

End Executor.

Lemma exhausted_is_not_aborted err err' :
  Error (Errorf_w "max retries exceeded: " err)
  <> Error (Errorf_w "non-retryable error: " err').
Proof.
  unfold Errorf_w, Error. intros H.
  change ("max retries exceeded: " +:+ Error err)
    with (String "m" ("ax retries exceeded: " +:+ Error err)) in H.
  change ("non-retryable error: " +:+ Error err')
    with (String "n" ("on-retryable error: " +:+ Error err')) in H.
  discriminate H.
Qed.

(** C3 as stated does not hold: every call fails with a retryable error,
    and yet the call is made once instead of four times, because the
    context is done during the first wait; what is returned is the error of
    the cancellation. *)
Lemma cancellation_cuts_retries_short :
  ~ (forall (World : Type) (GetCompletion : World -> (error + string) * World)
       (backoffSelect : Duration -> World -> option error * World)
       (N : Z) (w : World),
       0 <= N ->
       always_retryable GetCompletion ->
       calls (snd (WithRetry GetCompletion backoffSelect N w)) = Z.to_nat (N + 1)).
Proof.
  intros H.
  specialize (H unit alwaysTimesOut deadlinePassed 3 tt).
  assert (Hone : calls (snd (WithRetry alwaysTimesOut deadlinePassed 3 tt)) = 1%nat)
    by (vm_compute; reflexivity).
  rewrite H in Hone.
  - vm_compute in Hone. discriminate.
  - lia.
  - intros w. exists DeadlineExceeded, w. split; reflexivity.
Qed.

(** C3 (amended).  For [maxRetries = N] with [0 <= N] below the largest
    integer: when every call fails with a retryable error and no wait is
    cut short by the context, the call is made exactly [N + 1] times and
    the error returned wraps the error of the last call under the text of
    exhausted retries; when the first call fails with an error that is not
    retryable, the call is made once and the error returned wraps that
    error under the text of a non-retryable failure.  The two texts differ
    whatever the wrapped errors are. *)
Theorem retries_exhaust_or_abort {World : Type}
    (GetCompletion : World -> (error + string) * World)
    (backoffSelect : Duration -> World -> option error * World)
    (N : Z) (w : World) :
  0 <= N < max_int ->
  (always_retryable GetCompletion -> never_cancelled backoffSelect ->
     exists err w' log,
       WithRetry GetCompletion backoffSelect N w =
         (("", Some (Errorf_w "max retries exceeded: " err)), w', log)
       /\ calls log = Z.to_nat (N + 1)
       /\ lastFailure log None = Some err
       /\ Unwrap (Errorf_w "max retries exceeded: " err) = Some err)
  /\ (forall err w',
        GetCompletion w = (inl err, w') -> isRetryableError err = false ->
        WithRetry GetCompletion backoffSelect N w =
          (("", Some (Errorf_w "non-retryable error: " err)), w', [Call (inl err)])
        /\ calls [Call (inl err)] = 1%nat)
  /\ (forall err err',
        Error (Errorf_w "max retries exceeded: " err)
        <> Error (Errorf_w "non-retryable error: " err')).
Proof.
  intros HN. assert (HS : exists n, Z.to_nat (N + 1) = S n).
  { exists (Z.to_nat N). lia. }
  destruct HS as [n Hn]. unfold WithRetry. rewrite Hn.
  split; [|split].
  - intros Hretry Hcancel.
    destruct (retryLoop_exhausts GetCompletion backoffSelect (S n) 0 None w []
                Hretry Hcancel) as (w' & evs & Hrun & Hcalls & err & Hlast & _).
    exists err, w', evs. rewrite Hrun, Hlast. simpl app. repeat split; assumption.
  - intros err w' Hcall Hclass.
    rewrite (first_failure_aborts GetCompletion backoffSelect n 0 None w [] err w')
      by (assumption || lia).
    split; reflexivity.
  - apply exhausted_is_not_aborted.
Qed.

(** A server that always times out, a context that is never done, and
    three retries: four calls. *)
Lemma retries_exhaust_or_abort_witness :
  exists err w' log,
    WithRetry alwaysTimesOut neverCancelled 3 tt =
      (("", Some (Errorf_w "max retries exceeded: " err)), w', log)
    /\ calls log = 4%nat
    /\ lastFailure log None = Some err
    /\ Unwrap (Errorf_w "max retries exceeded: " err) = Some err.
Proof.
  refine (proj1 (retries_exhaust_or_abort alwaysTimesOut neverCancelled 3 tt _) _ _).
  - vm_compute. split; [discriminate|reflexivity].
  - intros w. exists DeadlineExceeded, w. split; reflexivity.
  - intros d w. reflexivity.
Defined.

(** *** The backoff *)

(** Up to attempt 34 the wait is the exponential one, capped. *)
Lemma backoffDuration_capped attempt :
  1 <= attempt <= 34 ->
  backoffDuration attempt = Z.min (30 * Second) (2 ^ (attempt - 1) * Second).
Proof.
  intros H. apply Z.eqb_eq.
  apply (range_check
           (fun attempt => backoffDuration attempt
                           =? Z.min (30 * Second) (2 ^ (attempt - 1) * Second)) 1 34);
    [vm_compute; reflexivity|lia].
Qed.

(** Beyond attempt 34, which no caller of [WithRetry] reaches: the
    product [time.Duration(1<<uint(attempt-1)) * time.Second] is a 64-bit
    one; at attempt 35 it is [2^34 * 10^9], which wraps to a negative
    duration; a negative duration is not above the cap, so the timer fires
    at once.  From attempt 56 on the product is 0, and from attempt 65 on
    the shift is.  A run with 35 retries against a server that always
    fails waits 1, 2, 4, 8, 16 and then 29 times 30 seconds, and not at
    all before the last call. *)
Lemma backoff_wraps_at_attempt_35 :
  backoffDuration 35 = -1266874889709551616
  /\ Z.min (30 * Second) (2 ^ (35 - 1) * Second) = 30 * Second
  /\ backoffDuration 56 = 0
  /\ backoffDuration 65 = 0
  /\ backoffs (snd (WithRetry alwaysTimesOut neverCancelled 35 tt))
     = [1 * Second; 2 * Second; 4 * Second; 8 * Second; 16 * Second]
       ++ repeat (30 * Second) 29 ++ [-1266874889709551616]
  /\ calls (snd (WithRetry alwaysTimesOut neverCancelled 35 tt)) = 36%nat.
Proof. vm_compute. repeat split; reflexivity. Qed.



Section Waits.
Context {World : Type}.
Variable GetCompletion : World -> (error + string) * World.
Variable backoffSelect : Duration -> World -> option error * World.


End Waits.



End openwebui_facts.

(** ** The registry under concurrent callers *)

Module registry_race_facts.
Import GoInt GoTime ratelimit registry_race registry_race_spec.

Lemma filter_none {A} (P : A -> Prop) `{forall x, Decision (P x)} (l : list A) :
  (forall x, x ∈ l -> ~ P x) -> filter P l = [].
Proof.
  induction l as [|a l IH]; intros Hl; [reflexivity|].
  rewrite filter_cons. destruct (decide (P a)) as [Ha|Ha].
  - exfalso. apply (Hl a); [left|assumption].
  - apply IH. intros x Hx. apply Hl. right. exact Hx.
Qed.

(** A list in which the elements that satisfy [P] all sit at one index has
    at most one of them. *)
Lemma filter_at_most_one {A} (P : A -> Prop) `{forall x, Decision (P x)}
    (l : list A) :
  (forall i j x y, l !! i = Some x -> l !! j = Some y -> P x -> P y -> i = j) ->
  (length (filter P l) <= 1)%nat.
Proof.
  induction l as [|a l IH]; intros Hl; [simpl; lia|].
  rewrite filter_cons. destruct (decide (P a)) as [Ha|Ha].
  - rewrite filter_none; [simpl; lia|].
    intros y Hy Py. apply list_elem_of_lookup in Hy as [j Hj].
    specialize (Hl 0%nat (S j) a y eq_refl Hj Ha Py). discriminate.
  - apply IH. intros i j x y Hi Hj Px Py.
    specialize (Hl (S i) (S j) x y Hi Hj Px Py). lia.
Qed.

Lemma createdFor_at_most_one s k :
  registered s -> (length (createdFor k (heap s)) <= 1)%nat.
Proof.
  intros [_ Hheap]. apply filter_at_most_one.
  intros i j x y Hi Hj Hx Hy.
  apply Hheap in Hi, Hj. rewrite Hx in Hi. rewrite Hy in Hj. congruence.
Qed.

Lemma createdFor_registered s k p :
  registered s -> limiters s !! k = Some p ->
  length (createdFor k (heap s)) = 1%nat.
Proof.
  intros Hreg Hk. pose proof (createdFor_at_most_one s k Hreg) as Hle.
  destruct Hreg as [Hmap _]. destruct (Hmap k p Hk) as (c & Hc & Hown).
  assert (Hin : c ∈ createdFor k (heap s)).
  { apply list_elem_of_filter. split; [exact Hown|].
    apply list_elem_of_lookup. exists p. exact Hc. }
  destruct (createdFor k (heap s)); [inversion Hin|simpl in *; lia].
Qed.

Lemma createdFor_unseen s k :
  registered s -> limiters s !! k = None -> createdFor k (heap s) = [].
Proof.
  intros [_ Hheap] Hk. apply filter_none. intros c Hc Hown.
  apply list_elem_of_lookup in Hc as [p Hp].
  apply Hheap in Hp. rewrite Hown in Hp. congruence.
Qed.

Lemma lockedCreate_spec now k s :
  registered s ->
  let '(p, s') := lockedCreate now k s in
  registered s'
  /\ limiters s' !! k = Some p
  /\ (forall k' p', limiters s !! k' = Some p' -> limiters s' !! k' = Some p').
Proof.
  intros [Hmap Hheap]. unfold lockedCreate.
  destruct (limiters s !! k) as [p|] eqn:Hk.
  - repeat split; try assumption. intros; assumption.
  - repeat split; simpl.
    + intros k' p' Hk'. destruct (decide (k = k')) as [<-|Hne].
      * rewrite lookup_insert_eq in Hk'. inversion Hk'; subst p'.
        eexists. split;
          [rewrite lookup_app_r by lia; rewrite Nat.sub_diag; reflexivity
          |reflexivity].
      * rewrite lookup_insert_ne in Hk' by assumption.
        destruct (Hmap k' p' Hk') as (c & Hc & Hown).
        exists c. split; [|exact Hown]. apply lookup_app_l_Some, Hc.
    + intros p c Hp. apply lookup_app_Some in Hp as [Hp|[Hlen Hp]].
      * pose proof (Hheap p c Hp) as Hreg.
        destruct (decide (k = owner c)) as [->|Hne]; [congruence|].
        rewrite lookup_insert_ne by assumption. exact Hreg.
      * destruct (p - length (heap s))%nat as [|n] eqn:Hd; [|destruct n; discriminate].
        inversion Hp; subst c. simpl. rewrite lookup_insert_eq. f_equal. lia.
    + apply lookup_insert_eq.
    + intros k' p' Hk'. destruct (decide (k = k')) as [<-|Hne]; [congruence|].
      rewrite lookup_insert_ne by assumption. exact Hk'.
Qed.

Lemma withBucket_registered s p c l :
  registered s -> heap s !! p = Some c -> registered (withBucket s p c l).
Proof.
  intros [Hmap Hheap] Hp. pose proof (lookup_lt_Some _ _ _ Hp) as Hlt.
  split; simpl.
  - intros k q Hk. destruct (Hmap k q Hk) as (c' & Hc' & Hown).
    destruct (decide (p = q)) as [<-|Hne].
    + rewrite list_lookup_insert_eq by assumption. eexists. split; [reflexivity|].
      simpl. congruence.
    + rewrite list_lookup_insert_ne by assumption. eauto.
  - intros q c' Hq. destruct (decide (p = q)) as [<-|Hne].
    + rewrite list_lookup_insert_eq in Hq by assumption. inversion Hq; subst c'.
      simpl. apply Hheap, Hp.
    + rewrite list_lookup_insert_ne in Hq by assumption. apply Hheap, Hq.
Qed.

(** The three parts of [stepThread_spec] that a stretch settles at once
    when it leaves registry and heap as they were ([Hreg] is their agreement
    after the stretch). *)
Ltac frame Hreg :=
  split; [exact Hreg|]; split; [reflexivity|]; split; [intros; assumption|].

(** A stretch keeps registry and heap in agreement, never unregisters a
    pointer, and leaves the goroutine with a registered pointer if it has
    one. *)
Lemma stepThread_spec now t s t' s' :
  registered s ->
  (forall p, uses t p -> limiters s !! channelID t = Some p) ->
  stepThread now t s = Some (t', s') ->
  registered s'
  /\ channelID t' = channelID t
  /\ (forall k p, limiters s !! k = Some p -> limiters s' !! k = Some p)
  /\ (forall p, uses t' p -> limiters s' !! channelID t' = Some p).
Proof.
  intros Hreg Huse Hstep. unfold stepThread in Hstep.
  destruct (pc t) as [| | |p|ok p|] eqn:Hpc; try discriminate.
  - (* the global bucket *)
    assert (Hno : forall (b : Pc),
              (b = AtLookup \/ b = AtGlobal \/ b = Panicked \/ b = Returned false None) ->
              forall p, ~ uses (goto t b) p).
    { intros b Hb p [Hu|[a Hu]]; simpl in Hu; intuition congruence. }
    destruct (method t).
    + destruct (Allow now (globalLimiter s)) as [ok g]. inversion Hstep; subst.
      frame Hreg.
      intros p Hp. exfalso. eapply Hno; [|exact Hp]. destruct ok; auto.
    + destruct (waitTurn now (globalLimiter s)) as [out g]. inversion Hstep; subst.
      frame Hreg.
      intros p Hp. exfalso. eapply Hno; [|exact Hp]. destruct out; auto.
  - (* the lookup under the read lock *)
    destruct (limiters s !! channelID t) as [p|] eqn:Hk; inversion Hstep; subst.
    + frame Hreg.
      intros q [Hq|[a Hq]]; simpl in Hq; [|discriminate].
      inversion Hq; subst. exact Hk.
    + frame Hreg.
      intros q [Hq|[a Hq]]; simpl in Hq; discriminate.
  - (* the creation under the write lock *)
    pose proof (lockedCreate_spec now (channelID t) s Hreg) as Hc.
    destruct (lockedCreate now (channelID t) s) as [p s1].
    destruct Hc as (Hreg1 & Hp & Hgrow). inversion Hstep; subst.
    split; [exact Hreg1|]. split; [reflexivity|]. split; [exact Hgrow|].
    intros q [Hq|[a Hq]]; simpl in Hq; [|discriminate].
    inversion Hq; subst. exact Hp.
  - (* the bucket of the channel *)
    assert (Hk : limiters s !! channelID t = Some p) by (apply Huse; left; exact Hpc).
    destruct (heap s !! p) as [c|] eqn:Hc; [|discriminate].
    pose proof (fun l => withBucket_registered s p c l Hreg Hc) as Hreg1.
    destruct (method t).
    + destruct (Allow now (bucket c)) as [ok l]. inversion Hstep; subst.
      frame (Hreg1 l).
      intros q [Hq|[a Hq]]; simpl in Hq; [discriminate|].
      inversion Hq; subst. exact Hk.
    + destruct (waitTurn now (bucket c)) as [out l]. inversion Hstep; subst.
      frame (Hreg1 l).
      intros q [Hq|[a Hq]]; simpl in Hq; destruct out; try discriminate;
        inversion Hq; subst; exact Hk.
Qed.

Lemma step_preserves s ts s' ts' :
  registered s /\ threadsAgree s ts ->
  step (s, ts) (s', ts') ->
  registered s' /\ threadsAgree s' ts'.
Proof.
  intros [Hreg Hagree] Hstep.
  inversion Hstep as [i now t t' s0 s1 ts0 Hi Hrun]; subst.
  destruct (stepThread_spec now t s t' s' Hreg (fun p => Hagree i t p Hi) Hrun)
    as (Hreg' & Hchan & Hgrow & Huse').
  split; [exact Hreg'|].
  intros j u p Hj Hu. destruct (decide (i = j)) as [<-|Hne].
  - rewrite list_lookup_insert_eq in Hj by (eapply lookup_lt_Some, Hi).
    inversion Hj; subst u. apply Huse', Hu.
  - rewrite list_lookup_insert_ne in Hj by assumption.
    apply Hgrow, (Hagree j u p Hj Hu).
Qed.

Lemma run_preserves σ σ' :
  rtc step σ σ' ->
  registered σ.1 /\ threadsAgree σ.1 σ.2 ->
  registered σ'.1 /\ threadsAgree σ'.1 σ'.2.
Proof.
  induction 1 as [|[s ts] [s1 ts1] σ' Hstep _ IH]; [tauto|].
  intros Hinv. apply IH. simpl in *. eapply step_preserves; eassumption.
Qed.

Lemma schedule_run sched : forall σ σ',
  schedule sched σ = Some σ' -> rtc step σ σ'.
Proof.
  induction sched as [|[i now] sched IH]; intros [s ts] σ' H; simpl in H.
  - inversion H. apply rtc_refl.
  - destruct (ts !! i) as [t|] eqn:Hi; [|discriminate].
    destruct (stepThread now t s) as [[t' s']|] eqn:Hstep; [|discriminate].
    eapply rtc_l; [|apply IH, H]. econstructor; eassumption.
Qed.

(** C9.  Goroutines that start calls of [Allow] or [Wait], on a registry
    that has no bucket for [key] yet, run in any interleaving.  At every
    point of the run the heap holds at most one bucket created for [key];
    a goroutine that has a bucket for [key] in hand has the registered one,
    which is then the only one created for [key], and any other goroutine
    with a bucket for [key] in hand has the same one. *)
Theorem first_use_creates_one_bucket key s0 ts0 s ts :
  registered s0 ->
  limiters s0 !! key = None ->
  Forall (fun t => pc t = AtGlobal) ts0 ->
  rtc step (s0, ts0) (s, ts) ->
  createdFor key (heap s0) = []
  /\ (length (createdFor key (heap s)) <= 1)%nat
  /\ (forall i t p,
        ts !! i = Some t -> channelID t = key -> uses t p ->
        limiters s !! key = Some p
        /\ length (createdFor key (heap s)) = 1%nat
        /\ (forall j t' p',
              ts !! j = Some t' -> channelID t' = key -> uses t' p' -> p' = p)).
Proof.
  intros Hreg0 Hunseen Hstart Hrun.
  assert (Hagree0 : threadsAgree s0 ts0).
  { intros i t p Hi [Hu|[a Hu]];
      rewrite Forall_lookup in Hstart; rewrite (Hstart i t Hi) in Hu; discriminate. }
  destruct (run_preserves _ _ Hrun (conj Hreg0 Hagree0)) as [Hreg Hagree].
  simpl in Hreg, Hagree.
  split; [apply createdFor_unseen; assumption|].
  split; [apply createdFor_at_most_one; assumption|].
  intros i t p Hi Hkey Hu.
  assert (Hp : limiters s !! key = Some p) by (rewrite <- Hkey; eapply Hagree; eassumption).
  split; [exact Hp|]. split; [eapply createdFor_registered; eassumption|].
  intros j t' p' Hj Hkey' Hu'.
  pose proof (Hagree j t' p' Hj Hu') as Hp'. rewrite Hkey', Hp in Hp'. congruence.
Qed.

(** *** One caller alone *)

Lemma view_withGlobal s g :
  view (withGlobal s g) =
  {| ChannelLimiter.limiters := ChannelLimiter.limiters (view s);
     ChannelLimiter.globalLimiter := g |}.
Proof. reflexivity. Qed.

Lemma view_withBucket s key p c l :
  registered s -> limiters s !! key = Some p -> heap s !! p = Some c ->
  view (withBucket s p c l) =
  {| ChannelLimiter.limiters := <[key := l]> (ChannelLimiter.limiters (view s));
     ChannelLimiter.globalLimiter := globalLimiter s |}.
Proof.
  intros [Hmap Hheap] Hkey Hp. pose proof (lookup_lt_Some _ _ _ Hp) as Hlt.
  unfold view. simpl. f_equal.
  apply map_eq. intros k.
  rewrite lookup_omap. destruct (decide (key = k)) as [<-|Hne].
  - rewrite lookup_insert_eq, Hkey. simpl.
    rewrite list_lookup_insert_eq by assumption. reflexivity.
  - rewrite lookup_insert_ne, lookup_omap by assumption.
    destruct (limiters s !! k) as [q|] eqn:Hk; [|reflexivity]. simpl.
    destruct (decide (p = q)) as [<-|Hpq].
    + destruct (Hmap k p Hk) as (c1 & Hc1 & Hown1).
      destruct (Hmap key p Hkey) as (c2 & Hc2 & Hown2). congruence.
    + rewrite list_lookup_insert_ne by assumption. reflexivity.
Qed.

Lemma view_lockedCreate now key s :
  registered s -> limiters s !! key = None ->
  view (lockedCreate now key s).2 =
  {| ChannelLimiter.limiters :=
       <[key := NewLimiter now 10]> (ChannelLimiter.limiters (view s));
     ChannelLimiter.globalLimiter := globalLimiter s |}.
Proof.
  intros [Hmap Hheap] Hkey. unfold lockedCreate. rewrite Hkey.
  unfold view. simpl. f_equal.
  apply map_eq. intros k.
  rewrite lookup_omap. destruct (decide (key = k)) as [<-|Hne].
  - rewrite !lookup_insert_eq. simpl.
    rewrite lookup_app_r by lia. rewrite Nat.sub_diag. reflexivity.
  - rewrite !lookup_insert_ne, lookup_omap by assumption.
    destruct (limiters s !! k) as [q|] eqn:Hk; [|reflexivity]. simpl.
    destruct (Hmap k q Hk) as (c & Hc & _).
    rewrite (lookup_app_l_Some _ _ _ _ Hc), Hc. reflexivity.
Qed.

Lemma lockedCreate_unseen now key s :
  limiters s !! key = None ->
  (lockedCreate now key s).1 = length (heap s)
  /\ heap (lockedCreate now key s).2 !! length (heap s)
     = Some {| owner := key; bucket := NewLimiter now 10 |}.
Proof.
  intros Hkey. unfold lockedCreate. rewrite Hkey. simpl. split; [reflexivity|].
  rewrite lookup_app_r by lia. rewrite Nat.sub_diag. reflexivity.
Qed.

(** The stretches of one call, run with nothing in between, are the call of
    the registry that one caller at a time uses. *)
Lemma soloAllow_sequential nowGlobal nowCreate nowChannel key s pc' s' :
  registered s ->
  soloAllow nowGlobal nowCreate nowChannel key s = Some (pc', s') ->
  exists ok used,
    pc' = Returned ok used
    /\ ChannelLimiter.Allow nowGlobal nowCreate nowChannel key (view s) = (ok, view s').
Proof.
  intros Hreg Hsolo. unfold soloAllow, stepThread in Hsolo. simpl in Hsolo.
  unfold ChannelLimiter.Allow. simpl ChannelLimiter.globalLimiter.
  destruct (Allow nowGlobal (globalLimiter s)) as [[] g]; simpl in Hsolo.
  2:{ inversion Hsolo; subst. exists false, None. split; reflexivity. }
  simpl negb. cbv iota. unfold ChannelLimiter.getOrCreate.
  change (ChannelLimiter.limiters (view s) !! key)
    with (omap (fun p => bucket <$> heap s !! p) (limiters s) !! key).
  rewrite lookup_omap.
  destruct (limiters s !! key) as [p|] eqn:Hkey; simpl in Hsolo |- *.
  - destruct (proj1 Hreg key p Hkey) as (c & Hc & Hown).
    rewrite Hc in Hsolo |- *. simpl.
    destruct (Allow nowChannel (bucket c)) as [ok l]. inversion Hsolo; subst.
    exists ok, (Some p). split; [reflexivity|]. f_equal.
    rewrite (view_withBucket (withGlobal s g) (owner c) p c l);
      [reflexivity|exact Hreg|assumption..].
  - pose proof (lockedCreate_spec nowCreate key (withGlobal s g) Hreg) as Hspec.
    pose proof (view_lockedCreate nowCreate key (withGlobal s g) Hreg Hkey) as Hview.
    destruct (lockedCreate_unseen nowCreate key (withGlobal s g) Hkey) as [Hp Hcell].
    destruct (lockedCreate nowCreate key (withGlobal s g)) as [p s1].
    simpl in Hp, Hcell, Hview. subst p.
    destruct Hspec as (Hreg1 & Hkey1 & _).
    simpl in Hsolo. change (heap (withGlobal s g)) with (heap s) in Hsolo.
    rewrite Hcell in Hsolo. simpl in Hsolo.
    destruct (Allow nowChannel (NewLimiter nowCreate 10)) as [ok l].
    inversion Hsolo; subst.
    exists ok, (Some (length (heap s))). split; [reflexivity|]. f_equal.
    assert (Hg : globalLimiter s1 = g)
      by (apply (f_equal ChannelLimiter.globalLimiter) in Hview; exact Hview).
    rewrite (view_withBucket s1 key (length (heap s)) _ l Hreg1 Hkey1 Hcell), Hview, Hg.
    simpl. rewrite insert_insert_eq. reflexivity.
Qed.

Lemma first_use_creates_one_bucket_witness :
  exists s ts,
    schedule raceSchedule (freshRegistry, twoCallers) = Some (s, ts)
    /\ map pc ts = [AtLimiter 0; AtLimiter 0]
    /\ limiters s !! "general" = Some 0%nat
    /\ length (createdFor "general" (heap s)) = 1%nat.
Proof.
  destruct (schedule raceSchedule (freshRegistry, twoCallers)) as [[s ts]|] eqn:Hrun;
    [|vm_compute in Hrun; discriminate].
  exists s, ts. split; [reflexivity|].
  assert (Hts : map pc ts = [AtLimiter 0; AtLimiter 0]
                /\ map channelID ts = ["general"; "general"]).
  { vm_compute in Hrun. inversion Hrun. split; reflexivity. }
  destruct Hts as [Hpcs Hchans]. split; [exact Hpcs|].
  destruct ts as [|t ts]; [discriminate|].
  pose proof Hpcs as Hpcs'. pose proof Hchans as Hchans'. simpl in Hpcs', Hchans'.
  injection Hpcs' as Hpc _. injection Hchans' as Hchan _.
  assert (Hreg0 : registered freshRegistry).
  { split; simpl; intros ? ? H; [rewrite lookup_empty in H|]; discriminate. }
  destruct (first_use_creates_one_bucket "general" freshRegistry twoCallers s (t :: ts)
              Hreg0 (lookup_empty _)
              ltac:(repeat constructor)
              (schedule_run _ _ _ Hrun)) as (_ & _ & Huse).
  destruct (Huse 0%nat t 0%nat eq_refl Hchan (or_introl Hpc)) as (Hp & Hone & _).
  split; assumption.
Defined.

End registry_race_facts.

(** * Further properties of the code *)

(** ** The conversation store: appending, pruning, sweeping *)

Module contextmgr_laws.
Import GoInt GoTime contextmgr contextmgr_spec contextmgr_facts contextmgr_api contextmgr_notions.

(** What the loop of [pruneChannelContext] finds: nothing live, and the
    initial value stays; or the index of the first live message. *)
Lemma scanFirstValid_spec cutoffTime msgs : forall i d,
  (scanFirstValid cutoffTime i msgs d = d /\ Forall (stale cutoffTime) msgs)
  \/ (exists k msg, scanFirstValid cutoffTime i msgs d = (i + k)%nat
        /\ msgs !! k = Some msg /\ live cutoffTime msg
        /\ Forall (stale cutoffTime) (take k msgs)).
Proof.
  induction msgs as [|msg rest IH]; intros i d; simpl.
  - left. split; [reflexivity|constructor].
  - destruct (After (Timestamp msg) cutoffTime) eqn:E.
    + right. exists 0%nat, msg. rewrite Nat.add_0_r. simpl.
      repeat split; [exact E|constructor].
    + destruct (IH (S i) d) as [[Hd Hall]|(k & msg' & Hk & Hlook & Hlive & Hpre)].
      * left. split; [exact Hd|]. constructor; assumption.
      * right. exists (S k), msg'. simpl.
        repeat split; [lia|assumption..| constructor; assumption].
Qed.

Lemma withMessages_same ctx : withMessages ctx (Messages ctx) = ctx.
Proof. destruct ctx; reflexivity. Qed.

(** A prune either finds no live message and changes nothing, or cuts the
    window in front of its first live message. *)
Lemma prune_cases now maxAge ctx :
  (Forall (stale (pruneCutoff now maxAge)) (Messages ctx)
   /\ pruneChannelContext now maxAge ctx = ctx)
  \/ (exists k msg,
        Messages ctx !! k = Some msg
        /\ live (pruneCutoff now maxAge) msg
        /\ Forall (stale (pruneCutoff now maxAge)) (take k (Messages ctx))
        /\ pruneChannelContext now maxAge ctx
           = withMessages ctx (drop k (Messages ctx))).
Proof.
  destruct (scanFirstValid_spec (pruneCutoff now maxAge) (Messages ctx) 0 0)
    as [[Hd Hall]|(k & msg & Hk & Hlook & Hlive & Hpre)].
  - left. split; [exact Hall|]. apply prune_all_stale, Hall.
  - right. exists k, msg. repeat split; try assumption.
    assert (Hlt : (k < length (Messages ctx))%nat) by (eapply lookup_lt_Some; eauto).
    unfold pruneChannelContext.
    destruct (Messages ctx) as [|m0 rest] eqn:E; [simpl in Hlt; lia|].
    rewrite <- E in *. cbv zeta. rewrite Hk. simpl.
    assert (Hlen : (length (Messages ctx) <=? k)%nat = false) by (apply Nat.leb_gt; lia).
    rewrite Hlen.
    destruct k as [|k]; simpl; [|reflexivity].
    symmetry. apply withMessages_same.
Qed.

Lemma prune_is_drop now maxAge ctx :
  exists k,
    (Messages ctx = [] \/ (k < length (Messages ctx))%nat)
    /\ pruneChannelContext now maxAge ctx = withMessages ctx (drop k (Messages ctx)).
Proof.
  destruct (prune_cases now maxAge ctx) as [[_ H]|(k & msg & Hlook & _ & _ & H)].
  - exists 0%nat. split.
    + destruct (Messages ctx); [left; reflexivity|right; simpl; lia].
    + rewrite H. simpl. symmetry. apply withMessages_same.
  - exists k. split; [right; eapply lookup_lt_Some; eauto|exact H].
Qed.

Lemma prune_head_live now maxAge ctx msg rest :
  Messages ctx = msg :: rest ->
  live (pruneCutoff now maxAge) msg ->
  pruneChannelContext now maxAge ctx = ctx.
Proof.
  intros E Hlive. unfold pruneChannelContext. rewrite E. simpl.
  unfold live in Hlive. rewrite Hlive. reflexivity.
Qed.

Lemma prune_singleton now maxAge cid msg la :
  pruneChannelContext now maxAge
    {| ChannelID := cid; Messages := [msg]; LastActive := la |}
  = {| ChannelID := cid; Messages := [msg]; LastActive := la |}.
Proof.
  unfold pruneChannelContext. simpl.
  destruct (After (Timestamp msg) (pruneCutoff now maxAge)); reflexivity.
Qed.

Lemma last_drop {A} (l : list A) k :
  (k < length l)%nat -> last (drop k l) = last l.
Proof.
  revert k. induction l as [|x l IH]; intros k Hk; simpl in *; [lia|].
  destruct k as [|k]; [reflexivity|]. simpl.
  rewrite IH by lia. destruct l; [simpl in Hk; lia|reflexivity].
Qed.

Lemma added_message_kept nowMessage nowActive nowPrune
    channelID role content username m :
  let msg := {| Role := role; Content := content; Name := username;
                Timestamp := nowMessage |} in
  let m' := AddMessage nowMessage nowActive nowPrune channelID role content
              username m in
  (exists k, (k <= length (GetMessages channelID m))%nat
     /\ GetMessages channelID m' = drop k (GetMessages channelID m ++ [msg]))
  /\ last (GetMessages channelID m') = Some msg
  /\ 1 <= GetContextSize channelID m'
  /\ (exists ctx, contexts m' !! channelID = Some ctx /\ LastActive ctx = nowActive).
Proof.
  intros msg m'.
  set (old := GetMessages channelID m).
  set (ctx0 := match contexts m !! channelID with
               | Some ctx => ctx
               | None => {| ChannelID := channelID; Messages := []; LastActive := 0 |}
               end).
  assert (Hold : Messages ctx0 = old).
  { unfold ctx0, old, GetMessages. destruct (contexts m !! channelID); reflexivity. }
  set (ctx1 := {| ChannelID := ChannelID ctx0; Messages := Messages ctx0 ++ [msg];
                  LastActive := nowActive |}).
  assert (Hm' : contexts m' !! channelID
                = Some (pruneChannelContext nowPrune (maxAgeMinutes m) ctx1)).
  { unfold m', AddMessage. simpl. rewrite lookup_insert_eq. reflexivity. }
  destruct (prune_is_drop nowPrune (maxAgeMinutes m) ctx1) as (k & Hk & Hprune).
  assert (Hlt : (k < length (old ++ [msg]))%nat).
  { destruct Hk as [Hk|Hk]; simpl in Hk; rewrite Hold in Hk.
    - destruct old; discriminate.
    - exact Hk. }
  assert (Hget : GetMessages channelID m' = drop k (old ++ [msg])).
  { unfold GetMessages. rewrite Hm', Hprune. simpl. rewrite Hold. reflexivity. }
  rewrite length_app in Hlt. simpl in Hlt.
  split; [exists k; split; [lia|exact Hget]|].
  split.
  { rewrite Hget, last_drop by (rewrite length_app; simpl; lia).
    apply last_snoc. }
  split.
  { unfold GetContextSize. rewrite Hm', Hprune. simpl. rewrite Hold.
    rewrite length_drop, length_app. simpl. lia. }
  eexists. split; [exact Hm'|].
  destruct (prune_keeps_window nowPrune (maxAgeMinutes m) ctx1) as [_ H]. exact H.
Qed.

(** X1.  The message just added is always the last one of the window. *)
Theorem added_message_is_last nowMessage nowActive nowPrune
    channelID role content username m :
  let msg := {| Role := role; Content := content; Name := username;
                Timestamp := nowMessage |} in
  let m' := AddMessage nowMessage nowActive nowPrune channelID role content
              username m in
  (exists k, (k <= length (GetMessages channelID m))%nat
     /\ GetMessages channelID m' = drop k (GetMessages channelID m ++ [msg]))
  /\ last (GetMessages channelID m') = Some msg
  /\ 1 <= GetContextSize channelID m'
  /\ (exists ctx, contexts m' !! channelID = Some ctx /\ LastActive ctx = nowActive).
Proof. apply added_message_kept. Qed.


(** X2.  Nothing is lost while the oldest message of the window is live. *)
Theorem append_keeps_live_window nowMessage nowActive nowPrune
    channelID role content username m :
  match GetMessages channelID m with
  | [] => True
  | oldest :: _ => live (pruneCutoff nowPrune (maxAgeMinutes m)) oldest
  end ->
  GetMessages channelID
    (AddMessage nowMessage nowActive nowPrune channelID role content username m)
  = GetMessages channelID m
    ++ [{| Role := role; Content := content; Name := username;
           Timestamp := nowMessage |}].
Proof.
  intros Hhead.
  unfold GetMessages at 1, AddMessage. simpl. rewrite lookup_insert_eq.
  unfold GetMessages in *.
  destruct (contexts m !! channelID) as [ctx|] eqn:E.
  - destruct (Messages ctx) as [|oldest rest] eqn:Emsgs.
    + simpl. rewrite prune_singleton. reflexivity.
    + erewrite prune_head_live; [reflexivity|simpl; reflexivity|exact Hhead].
  - simpl. rewrite prune_singleton. reflexivity.
Qed.

Lemma append_keeps_live_window_witness :
  GetMessages "general"
    (AddMessage (6 * Minute) (6 * Minute) (6 * Minute) "general" "user" "again" "ann"
       staleStore)
  = Messages staleWindow
    ++ [{| Role := "user"; Content := "again"; Name := "ann";
           Timestamp := 6 * Minute |}].
Proof.
  apply (append_keeps_live_window (6 * Minute) (6 * Minute) (6 * Minute)
           "general" "user" "again" "ann" staleStore).
  unfold GetMessages, staleStore. simpl. rewrite lookup_singleton_eq.
  vm_compute. reflexivity.
Defined.

Lemma chronological_tail msg rest :
  chronological (msg :: rest) -> chronological rest.
Proof.
  intros H i j a b Hi Hj Hij. apply (H (S i) (S j) a b); simpl; [assumption..|lia].
Qed.

Lemma filter_all_stale cutoffTime msgs :
  Forall (stale cutoffTime) msgs -> filter (live cutoffTime) msgs = [].
Proof.
  induction 1 as [|msg rest Hmsg _ IH]; [reflexivity|].
  rewrite filter_cons_False; [exact IH|].
  unfold live, stale in *. congruence.
Qed.

Lemma filter_all_live cutoffTime msgs :
  Forall (live cutoffTime) msgs -> filter (live cutoffTime) msgs = msgs.
Proof.
  induction 1 as [|msg rest Hmsg _ IH]; [reflexivity|].
  rewrite filter_cons_True by exact Hmsg. rewrite IH. reflexivity.
Qed.

(** In a chronological window everything from the first live message on
    is live. *)
Lemma chronological_live_suffix cutoffTime msgs k msg :
  chronological msgs -> msgs !! k = Some msg -> live cutoffTime msg ->
  Forall (live cutoffTime) (drop k msgs).
Proof.
  intros Hchr Hk Hlive. apply Forall_lookup_2. intros j b Hj.
  rewrite lookup_drop in Hj.
  specialize (Hchr k (k + j)%nat msg b Hk Hj ltac:(lia)).
  unfold live, After in *. apply Z.ltb_lt. apply Z.ltb_lt in Hlive. lia.
Qed.

(** X3.  On a window whose messages stand in the order of their timestamps
    and one of which is live, the prune keeps the live messages and only
    them. *)
Theorem prune_keeps_exactly_the_live now maxAge ctx :
  chronological (Messages ctx) ->
  (exists msg, msg ∈ Messages ctx /\ live (pruneCutoff now maxAge) msg) ->
  Messages (pruneChannelContext now maxAge ctx)
  = filter (live (pruneCutoff now maxAge)) (Messages ctx)
  /\ Forall (live (pruneCutoff now maxAge))
       (Messages (pruneChannelContext now maxAge ctx)).
Proof.
  intros Hchr (l & Hin & Hl).
  destruct (prune_cases now maxAge ctx) as [[Hall _]|(k & msg & Hk & Hlive & Hpre & H)].
  - exfalso. rewrite Forall_forall in Hall. specialize (Hall _ Hin).
    unfold stale in Hall. unfold live in Hl. congruence.
  - rewrite H. simpl.
    pose proof (chronological_live_suffix _ _ _ _ Hchr Hk Hlive) as Hsuf.
    split; [|exact Hsuf].
    rewrite <- (take_drop k (Messages ctx)) at 2.
    rewrite filter_app, filter_all_stale by exact Hpre.
    rewrite filter_all_live by exact Hsuf. reflexivity.
Qed.

Lemma prune_keeps_exactly_the_live_witness :
  Messages (pruneChannelContext (35 * Minute) 20 threeWindow)
  = filter (live (pruneCutoff (35 * Minute) 20)) (Messages threeWindow)
  /\ Forall (live (pruneCutoff (35 * Minute) 20))
       (Messages (pruneChannelContext (35 * Minute) 20 threeWindow)).
Proof.
  apply (prune_keeps_exactly_the_live (35 * Minute) 20 threeWindow).
  - intros i j a b Hi Hj Hij.
    destruct i as [|[|[|i]]]; destruct j as [|[|[|j]]]; simpl in Hi, Hj;
      try discriminate; try lia;
      injection Hi as <-; injection Hj as <-; vm_compute; discriminate.
  - eexists. split; [apply list_elem_of_lookup; exists 2%nat; reflexivity|].
    vm_compute. reflexivity.
Defined.

(** X4.  A second prune at the same instant changes nothing. *)
Theorem prune_twice_is_prune_once now maxAge ctx :
  pruneChannelContext now maxAge (pruneChannelContext now maxAge ctx)
  = pruneChannelContext now maxAge ctx.
Proof.
  destruct (prune_cases now maxAge ctx) as [[_ H]|(k & msg & Hk & Hlive & _ & H)].
  - rewrite H. exact H.
  - rewrite H.
    assert (Hdrop : exists rest, drop k (Messages ctx) = msg :: rest).
    { exists (drop (S k) (Messages ctx)). apply drop_S. exact Hk. }
    destruct Hdrop as [rest Hdrop].
    apply (prune_head_live now maxAge _ msg rest); [simpl; exact Hdrop|exact Hlive].
Qed.

(** [AddMessage] and [ClearChannel] leave the windows of the other
    channels as they are, and a cleared channel reads as one that was
    never written. *)
Theorem other_channels_are_untouched nowMessage nowActive nowPrune
    channelID role content username m other :
  (other <> channelID ->
     contexts (AddMessage nowMessage nowActive nowPrune channelID role content
                 username m) !! other = contexts m !! other
     /\ contexts (ClearChannel channelID m) !! other = contexts m !! other)
  /\ GetMessages channelID (ClearChannel channelID m) = []
  /\ GetContextSize channelID (ClearChannel channelID m) = 0
  /\ GetMessages channelID
       (ClearChannel channelID
          (AddMessage nowMessage nowActive nowPrune channelID role content
             username m)) = []
  /\ (contexts m !! channelID = None -> ClearChannel channelID m = m).
Proof.
  split; [intros Hne; split|].
  - unfold AddMessage. simpl. apply lookup_insert_ne. congruence.
  - unfold ClearChannel. simpl. apply lookup_delete_ne. congruence.
  - unfold GetMessages, GetContextSize, ClearChannel. simpl.
    rewrite !lookup_delete_eq. repeat split.
    intros Hnone. destruct m as [c a]. simpl in *. f_equal.
    apply delete_id. exact Hnone.
Qed.

(** X5.  The sweep adds no channel and no message: what a channel reads
    after it is the end of what it read before. *)
Theorem sweep_only_removes now nowAt m channelID :
  (exists k, GetMessages channelID (cleanupInactiveContexts now nowAt m)
             = drop k (GetMessages channelID m))
  /\ GetContextSize channelID (cleanupInactiveContexts now nowAt m)
     <= GetContextSize channelID m
  /\ (contexts m !! channelID = None ->
      contexts (cleanupInactiveContexts now nowAt m) !! channelID = None)
  /\ maxAgeMinutes (cleanupInactiveContexts now nowAt m) = maxAgeMinutes m.
Proof.
  unfold GetMessages, GetContextSize. rewrite sweep_lookup.
  destruct (contexts m !! channelID) as [ctx|] eqn:E.
  - destruct (Before (LastActive ctx) (inactiveCutoff now (maxAgeMinutes m))).
    + split; [exists (length (Messages ctx)); rewrite drop_all; reflexivity|].
      split; [lia|]. split; [discriminate|reflexivity].
    + destruct (prune_is_drop (nowAt channelID) (maxAgeMinutes m) ctx)
        as (k & _ & H).
      rewrite H. simpl.
      split; [exists k; reflexivity|].
      split; [rewrite length_drop; lia|]. split; [discriminate|reflexivity].
  - split; [exists 0%nat; reflexivity|]. split; [lia|]. split; reflexivity.
Qed.

(** X6.  What [FormatForAPI] returns last, right after a user wrote. *)
Theorem formatted_user_message_is_last nowMessage nowActive nowPrune
    channelID content username m :
  username <> "" ->
  let m' := AddMessage nowMessage nowActive nowPrune channelID "user" content
              username m in
  last (FormatForAPI channelID m')
  = Some ({[ "role" := "user"; "name" := username;
             "content" := username +:+ ": " +:+ content ]} : gmap string string)
  /\ length (FormatForAPI channelID m') = length (GetMessages channelID m').
Proof.
  intros Hname m'.
  destruct (added_message_kept nowMessage nowActive nowPrune channelID "user"
              content username m) as (_ & Hlast & _).
  fold m' in Hlast.
  unfold FormatForAPI. cbv zeta. split; [|apply length_fmap].
  rewrite fmap_last, Hlast. simpl.
  assert (Hne : String.eqb username "" = false) by (apply String.eqb_neq; exact Hname).
  rewrite Hne. reflexivity.
Qed.

Lemma formatted_user_message_is_last_witness :
  last (FormatForAPI "general"
          (AddMessage (6 * Minute) (6 * Minute) (6 * Minute) "general" "user"
             "again" "ann" staleStore))
  = Some ({[ "role" := "user"; "name" := "ann";
             "content" := "ann" +:+ ": " +:+ "again" ]} : gmap string string)
  /\ length (FormatForAPI "general"
          (AddMessage (6 * Minute) (6 * Minute) (6 * Minute) "general" "user"
             "again" "ann" staleStore))
     = length (GetMessages "general"
          (AddMessage (6 * Minute) (6 * Minute) (6 * Minute) "general" "user"
             "again" "ann" staleStore)).
Proof.
  apply (formatted_user_message_is_last (6 * Minute) (6 * Minute) (6 * Minute)
           "general" "again" "ann" staleStore).
  discriminate.
Defined.

End contextmgr_laws.

(** ** The token bucket: bursts and degenerate rates *)

Module ratelimit_laws.
Import GoInt GoTime Float64 Float64_spec Float64_facts GoInt_facts.
Import ratelimit ratelimit_spec ratelimit_facts.

Lemma mul_zero_r x : zero_or_nan (Prim2SF (PrimFloat.mul x (float64_of_int 0))).
Proof.
  rewrite mul_spec.
  change (Prim2SF (float64_of_int 0)) with (S754_zero false).
  destruct (Prim2SF x); exact I.
Qed.

Lemma zero_rate_no_gain now l : refillRate l = 0 -> tokensToAdd now l <= 0.
Proof.
  intros Hrate. unfold tokensToAdd. rewrite Hrate.
  apply int_of_zero_or_nan, mul_zero_r.
Qed.

(** The gain does not read the token count. *)
Lemma tokensToAdd_consume now l : tokensToAdd now (consume l) = tokensToAdd now l.
Proof. reflexivity. Qed.

Lemma same_reading_no_gain now l : lastRefill l = now -> tokensToAdd now l <= 0.
Proof.
  intros H. rewrite tokensToAdd_gainOf, H, Sub_diag. apply gainOf_zero.
Qed.

Lemma refill_twice now l : refill now (refill now l) = refill now l.
Proof.
  rewrite (refill_unfold now l).
  destruct (0 <? tokensToAdd now l) eqn:E.
  - apply refill_no_gain, same_reading_no_gain. reflexivity.
  - apply refill_no_gain. apply Z.ltb_ge. exact E.
Qed.

Lemma consume_tokens l :
  0 < tokens l <= max_int -> tokens (consume l) = tokens l - 1.
Proof.
  intros H. unfold consume, sub. simpl. apply wrap64_id.
  unfold in_range, min_int, max_int in *. lia.
Qed.

(** Calls of [Allow] on a bucket that gains nothing in between: the
    answers count its tokens down. *)
Lemma allowAt_no_gain t0 offsets : forall l,
  0 <= tokens l <= max_int ->
  Forall (fun d => tokensToAdd (t0 + d) l <= 0) offsets ->
  fst (allowAt t0 offsets l)
  = (fun i => Z.of_nat i <? tokens l) <$> seq 0 (length offsets)
  /\ tokens (snd (allowAt t0 offsets l))
     = Z.max 0 (tokens l - Z.of_nat (length offsets)).
Proof.
  induction offsets as [|d offsets IH]; intros l Hl Hall.
  - simpl. split; [reflexivity|lia].
  - inversion Hall as [|? ? Hd Hrest]; subst.
    cbn [allowAt length seq fmap list_fmap].
    rewrite (allow_no_gain _ _ Hd).
    destruct (0 <? tokens l) eqn:E.
    + apply Z.ltb_lt in E.
      assert (Hc : tokens (consume l) = tokens l - 1) by (apply consume_tokens; lia).
      destruct (IH (consume l)) as [IHa IHt]; [lia|exact Hrest|].
      destruct (allowAt t0 offsets (consume l)) as [oks l'] eqn:Erun.
      simpl in *. split.
      * f_equal; [symmetry; apply Z.ltb_lt; lia|].
        rewrite IHa, <- fmap_S_seq, <- list_fmap_compose.
        apply list_fmap_ext. intros i x _. simpl. rewrite Hc.
        destruct (Z.ltb_spec (Z.of_nat x) (tokens l - 1));
          destruct (Z.ltb_spec (Z.of_nat (S x)) (tokens l)); try reflexivity; lia.
      * rewrite IHt, Hc. lia.
    + apply Z.ltb_ge in E.
      destruct (IH l) as [IHa IHt]; [lia|exact Hrest|].
      destruct (allowAt t0 offsets l) as [oks l'] eqn:Erun.
      simpl in *. split.
      * f_equal; [symmetry; apply Z.ltb_ge; lia|].
        rewrite IHa, <- fmap_S_seq, <- list_fmap_compose.
        apply list_fmap_ext. intros i x _. simpl.
        destruct (Z.ltb_spec (Z.of_nat x) (tokens l));
          destruct (Z.ltb_spec (Z.of_nat (S x)) (tokens l)); try reflexivity; lia.
      * rewrite IHt. lia.
Qed.

(** X7.  A new bucket answers yes as many times as its capacity and then
    no, for as long as the clock readings of the calls bring no refill. *)
Theorem new_bucket_allows_its_capacity t0 requestsPerMinute offsets :
  0 <= requestsPerMinute <= max_int ->
  Forall (fun d => tokensToAdd (t0 + d) (NewLimiter t0 requestsPerMinute) <= 0)
    offsets ->
  fst (allowAt t0 offsets (NewLimiter t0 requestsPerMinute))
  = (fun i => Z.of_nat i <? requestsPerMinute) <$> seq 0 (length offsets)
  /\ tokens (snd (allowAt t0 offsets (NewLimiter t0 requestsPerMinute)))
     = Z.max 0 (requestsPerMinute - Z.of_nat (length offsets)).
Proof.
  intros Hn Hall. apply (allowAt_no_gain t0 offsets (NewLimiter t0 requestsPerMinute)).
  - simpl. exact Hn.
  - exact Hall.
Qed.

Lemma new_bucket_allows_its_capacity_witness :
  fst (allowAt 0 [0; Second; 2 * Second; 3 * Second] (NewLimiter 0 3))
  = [true; true; true; false]
  /\ tokens (snd (allowAt 0 [0; Second; 2 * Second; 3 * Second] (NewLimiter 0 3)))
     = 0.
Proof.
  apply (new_bucket_allows_its_capacity 0 3 [0; Second; 2 * Second; 3 * Second]).
  - unfold max_int. lia.
  - repeat constructor; vm_compute; discriminate.
Defined.

Lemma stuck_refill now l :
  tokens l <= maxTokens l -> maxTokens l <= 0 ->
  tokens (refill now l) <= maxTokens (refill now l)
  /\ maxTokens (refill now l) <= 0
  /\ (0 <? tokens (refill now l)) = false.
Proof.
  intros Ht Hm. pose proof (refill_capped now l Ht) as Hcap.
  destruct (refill_static now l) as (Hmax & _).
  rewrite Hmax. repeat split; [lia..|]. apply Z.ltb_ge. lia.
Qed.

Lemma stuck_Allow now l :
  tokens l <= maxTokens l -> maxTokens l <= 0 ->
  Allow now l = (false, refill now l).
Proof.
  intros Ht Hm. destruct (stuck_refill now l Ht Hm) as (_ & _ & E).
  unfold Allow. rewrite E. reflexivity.
Qed.

Lemma stuck_Wait nows : forall l,
  tokens l <= maxTokens l -> maxTokens l <= 0 ->
  fst (Wait nows l) <> Acquired
  /\ tokens (snd (Wait nows l)) <= maxTokens (snd (Wait nows l))
  /\ maxTokens (snd (Wait nows l)) <= 0.
Proof.
  induction nows as [|now later IH]; intros l Ht Hm; simpl.
  - repeat split; [discriminate|lia..].
  - destruct (stuck_refill now l Ht Hm) as (Ht' & Hm' & E).
    unfold waitTurn. rewrite E.
    destruct (refillRate (refill now l) =? 0); simpl.
    + repeat split; [discriminate|lia..].
    + apply IH; assumption.
Qed.

Lemma stuck_step op l :
  tokens l <= maxTokens l -> maxTokens l <= 0 ->
  tokens (step op l) <= maxTokens (step op l) /\ maxTokens (step op l) <= 0.
Proof.
  intros Ht Hm. destruct op as [now|nows|now]; simpl.
  - rewrite stuck_Allow by assumption. simpl.
    destruct (stuck_refill now l Ht Hm) as (? & ? & _). split; assumption.
  - destruct (stuck_Wait nows l Ht Hm) as (_ & ? & ?). split; assumption.
  - destruct (stuck_refill now l Ht Hm) as (? & ? & _). split; assumption.
Qed.

Lemma stuck_run ops : forall l,
  tokens l <= maxTokens l -> maxTokens l <= 0 ->
  tokens (run ops l) <= maxTokens (run ops l) /\ maxTokens (run ops l) <= 0.
Proof.
  induction ops as [|op ops IH]; intros l Ht Hm; [split; assumption|].
  unfold run in *. simpl.
  destruct (stuck_step op l Ht Hm) as [Ht' Hm']. apply IH; assumption.
Qed.

(** X8.  A bucket whose capacity is zero or negative never gives a token,
    whatever was called on it before and whatever the clock shows. *)
Theorem empty_capacity_never_allows l ops now nows :
  maxTokens l <= 0 -> tokens l <= maxTokens l ->
  fst (Allow now (run ops l)) = false
  /\ fst (Wait nows (run ops l)) <> Acquired
  /\ fst (RemainingTokens now (run ops l)) <= 0.
Proof.
  intros Hm Ht. destruct (stuck_run ops l Ht Hm) as [Ht' Hm'].
  split; [rewrite stuck_Allow by assumption; reflexivity|].
  split; [apply stuck_Wait; assumption|].
  unfold RemainingTokens. simpl.
  destruct (stuck_refill now (run ops l) Ht' Hm') as (? & ? & _). lia.
Qed.

Lemma empty_capacity_never_allows_witness :
  fst (Allow (3 * Minute) (run [OpAllow Minute; OpRemaining (2 * Minute)]
                             (NewLimiter 0 (-5)))) = false
  /\ fst (Wait [4 * Minute; 5 * Minute]
            (run [OpAllow Minute; OpRemaining (2 * Minute)] (NewLimiter 0 (-5))))
     <> Acquired
  /\ fst (RemainingTokens (3 * Minute)
            (run [OpAllow Minute; OpRemaining (2 * Minute)] (NewLimiter 0 (-5))))
     <= 0.
Proof.
  apply (empty_capacity_never_allows (NewLimiter 0 (-5))
           [OpAllow Minute; OpRemaining (2 * Minute)] (3 * Minute)
           [4 * Minute; 5 * Minute]); simpl; lia.
Defined.

(** X9.  With a rate of zero the bucket never refills, [Allow] answers no
    and leaves it as it is, and [Wait] divides by the rate. *)
Theorem zero_rate_wait_divides_by_zero l now nows :
  refillRate l = 0 -> tokens l <= 0 ->
  refill now l = l
  /\ Allow now l = (false, l)
  /\ Wait (now :: nows) l = (DivideByZero, l).
Proof.
  intros Hrate Ht.
  assert (Hre : refill now l = l) by (apply refill_no_gain, zero_rate_no_gain, Hrate).
  assert (E : (0 <? tokens l) = false) by (apply Z.ltb_ge; lia).
  split; [exact Hre|]. split.
  - unfold Allow. rewrite Hre, E. reflexivity.
  - simpl. unfold waitTurn. rewrite Hre, E, Hrate. reflexivity.
Qed.

Lemma zero_rate_wait_divides_by_zero_witness :
  refill Minute (NewLimiter 0 0) = NewLimiter 0 0
  /\ Allow Minute (NewLimiter 0 0) = (false, NewLimiter 0 0)
  /\ Wait [Minute; 2 * Minute] (NewLimiter 0 0) = (DivideByZero, NewLimiter 0 0).
Proof.
  apply (zero_rate_wait_divides_by_zero (NewLimiter 0 0) Minute [2 * Minute]);
    simpl; lia.
Defined.

(** [RemainingTokens] takes nothing, and the count it reports is the
    one an [Allow] at the same clock reading decides on. *)
Theorem remaining_predicts_allow now l :
  let '(remaining, l1) := RemainingTokens now l in
  RemainingTokens now l1 = (remaining, l1)
  /\ fst (Allow now l1) = (0 <? remaining)
  /\ fst (Allow now l) = (0 <? remaining)
  /\ (0 < remaining <= max_int ->
      fst (RemainingTokens now (snd (Allow now l1))) = remaining - 1).
Proof.
  unfold RemainingTokens. cbv zeta. cbv beta iota.
  set (l1 := refill now l).
  assert (H1 : refill now l1 = l1) by apply refill_twice.
  rewrite H1. split; [reflexivity|].
  unfold Allow. rewrite H1. fold l1.
  split; [destruct (0 <? tokens l1); reflexivity|].
  split; [destruct (0 <? tokens l1); reflexivity|].
  intros Hr. assert (E : (0 <? tokens l1) = true) by (apply Z.ltb_lt; lia).
  rewrite E. simpl.
  assert (Hg : tokensToAdd now (consume l1) <= 0).
  { rewrite tokensToAdd_consume. 
    destruct (Z.leb_spec (tokensToAdd now l1) 0) as [|Hpos]; [assumption|].
    exfalso. pose proof (refill_unfold now l1) as Hu. rewrite H1 in Hu.
    assert (E' : (0 <? tokensToAdd now l1) = true) by (apply Z.ltb_lt; lia).
    rewrite E' in Hu.
    assert (Hlr : lastRefill l1 = now) by (rewrite Hu; reflexivity).
    pose proof (same_reading_no_gain now l1 Hlr). lia. }
  rewrite (refill_no_gain _ _ Hg). apply consume_tokens. exact Hr.
Qed.

End ratelimit_laws.

(** ** The registry of per-channel buckets: isolation and bursts *)

Module ChannelLimiter_laws.
Import GoInt GoTime GoInt_facts.
Import ratelimit ratelimit_spec ratelimit_facts ratelimit_laws.
Import ChannelLimiter ChannelLimiter_spec ChannelLimiter_facts.

Lemma getOrCreate_other nowCreate channelID (m : gmap string Limiter) other :
  other <> channelID ->
  snd (getOrCreate nowCreate channelID m) !! other = m !! other.
Proof.
  intros Hne. unfold getOrCreate.
  destruct (m !! channelID) eqn:E; simpl; [reflexivity|].
  apply lookup_insert_ne. congruence.
Qed.

Lemma Allow_other nowGlobal nowCreate nowChannel channelID cl other :
  other <> channelID ->
  limiters (snd (Allow nowGlobal nowCreate nowChannel channelID cl)) !! other
  = limiters cl !! other.
Proof.
  intros Hne. unfold Allow.
  destruct (ratelimit.Allow nowGlobal (globalLimiter cl)) as [ok g].
  destruct ok; simpl; [|reflexivity].
  pose proof (getOrCreate_other nowCreate channelID (limiters cl) other Hne) as H.
  destruct (getOrCreate nowCreate channelID (limiters cl)) as [limiter m].
  destruct (ratelimit.Allow nowChannel limiter) as [ok' limiter'].
  simpl in *. rewrite lookup_insert_ne by congruence. exact H.
Qed.

Lemma Wait_other nowsGlobal nowCreate nowsChannel channelID cl other :
  other <> channelID ->
  limiters (snd (Wait nowsGlobal nowCreate nowsChannel channelID cl)) !! other
  = limiters cl !! other.
Proof.
  intros Hne. unfold Wait.
  destruct (ratelimit.Wait nowsGlobal (globalLimiter cl)) as [out g].
  destruct out; simpl; try reflexivity.
  pose proof (getOrCreate_other nowCreate channelID (limiters cl) other Hne) as H.
  destruct (getOrCreate nowCreate channelID (limiters cl)) as [limiter m].
  destruct (ratelimit.Wait nowsChannel limiter) as [out' limiter'].
  simpl in *. rewrite lookup_insert_ne by congruence. exact H.
Qed.

(** A call for one channel leaves the bucket of every other channel as
    it is, and once the global bucket gave its token the channel of the
    call has a bucket. *)
Theorem other_buckets_are_untouched nowGlobal nowCreate nowChannel
    nowsGlobal nowsChannel channelID cl :
  (forall other, other <> channelID ->
     limiters (snd (Allow nowGlobal nowCreate nowChannel channelID cl)) !! other
     = limiters cl !! other
     /\ limiters (snd (Wait nowsGlobal nowCreate nowsChannel channelID cl)) !! other
        = limiters cl !! other)
  /\ (forall other, is_Some (limiters cl !! other) ->
        is_Some (limiters (snd (Allow nowGlobal nowCreate nowChannel channelID cl))
                 !! other))
  /\ (fst (ratelimit.Allow nowGlobal (globalLimiter cl)) = true ->
      is_Some (limiters (snd (Allow nowGlobal nowCreate nowChannel channelID cl))
               !! channelID)).
Proof.
  split; [intros other Hne; split; [apply Allow_other|apply Wait_other]; exact Hne|].
  split.
  - intros other Hsome.
    destruct (decide (other = channelID)) as [->|Hne];
      [|rewrite Allow_other by exact Hne; exact Hsome].
    unfold Allow.
    destruct (ratelimit.Allow nowGlobal (globalLimiter cl)) as [ok g].
    destruct ok; simpl; [|exact Hsome].
    destruct (getOrCreate nowCreate channelID (limiters cl)) as [limiter m].
    destruct (ratelimit.Allow nowChannel limiter) as [ok' limiter'].
    simpl. rewrite lookup_insert_eq. eauto.
  - intros Hok. unfold Allow.
    destruct (ratelimit.Allow nowGlobal (globalLimiter cl)) as [ok g].
    simpl in Hok. subst ok. simpl.
    destruct (getOrCreate nowCreate channelID (limiters cl)) as [limiter m].
    destruct (ratelimit.Allow nowChannel limiter) as [ok' limiter'].
    simpl. rewrite lookup_insert_eq. eauto.
Qed.

(** The bucket [getOrCreate] hands out at the reading [t]. *)
Lemma getOrCreate_bucket t channelID (m : gmap string Limiter) :
  fst (getOrCreate t channelID m)
  = match m !! channelID with Some l => l | None => NewLimiter t 10 end.
Proof. unfold getOrCreate. destruct (m !! channelID); reflexivity. Qed.

Lemma Allow_same_reading t l :
  lastRefill l = t -> 0 <= tokens l <= max_int ->
  ratelimit.Allow t l
  = (0 <? tokens l,
     {| tokens := Z.max 0 (tokens l - 1); maxTokens := maxTokens l;
        refillRate := refillRate l; refillInterval := refillInterval l;
        lastRefill := t |}).
Proof.
  intros Ht Hr. rewrite (allow_no_gain t l (same_reading_no_gain t l Ht)).
  destruct (0 <? tokens l) eqn:E.
  - apply Z.ltb_lt in E. f_equal. destruct l as [tk mx rr ri lr]; simpl in *.
    unfold consume, sub. simpl. rewrite wrap64_id
      by (unfold in_range, min_int, max_int in *; lia).
    subst. f_equal. lia.
  - apply Z.ltb_ge in E. f_equal. destruct l as [tk mx rr ri lr]; simpl in *.
    subst. f_equal. lia.
Qed.

(** Calls for one channel while the clock stands at [t]: the global
    bucket and the bucket of the channel count down side by side. *)
Lemma session_same_reading t G key k : forall cl g b,
  globalLimiter cl
  = {| tokens := g; maxTokens := G; refillRate := G; refillInterval := Minute;
       lastRefill := t |} ->
  match limiters cl !! key with Some l => l | None => NewLimiter t 10 end
  = {| tokens := b; maxTokens := 10; refillRate := 10; refillInterval := Minute;
       lastRefill := t |} ->
  Z.of_nat k <= g <= max_int -> 0 <= b <= 10 ->
  fst (session (repeat (CallAllow t t t key) k) cl)
  = (fun i => Allowed (Z.of_nat i <? b)) <$> seq 0 k
  /\ tokens (globalLimiter (snd (session (repeat (CallAllow t t t key) k) cl)))
     = g - Z.of_nat k.
Proof.
  induction k as [|k IH]; intros cl g b Hg Hb Hgk Hbr.
  - simpl. split; [reflexivity|rewrite Hg; simpl; lia].
  - cbn [repeat session perform seq fmap list_fmap].
    unfold Allow.
    rewrite (Allow_same_reading t (globalLimiter cl))
      by (rewrite Hg; simpl; first [reflexivity|lia]).
    rewrite Hg. simpl tokens. 
    assert (Eg : (0 <? g) = true) by (apply Z.ltb_lt; lia).
    rewrite Eg. simpl negb. cbv iota.
    pose proof (getOrCreate_bucket t key (limiters cl)) as Hbucket.
    rewrite Hb in Hbucket.
    destruct (getOrCreate t key (limiters cl)) as [limiter m]. simpl in Hbucket.
    subst limiter.
    rewrite Allow_same_reading by (simpl; first [reflexivity|unfold max_int; lia]).
    simpl.
    match goal with
    | |- context [session _ ?c] => set (cl' := c)
    end.
    destruct (IH cl' (g - 1) (Z.max 0 (b - 1))) as [IHa IHg].
    { unfold cl'. simpl. f_equal. lia. }
    { unfold cl'. simpl. rewrite lookup_insert_eq. reflexivity. }
    { lia. }
    { lia. }
    destruct (session (repeat (CallAllow t t t key) k) cl') as [answers cl''].
    simpl in *. split; [|rewrite IHg; lia].
    f_equal. rewrite IHa, <- fmap_S_seq, <- list_fmap_compose.
    apply list_fmap_ext. intros i x _. simpl. f_equal.
    destruct (Z.ltb_spec (Z.of_nat x) (Z.max 0 (b - 1)));
      destruct (Z.ltb_spec (Z.of_nat (S x)) b); try reflexivity; lia.
Qed.

(** X10.  On a new registry, calls for one channel that come while the clock
    stands still are allowed ten times and refused from then on, and the
    refused ones take a token of the global bucket all the same. *)
Theorem channel_burst_is_ten t globalRequestsPerMinute channelRequestsPerMinute
    key k :
  Z.of_nat k <= globalRequestsPerMinute <= max_int ->
  let run := session (repeat (CallAllow t t t key) k)
               (NewChannelLimiter t globalRequestsPerMinute
                  channelRequestsPerMinute) in
  fst run = (fun i => Allowed (Z.of_nat i <? 10)) <$> seq 0 k
  /\ tokens (globalLimiter (snd run)) = globalRequestsPerMinute - Z.of_nat k.
Proof.
  intros HG run. unfold run.
  apply (session_same_reading t globalRequestsPerMinute key k
           (NewChannelLimiter t globalRequestsPerMinute channelRequestsPerMinute)
           globalRequestsPerMinute 10).
  - reflexivity.
  - simpl. rewrite lookup_empty. reflexivity.
  - exact HG.
  - lia.
Qed.

Lemma channel_burst_is_ten_witness :
  fst (session (repeat (CallAllow 0 0 0 "general") 12)
         (NewChannelLimiter 0 30 30))
  = (fun i => Allowed (Z.of_nat i <? 10)) <$> seq 0 12
  /\ tokens (globalLimiter
               (snd (session (repeat (CallAllow 0 0 0 "general") 12)
                       (NewChannelLimiter 0 30 30))))
     = 30 - Z.of_nat 12.
Proof.
  apply (channel_burst_is_ten 0 30 30 "general" 12). unfold max_int. lia.
Defined.

End ChannelLimiter_laws.

(** ** The retry executor: classification, success, cancellation *)

Module openwebui_laws.
Import GoInt GoTime GoError GoInt_facts.
Import openwebui openwebui_spec openwebui_facts openwebui_chat openwebui_notions.

Lemma Is_wrap_inv prefix err target :
  Is (Errorf_w prefix err) target = Is err target.
Proof.
  unfold Errorf_w. simpl. destruct target; reflexivity.
Qed.

(** X11.  The errors of the context are looked at before the text: an error
    that wraps a passed deadline is retried, and one that wraps a
    cancellation and no passed deadline is not, whatever their texts say
    and however often they were wrapped again. *)
Theorem context_errors_decide_before_the_text err prefixes :
  let wrapped := fold_right Errorf_w err prefixes in
  (Is err DeadlineExceeded = true -> isRetryableError wrapped = true)
  /\ (Is err DeadlineExceeded = false -> Is err Canceled = true ->
      isRetryableError wrapped = false).
Proof.
  intros wrapped.
  assert (HIs : forall target, Is wrapped target = Is err target).
  { intros target. unfold wrapped.
    induction prefixes as [|p ps IH]; simpl; [reflexivity|].
    rewrite <- IH. apply (Is_wrap_inv p). }
  split.
  - intros H. unfold isRetryableError. rewrite HIs, H. reflexivity.
  - intros Hd Hc. unfold isRetryableError. rewrite !HIs, Hd, Hc. reflexivity.
Qed.

Lemma context_errors_decide_before_the_text_witness :
  isRetryableError
    (fold_right Errorf_w (wrapError "Post: status 429: context canceled" Canceled)
       ["error sending request: "]) = false
  /\ isRetryableError
       (fold_right Errorf_w (wrapError "Post: context deadline exceeded"
                               DeadlineExceeded)
          ["error sending request: "]) = true.
Proof.
  split.
  - apply (proj2 (context_errors_decide_before_the_text
                    (wrapError "Post: status 429: context canceled" Canceled)
                    ["error sending request: "])); reflexivity.
  - apply (proj1 (context_errors_decide_before_the_text
                    (wrapError "Post: context deadline exceeded" DeadlineExceeded)
                    ["error sending request: "])); reflexivity.
Defined.

Lemma hasPrefix_occurs s prefix :
  hasPrefix s prefix = true <-> exists post, s = prefix +:+ post.
Proof.
  revert s. induction prefix as [|a prefix IH]; intros s; simpl.
  - split; [intros _; exists s; reflexivity|reflexivity].
  - destruct s as [|b s].
    + split; [discriminate|intros [post H]; discriminate].
    + rewrite andb_true_iff, IH. split.
      * intros [Hab [post ->]]. apply Ascii.eqb_eq in Hab. subst.
        exists post. reflexivity.
      * intros [post H]. injection H as -> ->. split; [apply Ascii.eqb_refl|].
        exists post. reflexivity.
Qed.

Lemma hasPrefix_nil_string prefix :
  hasPrefix "" prefix = true -> prefix = "".
Proof. destruct prefix; [reflexivity|discriminate]. Qed.

(** X12.  [contains] answers yes exactly when the second string occurs in
    the first. *)
Theorem contains_finds_every_occurrence s substr :
  contains s substr = true <-> exists pre post, s = pre +:+ substr +:+ post.
Proof.
  induction s as [|b s IH].
  - simpl. rewrite orb_false_r. split.
    + intros H. apply hasPrefix_nil_string in H. subst.
      exists "", "". reflexivity.
    + intros (pre & post & H). destruct pre; [|discriminate].
      destruct substr; [reflexivity|discriminate].
  - cbn [contains]. rewrite orb_true_iff, IH, hasPrefix_occurs. split.
    + intros [[post H]|(pre & post & H)].
      * exists "", post. exact H.
      * exists (String b pre), post. simpl. rewrite H. reflexivity.
    + intros (pre & post & H). destruct pre as [|c pre].
      * left. exists post. exact H.
      * right. injection H as -> ->. exists pre, post. reflexivity.
Qed.

Section Scripted.
Variable backoffSelect :
  Duration -> list (error + string) -> option error * list (error + string).
(** The context is not done while the server still has an answer to
    give. *)
Hypothesis timer_fires :
  forall d outcome w, backoffSelect d (outcome :: w) = (None, outcome :: w).

Lemma backoffBefore_scripted attempt outcome w log :
  backoffBefore backoffSelect attempt (outcome :: w) log
  = (None, outcome :: w, log ++ waited attempt).
Proof.
  unfold backoffBefore, waited.
  destruct (0 <? attempt); [|rewrite app_nil_r; reflexivity].
  rewrite timer_fires. reflexivity.
Qed.

Lemma lastOf_cons err errs dflt :
  lastOf (err :: errs) dflt = lastOf errs (Some err).
Proof.
  unfold lastOf. destruct errs as [|e errs]; [reflexivity|].
  change (last (err :: e :: errs)) with (last (e :: errs)).
  destruct (last (e :: errs)) eqn:E; [reflexivity|].
  apply last_None in E. discriminate.
Qed.

(** The turns of the loop that meet the failures of the script. *)
Lemma retryLoop_failures errs : forall n attempt lastErr w log,
  Forall (fun err => isRetryableError err = true) errs ->
  0 <= attempt -> attempt + Z.of_nat (length errs) <= max_int ->
  retryLoop scripted backoffSelect (length errs + n) attempt lastErr
    ((inl <$> errs) ++ w) log
  = retryLoop scripted backoffSelect n (attempt + Z.of_nat (length errs))
      (lastOf errs lastErr) w (log ++ failures attempt errs).
Proof.
  induction errs as [|err errs IH]; intros n attempt lastErr w log Hall Ha Hr.
  - simpl. rewrite Z.add_0_r, app_nil_r. reflexivity.
  - inversion Hall as [|? ? Herr Hrest]; subst.
    cbn [length] in Hr. rewrite Nat2Z.inj_succ in Hr.
    cbn [length Nat.add fmap list_fmap app retryLoop].
    rewrite backoffBefore_scripted. cbn [scripted].
    rewrite Herr. cbn [negb].
    assert (Hadd : add attempt 1 = attempt + 1).
    { unfold add. apply wrap64_id. unfold in_range, min_int, max_int in *. lia. }
    rewrite Hadd.
    change (list_fmap _ _ inl errs) with (inl (B := string) <$> errs).
    rewrite IH by (try assumption; lia).
    rewrite lastOf_cons. f_equal.
    + lia.
    + cbn [failures]. rewrite <- !app_assoc. reflexivity.
Qed.

Lemma calls_waited attempt : calls (waited attempt) = 0%nat.
Proof. unfold waited. destruct (0 <? attempt); reflexivity. Qed.

Lemma calls_failures errs : forall attempt,
  calls (failures attempt errs) = length errs.
Proof.
  induction errs as [|err errs IH]; intros attempt; [reflexivity|].
  cbn [failures]. rewrite !calls_app, calls_waited, IH. reflexivity.
Qed.

Lemma backoffs_app log1 log2 : backoffs (log1 ++ log2) = backoffs log1 ++ backoffs log2.
Proof. unfold backoffs. apply omap_app. Qed.

Lemma backoffs_failures errs : forall attempt,
  0 <= attempt ->
  backoffs (failures attempt errs ++ waited (attempt + Z.of_nat (length errs)))
  = backoffs (waited attempt)
    ++ (backoffDuration <$> seqZ (attempt + 1) (Z.of_nat (length errs))).
Proof.
  induction errs as [|err errs IH]; intros attempt Ha.
  - simpl. rewrite Z.add_0_r, app_nil_r. reflexivity.
  - cbn [failures length]. rewrite Nat2Z.inj_succ.
    replace (attempt + Z.succ (Z.of_nat (length errs)))
      with (attempt + 1 + Z.of_nat (length errs)) by lia.
    rewrite <- !app_assoc, backoffs_app. f_equal.
    rewrite backoffs_app. change (backoffs [Call (inl err)]) with (@nil Duration).
    rewrite app_nil_l, IH by lia.
    rewrite (seqZ_cons (attempt + 1)) by lia.
    rewrite Z.pred_succ. cbn [fmap list_fmap].
    unfold waited at 1.
    assert (E : (0 <? attempt + 1) = true) by (apply Z.ltb_lt; lia).
    rewrite E. simpl. first [reflexivity | repeat f_equal; lia].
Qed.

End Scripted.


(** X13.  [WithRetry] returns the first completion it gets: after failures
    that are all retryable it has called once more than it failed, waited
    between the calls only, and it returns no error. *)
Theorem first_success_ends_the_retries backoffSelect errs completion rest
    maxRetries :
  (forall d outcome w, backoffSelect d (outcome :: w) = (None, outcome :: w)) ->
  Forall (fun err => isRetryableError err = true) errs ->
  Z.of_nat (length errs) <= maxRetries < max_int ->
  exists log,
    WithRetry scripted backoffSelect maxRetries
      ((inl <$> errs) ++ inr completion :: rest)
    = ((completion, None), rest, log)
    /\ calls log = S (length errs)
    /\ backoffs log = backoffDuration <$> seqZ 1 (Z.of_nat (length errs))
    /\ last log = Some (Call (inr completion)).
Proof.
  intros Hfires Hall Hn.
  set (k := length errs) in *.
  assert (Hturns : Z.to_nat (maxRetries + 1) = (k + S (Z.to_nat maxRetries - k))%nat)
    by lia.
  unfold WithRetry. rewrite Hturns. unfold k.
  rewrite (retryLoop_failures backoffSelect Hfires errs) by (try assumption; lia).
  cbn [retryLoop]. rewrite (backoffBefore_scripted backoffSelect Hfires).
  cbn [scripted].
  eexists. split; [reflexivity|].
  rewrite !calls_app, calls_failures, calls_waited.
  split.
  { change (calls []) with 0%nat.
    change (calls [Call (inr completion)]) with 1%nat. lia. }
  split.
  - rewrite app_nil_l, backoffs_app.
    rewrite (backoffs_failures errs 0) by lia.
    change (backoffs (waited 0)) with (@nil Duration).
    change (backoffs [Call (inr completion)]) with (@nil Duration).
    rewrite app_nil_l, app_nil_r. reflexivity.
  - rewrite last_snoc. reflexivity.
Qed.


Lemma first_success_ends_the_retries_witness :
  exists log,
    WithRetry scripted doneWhenSilent 3
      ((inl <$> [DeadlineExceeded; EOF]) ++ inr "hello" :: [])
    = (("hello", None), [], log)
    /\ calls log = S (length [DeadlineExceeded; EOF])
    /\ backoffs log
       = backoffDuration <$> seqZ 1 (Z.of_nat (length [DeadlineExceeded; EOF]))
    /\ last log = Some (Call (inr "hello")).
Proof.
  apply (first_success_ends_the_retries doneWhenSilent [DeadlineExceeded; EOF]
           "hello" [] 3).
  - reflexivity.
  - repeat constructor.
  - simpl. unfold max_int. lia.
Defined.

(** X14.  A context that is done during a wait ends [WithRetry] there: no
    call follows, the error wraps the error of the context, and the calls
    made are the failures before it. *)
Theorem cancellation_ends_the_retries backoffSelect ctxErr err errs maxRetries :
  (forall d outcome w, backoffSelect d (outcome :: w) = (None, outcome :: w)) ->
  (forall d, backoffSelect d [] = (Some ctxErr, [])) ->
  Forall (fun err => isRetryableError err = true) (err :: errs) ->
  Z.of_nat (length (err :: errs)) <= maxRetries < max_int ->
  exists log,
    WithRetry scripted backoffSelect maxRetries (inl <$> err :: errs)
    = (("", Some (Errorf_w "context cancelled during backoff: " ctxErr)), [], log)
    /\ calls log = length (err :: errs)
    /\ last log
       = Some (BackoffCancelled
                 (backoffDuration (Z.of_nat (length (err :: errs))))).
Proof.
  intros Hfires Hdone Hall Hn.
  set (k := length (err :: errs)) in *.
  assert (Hk : (0 < k)%nat) by (unfold k; simpl; lia).
  assert (Hturns : Z.to_nat (maxRetries + 1) = (k + S (Z.to_nat maxRetries - k))%nat)
    by lia.
  unfold WithRetry. rewrite Hturns. unfold k.
  rewrite <- (app_nil_r (inl <$> err :: errs)).
  rewrite (retryLoop_failures backoffSelect Hfires (err :: errs))
    by (try assumption; fold k; lia).
  fold k. cbn [retryLoop]. unfold backoffBefore.
  assert (E : (0 <? 0 + Z.of_nat k) = true) by (apply Z.ltb_lt; lia).
  rewrite E, Hdone. rewrite Z.add_0_l.
  eexists. split; [reflexivity|].
  split; [|rewrite last_snoc; reflexivity].
  rewrite !calls_app, calls_failures. fold k.
  change (calls []) with 0%nat.
  change (calls [BackoffCancelled (backoffDuration (Z.of_nat k))]) with 0%nat. lia.
Qed.

Lemma cancellation_ends_the_retries_witness :
  exists log,
    WithRetry scripted doneWhenSilent 3 (inl <$> [DeadlineExceeded; EOF])
    = (("", Some (Errorf_w "context cancelled during backoff: " Canceled)), [], log)
    /\ calls log = length [DeadlineExceeded; EOF]
    /\ last log
       = Some (BackoffCancelled
                 (backoffDuration (Z.of_nat (length [DeadlineExceeded; EOF])))).
Proof.
  apply (cancellation_ends_the_retries doneWhenSilent Canceled DeadlineExceeded
           [EOF] 3).
  - reflexivity.
  - reflexivity.
  - repeat constructor.
  - simpl. unfold max_int. lia.
Defined.

(** X15.  With a negative [maxRetries] the loop body never runs: no call is
    made, and the error returned prints a missing operand and wraps
    nothing. *)
Theorem negative_maxRetries_calls_nothing {World : Type}
    (GetCompletion : World -> (error + string) * World)
    (backoffSelect : Duration -> World -> option error * World)
    maxRetries w :
  maxRetries < 0 ->
  WithRetry GetCompletion backoffSelect maxRetries w
  = (("", Some (errorString "max retries exceeded: %!w(<nil>)")), w, [])
  /\ Unwrap (errorString "max retries exceeded: %!w(<nil>)") = None.
Proof.
  intros Hneg. unfold WithRetry.
  replace (Z.to_nat (maxRetries + 1)) with 0%nat by lia.
  split; reflexivity.
Qed.

Lemma negative_maxRetries_calls_nothing_witness :
  WithRetry alwaysTimesOut neverCancelled (-1) tt
  = (("", Some (errorString "max retries exceeded: %!w(<nil>)")), tt, [])
  /\ Unwrap (errorString "max retries exceeded: %!w(<nil>)") = None.
Proof.
  apply (negative_maxRetries_calls_nothing alwaysTimesOut neverCancelled (-1) tt).
  lia.
Defined.

(** X16.  An answer without choices is an error that is not retried: one
    call, whatever [maxRetries] allows. *)
Theorem empty_choices_are_not_retried {World : Type}
    (ChatCompletion : World -> (error + ChatCompletionResponse) * World)
    (backoffSelect : Duration -> World -> option error * World)
    maxRetries w resp w' :
  0 <= maxRetries ->
  ChatCompletion w = (inr resp, w') ->
  Choices resp = [] ->
  GetCompletion ChatCompletion w
  = (inl (errorString "no completion choices returned"), w')
  /\ WithRetry (GetCompletion ChatCompletion) backoffSelect maxRetries w
     = (("", Some (wrapError
                     "non-retryable error: no completion choices returned"
                     (errorString "no completion choices returned"))),
        w', [Call (inl (errorString "no completion choices returned"))]).
Proof.
  intros Hn Hresp Hnone.
  assert (Hget : GetCompletion ChatCompletion w
                 = (inl (errorString "no completion choices returned"), w')).
  { unfold GetCompletion. rewrite Hresp, Hnone. reflexivity. }
  split; [exact Hget|].
  unfold WithRetry.
  replace (Z.to_nat (maxRetries + 1)) with (S (Z.to_nat maxRetries)) by lia.
  rewrite (first_failure_aborts (GetCompletion ChatCompletion) backoffSelect
             (Z.to_nat maxRetries) 0 None w []
             (errorString "no completion choices returned") w');
    [reflexivity|lia|exact Hget|reflexivity].
Qed.

Lemma empty_choices_are_not_retried_witness :
  GetCompletion noChoices tt
  = (inl (errorString "no completion choices returned"), tt)
  /\ WithRetry (GetCompletion noChoices) neverCancelled 3 tt
     = (("", Some (wrapError
                     "non-retryable error: no completion choices returned"
                     (errorString "no completion choices returned"))),
        tt, [Call (inl (errorString "no completion choices returned"))]).
Proof.
  apply (empty_choices_are_not_retried noChoices neverCancelled 3 tt emptyAnswer tt).
  - lia.
  - reflexivity.
  - reflexivity.
Defined.

(** The wait before the retry [attempt] doubles from one second and
    stops at thirty, for the first 34 retries. *)
Theorem backoff_doubles_up_to_thirty_seconds attempt :
  1 <= attempt <= 34 ->
  backoffDuration attempt = Z.min (30 * Second) (2 ^ (attempt - 1) * Second)
  /\ 1 * Second <= backoffDuration attempt <= 30 * Second.
Proof.
  intros Ha. pose proof (backoffDuration_capped attempt Ha) as H.
  split; [exact H|]. rewrite H.
  assert (1 <= 2 ^ (attempt - 1)) by (apply Z.pow_le_mono_r with (b := 0); lia).
  unfold Second. lia.
Qed.

Lemma backoff_doubles_up_to_thirty_seconds_witness :
  backoffDuration 3 = Z.min (30 * Second) (2 ^ (3 - 1) * Second)
  /\ 1 * Second <= backoffDuration 3 <= 30 * Second.
Proof. apply (backoff_doubles_up_to_thirty_seconds 3). lia. Defined.

(** When the body of the answer is not a JSON object the error names
    the status, and the statuses 429 and 500 to 599 are retried. *)
Theorem status_line_is_retried unmarshal resp :
  unmarshal (Body resp) = None ->
  StatusCode resp = 429 \/ 500 <= StatusCode resp <= 599 ->
  exists err,
    errorOfResponse unmarshal resp = Some err
    /\ isRetryableError err = true.
Proof. apply plain_status_is_retryable. Qed.

Lemma status_line_is_retried_witness :
  exists err,
    errorOfResponse unmarshalEmptyObject
      {| StatusCode := 502; Body := "Bad Gateway" |} = Some err
    /\ isRetryableError err = true.
Proof.
  apply (status_line_is_retried unmarshalEmptyObject
           {| StatusCode := 502; Body := "Bad Gateway" |}).
  - reflexivity.
  - right. simpl. lia.
Defined.

End openwebui_laws.

(** ** The Discord client: authorization, splitting, sending *)

Module GoString_facts.
Import GoString.

Lemma len_nonneg s : 0 <= len s.
Proof. unfold len. lia. Qed.

Lemma len_empty s : len s = 0 -> s = "".
Proof. unfold len. destruct s; [reflexivity|simpl; lia]. Qed.

Lemma len_append s t : len (s +:+ t) = len s + len t.
Proof.
  unfold len. induction s as [|a s IH]; [reflexivity|].
  change (String a s +:+ t) with (String a (s +:+ t)). simpl String.length.
  lia.
Qed.

Lemma take_drop_bytes n s : takeBytes n s +:+ dropBytes n s = s.
Proof.
  revert s. induction n as [|n IH]; intros s; [reflexivity|].
  destruct s as [|a s]; [reflexivity|].
  simpl takeBytes. simpl dropBytes.
  change (String a (takeBytes n s) +:+ dropBytes n s)
    with (String a (takeBytes n s +:+ dropBytes n s)).
  rewrite IH. reflexivity.
Qed.

Lemma len_takeBytes n s :
  (n <= String.length s)%nat -> len (takeBytes n s) = Z.of_nat n.
Proof.
  unfold len. revert s. induction n as [|n IH]; intros s Hn; [reflexivity|].
  destruct s as [|a s]; simpl in *; [lia|].
  specialize (IH s ltac:(lia)). lia.
Qed.

Lemma len_dropBytes n s :
  (n <= String.length s)%nat -> len (dropBytes n s) = len s - Z.of_nat n.
Proof.
  unfold len. revert s. induction n as [|n IH]; intros s Hn; [simpl; lia|].
  destruct s as [|a s]; simpl in *; [lia|].
  specialize (IH s ltac:(lia)). lia.
Qed.

(** An occurrence of a string that is not empty starts before the end. *)
Lemma LastIndex_bounds s a substr :
  -1 <= LastIndex s (String a substr) < len s.
Proof.
  unfold len. induction s as [|b s IH].
  - simpl. lia.
  - cbn [LastIndex].
    destruct (0 <=? LastIndex s (String a substr)) eqn:E.
    + simpl String.length. lia.
    + simpl String.length.
      destruct (openwebui.hasPrefix (String b s) (String a substr)); lia.
Qed.

Lemma concat_app parts parts' :
  concat (parts ++ parts') = concat parts +:+ concat parts'.
Proof.
  unfold concat. induction parts as [|p parts IH]; [reflexivity|].
  simpl. rewrite IH. apply openwebui_facts.append_assoc.
Qed.

Lemma append_empty_r s : s +:+ "" = s.
Proof.
  induction s as [|a s IH]; [reflexivity|].
  change (String a s +:+ "") with (String a (s +:+ "")). rewrite IH. reflexivity.
Qed.

End GoString_facts.

Module discord_laws.
Import GoInt GoTime GoError GoString GoString_facts discord discord_notions.

Lemma listed_elem id authorized : listed id authorized = true <-> id ∈ authorized.
Proof.
  induction authorized as [|entry authorized IH]; simpl.
  - split; [discriminate|intros H; inversion H].
  - destruct (String.eqb_spec id entry) as [->|Hne].
    + split; [intros _; left|reflexivity].
    + rewrite IH. split; [intros H; right; exact H|].
      intros H. inversion H; subst; [congruence|assumption].
Qed.

(** X17.  Who [isAuthorized] lets through: everybody when both lists are
    empty, and otherwise the messages of a listed guild and those of a
    listed channel. *)
Theorem isAuthorized_characterised authorizedGuilds authorizedChannels
    guildID channelID :
  isAuthorized authorizedGuilds authorizedChannels guildID channelID = true
  <-> (authorizedGuilds = [] /\ authorizedChannels = [])
      \/ guildID ∈ authorizedGuilds
      \/ channelID ∈ authorizedChannels.
Proof.
  unfold isAuthorized.
  destruct authorizedGuilds as [|g gs]; destruct authorizedChannels as [|c cs];
    cbn [length Nat.eqb andb].
  - split; [intros _; left; split; reflexivity|reflexivity].
  - destruct (listed guildID []) eqn:Eg; [simpl in Eg; discriminate|].
    destruct (listed channelID (c :: cs)) eqn:Ec.
    + apply listed_elem in Ec. split; [intros _; right; right; exact Ec|reflexivity].
    + split; [discriminate|]. intros [[_ H]|[H|H]]; [discriminate|inversion H|].
      apply listed_elem in H. congruence.
  - destruct (listed guildID (g :: gs)) eqn:Eg.
    + apply listed_elem in Eg. split; [intros _; right; left; exact Eg|reflexivity].
    + simpl listed. split; [discriminate|].
      intros [[H _]|[H|H]]; [discriminate| |inversion H].
      apply listed_elem in H. congruence.
  - destruct (listed guildID (g :: gs)) eqn:Eg.
    + apply listed_elem in Eg. split; [intros _; right; left; exact Eg|reflexivity].
    + destruct (listed channelID (c :: cs)) eqn:Ec.
      * apply listed_elem in Ec. split; [intros _; right; right; exact Ec|reflexivity].
      * split; [discriminate|].
        intros [[H _]|[H|H]]; [discriminate|apply listed_elem in H; congruence|].
        apply listed_elem in H. congruence.
Qed.

Lemma slice_to_some s hi :
  0 <= hi <= len s -> slice_to s hi = Some (takeBytes (Z.to_nat hi) s).
Proof.
  intros H. unfold slice_to.
  destruct (Z.leb_spec 0 hi); [|lia]. destruct (Z.leb_spec hi (len s)); [|lia].
  reflexivity.
Qed.

Lemma slice_from_some s lo :
  0 <= lo <= len s -> slice_from s lo = Some (dropBytes (Z.to_nat lo) s).
Proof.
  intros H. unfold slice_from.
  destruct (Z.leb_spec 0 lo); [|lia]. destruct (Z.leb_spec lo (len s)); [|lia].
  reflexivity.
Qed.

(** With a positive [maxLength] the loop cuts at least one byte and at
    most [maxLength] bytes off a message that is not empty. *)
Lemma nextSplitIndex_range message maxLength :
  1 <= maxLength -> 0 < len message ->
  exists splitIndex,
    nextSplitIndex message maxLength = Some splitIndex
    /\ 1 <= splitIndex <= maxLength /\ splitIndex <= len message.
Proof.
  intros Hmax Hlen. unfold nextSplitIndex.
  set (splitIndex := if len message <? maxLength then len message else maxLength).
  assert (Hs : 1 <= splitIndex <= maxLength /\ splitIndex <= len message).
  { unfold splitIndex. destruct (Z.ltb_spec (len message) maxLength); lia. }
  rewrite slice_to_some by lia.
  set (head := takeBytes (Z.to_nat splitIndex) message).
  assert (Hhead : len head = splitIndex).
  { unfold head. rewrite len_takeBytes; [lia|]. unfold len in *. lia. }
  assert (Hhalf : 0 <= Z.quot maxLength 2) by (apply Z.quot_pos; lia).
  pose proof (LastIndex_bounds head (Ascii.ascii_of_nat 10) "") as Hnl.
  pose proof (LastIndex_bounds head (Ascii.ascii_of_nat 32) "") as Hsp.
  fold newline in Hnl.
  change (String (Ascii.ascii_of_nat 32) "") with " " in Hsp.
  destruct (Z.ltb_spec (Z.quot maxLength 2) (LastIndex head newline)).
  - eexists. split; [reflexivity|]. lia.
  - destruct (Z.ltb_spec (Z.quot maxLength 2) (LastIndex head " ")).
    + eexists. split; [reflexivity|]. lia.
    + eexists. split; [reflexivity|]. lia.
Qed.

Lemma splitLoop_spec maxLength : forall fuel message parts,
  1 <= maxLength -> len message <= Z.of_nat fuel ->
  exists more,
    splitLoop fuel message maxLength parts = Parts (parts ++ more)
    /\ concat more = message
    /\ Forall (fun part => 1 <= len part <= maxLength) more.
Proof.
  induction fuel as [|fuel IH]; intros message parts Hmax Hfuel.
  - pose proof (len_nonneg message).
    assert (Hm : message = "") by (apply len_empty; lia). subst message.
    exists []. rewrite app_nil_r. simpl. repeat split. constructor.
  - cbn [splitLoop].
    destruct (Z.ltb_spec 0 (len message)) as [Hpos|Hzero].
    + destruct (nextSplitIndex_range message maxLength Hmax Hpos)
        as (splitIndex & Hnext & Hrange & Hle).
      rewrite Hnext, slice_to_some, slice_from_some by lia.
      set (n := Z.to_nat splitIndex).
      assert (Hn : (n <= String.length message)%nat) by (unfold len in *; lia).
      destruct (IH (dropBytes n message) (parts ++ [takeBytes n message]) Hmax)
        as (more & Hloop & Hcat & Hall).
      { rewrite len_dropBytes by exact Hn. lia. }
      exists (takeBytes n message :: more).
      rewrite Hloop, <- app_assoc. split; [reflexivity|]. split.
      * change (concat (takeBytes n message :: more))
          with (takeBytes n message +:+ concat more).
        rewrite Hcat. apply take_drop_bytes.
      * constructor; [|exact Hall]. rewrite len_takeBytes by exact Hn. lia.
    + pose proof (len_nonneg message).
      assert (Hm : message = "") by (apply len_empty; lia). subst message.
      exists []. rewrite app_nil_r. simpl. repeat split. constructor.
Qed.

Lemma splitMessage_splits_losslessly_aux fuel message maxLength :
  1 <= maxLength -> len message <= Z.of_nat fuel ->
  exists parts,
    splitMessage fuel message maxLength = Parts parts
    /\ concat parts = message
    /\ Forall (fun part => len part <= maxLength) parts
    /\ (len message <= maxLength -> parts = [message])
    /\ (maxLength < len message -> Forall (fun part => 1 <= len part) parts).
Proof.
  intros Hmax Hfuel. unfold splitMessage.
  destruct (Z.leb_spec (len message) maxLength) as [Hfit|Hlong].
  - exists [message]. split; [reflexivity|]. split; [apply append_empty_r|].
    split; [repeat constructor; exact Hfit|]. split; [reflexivity|lia].
  - destruct (splitLoop_spec maxLength fuel message [] Hmax Hfuel)
      as (parts & Hloop & Hcat & Hall).
    exists parts. split; [exact Hloop|]. split; [exact Hcat|].
    split; [eapply Forall_impl; [exact Hall|]; simpl; intros; lia|].
    split; [lia|]. intros _. eapply Forall_impl; [exact Hall|]; simpl; intros; lia.
Qed.

(** X18.  With a positive [maxLength], [splitMessage] returns; the parts put
    together are the message, no part is longer than [maxLength], a
    message that fits is its own single part, and a longer one has no
    empty part. *)
Theorem splitMessage_splits_losslessly fuel message maxLength :
  1 <= maxLength -> len message <= Z.of_nat fuel ->
  exists parts,
    splitMessage fuel message maxLength = Parts parts
    /\ concat parts = message
    /\ Forall (fun part => len part <= maxLength) parts
    /\ (len message <= maxLength -> parts = [message])
    /\ (maxLength < len message -> Forall (fun part => 1 <= len part) parts).
Proof. apply splitMessage_splits_losslessly_aux. Qed.

Lemma splitMessage_splits_losslessly_witness :
  exists parts,
    splitMessage 11 "hello world" 8 = Parts parts
    /\ concat parts = "hello world"
    /\ Forall (fun part => len part <= 8) parts
    /\ (len "hello world" <= 8 -> parts = ["hello world"])
    /\ (8 < len "hello world" -> Forall (fun part => 1 <= len part) parts).
Proof.
  apply (splitMessage_splits_losslessly 11 "hello world" 8).
  - lia.
  - vm_compute. discriminate.
Defined.

(** X19.  With a [maxLength] that is not positive, [splitMessage] never
    returns for a message that is not empty: at zero the loop cuts
    nothing off and goes on for ever, below zero the first slice
    expression panics. *)
Theorem splitMessage_needs_positive_maxLength fuel message maxLength :
  0 < len message ->
  (maxLength = 0 -> splitMessage fuel message maxLength = StillSplitting)
  /\ (maxLength < 0 ->
      splitMessage (S fuel) message maxLength = SliceOutOfRange).
Proof.
  intros Hpos. split.
  - intros ->. unfold splitMessage.
    destruct (Z.leb_spec (len message) 0); [lia|].
    generalize (@nil string). induction fuel as [|fuel IH]; intros parts.
    + simpl. destruct (Z.ltb_spec 0 (len message)); [reflexivity|lia].
    + cbn [splitLoop]. destruct (Z.ltb_spec 0 (len message)); [|lia].
      assert (Hnext : nextSplitIndex message 0 = Some 0).
      { unfold nextSplitIndex.
        destruct (Z.ltb_spec (len message) 0); [lia|].
        rewrite slice_to_some by lia. reflexivity. }
      rewrite Hnext, slice_to_some, slice_from_some by lia.
      simpl dropBytes. apply IH.
  - intros Hneg. unfold splitMessage.
    destruct (Z.leb_spec (len message) maxLength); [lia|].
    cbn [splitLoop]. destruct (Z.ltb_spec 0 (len message)); [|lia].
    assert (Hnext : nextSplitIndex message maxLength = None).
    { unfold nextSplitIndex.
      destruct (Z.ltb_spec (len message) maxLength); [lia|].
      unfold slice_to. destruct (Z.leb_spec 0 maxLength); [lia|]. reflexivity. }
    rewrite Hnext. reflexivity.
Qed.

Lemma splitMessage_needs_positive_maxLength_witness :
  splitMessage 100 "hello" 0 = StillSplitting
  /\ splitMessage (S 100) "hello" (-1) = SliceOutOfRange.
Proof.
  split.
  - apply (proj1 (splitMessage_needs_positive_maxLength 100 "hello" 0
                    ltac:(vm_compute; reflexivity))).
    reflexivity.
  - apply (proj2 (splitMessage_needs_positive_maxLength 100 "hello" (-1)
                    ltac:(vm_compute; reflexivity))).
    lia.
Defined.

Section Sending.
Context {World : Type}.
Variable ChannelMessageSend :
  string -> string -> World -> (error + string) * World.

(** A content of at most 2000 bytes goes to Discord as it is. *)
Lemma sendMessage_short depth channelID content w sent :
  len content <= 2000 ->
  exists r w',
    sendMessage ChannelMessageSend (S depth) channelID content w sent
    = Some (r, w', sent ++ [content])
    /\ (snd r <> None -> fst r = "").
Proof.
  intros Hlen. cbn [sendMessage].
  destruct (Z.ltb_spec 2000 (len content)); [lia|].
  destruct (ChannelMessageSend channelID content w) as [[err|id] w'].
  - eexists _, _. split; [reflexivity|]. reflexivity.
  - eexists _, _. split; [reflexivity|]. simpl. congruence.
Qed.

(** The loop over the parts sends them in order and stops at the first
    one Discord refuses. *)
Lemma sendEach_spec depth channelID messages : forall rest i lastMessageID w sent,
  Forall (fun part => len part <= 2000) rest ->
  exists r w' k,
    sendEach (sendMessage ChannelMessageSend (S depth) channelID) messages i rest
      lastMessageID w sent
    = Some (r, w', sent ++ take k rest)
    /\ (k <= length rest)%nat
    /\ (rest <> [] -> (1 <= k)%nat)
    /\ (snd r = None -> k = length rest)
    /\ (snd r <> None -> fst r = "").
Proof.
  induction rest as [|msg rest IH]; intros i lastMessageID w sent Hall.
  - exists (lastMessageID, None), w, 0%nat. simpl. rewrite app_nil_r.
    repeat split; try lia; congruence.
  - inversion Hall as [|? ? Hmsg Hrest]; subst.
    cbn [sendEach].
    destruct (sendMessage_short depth channelID msg w sent Hmsg)
      as ([id err] & w1 & Hsend & Hfail).
    rewrite Hsend. destruct err as [err|].
    + exists ("", Some err), w1, 1%nat. simpl.
      repeat split; try lia; congruence.
    + destruct (IH (S i)
                  (if (i =? length messages - 1)%nat then id else lastMessageID)
                  w1 (sent ++ [msg]) Hrest)
        as (r & w' & k & Hloop & Hk & _ & Hdone & Hfail').
      exists r, w', (S k). rewrite Hloop. simpl.
      rewrite <- app_assoc. simpl.
      repeat split; try lia; try assumption.
      intros Hr. rewrite (Hdone Hr). reflexivity.
Qed.

Lemma concat_take_drop k (parts : list string) :
  concat (take k parts) +:+ concat (drop k parts) = concat parts.
Proof. rewrite <- concat_app, take_drop. reflexivity. Qed.

Lemma sendMessage_spec depth channelID content w sent :
  (2 <= depth)%nat ->
  exists r w' pieces,
    sendMessage ChannelMessageSend depth channelID content w sent
    = Some (r, w', sent ++ pieces)
    /\ pieces <> []
    /\ Forall (fun piece => len piece <= 2000) pieces
    /\ (exists unsent, concat pieces +:+ unsent = content)
    /\ (snd r = None -> concat pieces = content)
    /\ (snd r <> None -> fst r = "").
Proof.
  intros Hdepth. destruct depth as [|[|depth]]; try lia.
  destruct (Z.ltb_spec 2000 (len content)) as [Hlong|Hshort].
  - cbn [sendMessage]. destruct (Z.ltb_spec 2000 (len content)); [|lia].
    destruct (splitMessage_splits_losslessly_aux (String.length content) content 1900)
      as (parts & Hsplit & Hcat & Hall & _ & Hpos); [lia|unfold len; lia|].
    rewrite Hsplit.
    assert (Hall' : Forall (fun part => len part <= 2000) parts)
      by (eapply Forall_impl; [exact Hall|]; simpl; intros; lia).
    destruct (sendEach_spec depth channelID parts parts 0%nat "" w sent Hall')
      as (r & w' & k & Hloop & Hk & Hk1 & Hdone & Hfail).
    assert (Hne : parts <> []).
    { intros ->. simpl in Hcat. subst content. change (len "") with 0 in Hlong. lia. }
    exists r, w', (take k parts). split; [exact Hloop|].
    split.
    { specialize (Hk1 Hne). destruct parts; [congruence|].
      destruct k; [lia|]. discriminate. }
    split; [apply Forall_take; exact Hall'|].
    split; [exists (concat (drop k parts)); rewrite concat_take_drop; exact Hcat|].
    split; [|exact Hfail].
    intros Hr. rewrite (Hdone Hr), firstn_all. exact Hcat.
  - destruct (sendMessage_short (S depth) channelID content w sent Hshort)
      as (r & w' & Hsend & Hfail).
    exists r, w', [content]. split; [exact Hsend|].
    split; [discriminate|]. split; [repeat constructor; exact Hshort|].
    split; [exists ""; simpl; rewrite !append_empty_r; reflexivity|].
    split; [intros _; apply append_empty_r|exact Hfail].
Qed.

End Sending.

(** X20.  [sendMessage] hands Discord at most 2000 bytes at a time, in the
    order of the content; what it sent is a beginning of the content, and
    all of it when it returns no error. *)
Theorem sendMessage_sends_short_pieces {World : Type}
    (ChannelMessageSend : string -> string -> World -> (error + string) * World)
    depth channelID content w sent :
  (2 <= depth)%nat ->
  exists r w' pieces,
    sendMessage ChannelMessageSend depth channelID content w sent
    = Some (r, w', sent ++ pieces)
    /\ pieces <> []
    /\ Forall (fun piece => len piece <= 2000) pieces
    /\ (exists unsent, concat pieces +:+ unsent = content)
    /\ (snd r = None -> concat pieces = content)
    /\ (snd r <> None -> fst r = "").
Proof. apply sendMessage_spec. Qed.

Lemma sendMessage_sends_short_pieces_witness :
  exists r w' pieces,
    sendMessage alwaysDelivers 2 "general" "hello" tt [] = Some (r, w', [] ++ pieces)
    /\ pieces <> []
    /\ Forall (fun piece => len piece <= 2000) pieces
    /\ (exists unsent, concat pieces +:+ unsent = "hello")
    /\ (snd r = None -> concat pieces = "hello")
    /\ (snd r <> None -> fst r = "").
Proof.
  apply (sendMessage_sends_short_pieces alwaysDelivers 2 "general" "hello" tt []).
  lia.
Defined.

End discord_laws.

(** ** utils: errors with context, and the generic retry *)

Module utils_laws.
Import GoInt GoTime GoInt_facts utils utils_notions.

Section Laws.
Context {Value : Type}.
Variable ToLower : string -> string.

(** X21.  [WithContext] around an error that carries no context yet: the
    text, the chain and the retry class stay those of the error, and a
    nil error stays nil. *)
Theorem WithContext_keeps_the_error stack (err : error Value) context :
  As err = None ->
  WithContext stack None context = Returns None
  /\ exists wrapped,
       WithContext stack (Some err) context = Returns (Some wrapped)
       /\ Error wrapped = Error err
       /\ Unwrap wrapped = Some err
       /\ (forall target, Is wrapped target = Is err target)
       /\ IsRetryable ToLower (Some wrapped) = IsRetryable ToLower (Some err)
       /\ As wrapped = Some (Some err, context, stack).
Proof.
  intros Has. split; [reflexivity|].
  exists (ErrorWithContext (Some err) context stack).
  unfold WithContext. rewrite Has.
  repeat split.
Qed.

(** X22.  [WithContext] around an error that has a context somewhere along
    its chain returns that inner error: what was wrapped around it is
    gone, the new entries are written over the held ones, and writing
    any entry into a held nil map panics. *)
Theorem WithContext_returns_the_inner_context stack (err : error Value)
    inner held heldStack added :
  As err = Some (inner, held, heldStack) ->
  WithContext stack (Some err) None
  = Returns (Some (ErrorWithContext inner held heldStack))
  /\ (added <> ∅ -> held = None ->
      WithContext stack (Some err) (Some added) = NilMapAssignment)
  /\ (forall map, held = Some map ->
      exists merged,
        WithContext stack (Some err) (Some added)
        = Returns (Some (ErrorWithContext inner (Some merged) heldStack))
        /\ forall k, merged !! k
                     = match added !! k with
                       | Some v => Some v
                       | None => map !! k
                       end).
Proof.
  intros Has. unfold WithContext. rewrite Has. simpl.
  split; [destruct (decide (∅ = ∅)) as [_|Hne]; [reflexivity|congruence]|].
  split.
  - intros Hadded ->. destruct (decide (added = ∅)); [congruence|reflexivity].
  - intros map ->. destruct (decide (added = ∅)) as [->|Hne].
    + exists map. split; [reflexivity|]. intros k. rewrite lookup_empty. reflexivity.
    + exists (added ∪ map). split; [reflexivity|]. intros k.
      rewrite lookup_union. destruct (added !! k), (map !! k); reflexivity.
Qed.

Lemma backoffSeconds_capped attempt :
  0 <= attempt <= 62 ->
  backoffSeconds attempt = Z.min 30 (2 ^ attempt)
  /\ mul (backoffSeconds attempt) Second = Z.min 30 (2 ^ attempt) * Second.
Proof.
  intros Ha.
  assert (H : ((backoffSeconds attempt =? Z.min 30 (2 ^ attempt))
               && (mul (backoffSeconds attempt) Second
                   =? Z.min 30 (2 ^ attempt) * Second)) = true).
  { apply (openwebui_facts.range_check
             (fun attempt => (backoffSeconds attempt =? Z.min 30 (2 ^ attempt))
                             && (mul (backoffSeconds attempt) Second
                                 =? Z.min 30 (2 ^ attempt) * Second)) 0 63);
      [vm_compute; reflexivity|lia]. }
  apply andb_true_iff in H. destruct H as [H1 H2].
  split; [apply Z.eqb_eq, H1|apply Z.eqb_eq, H2].
Qed.

(** The wait of the generic retry after the failed attempt [attempt]
    doubles from one second and stops at thirty, for the attempts 0 to
    62. *)
Theorem generic_backoff_doubles_up_to_thirty attempt :
  0 <= attempt <= 62 ->
  backoffSeconds attempt = Z.min 30 (2 ^ attempt)
  /\ mul (backoffSeconds attempt) Second = Z.min 30 (2 ^ attempt) * Second.
Proof. apply backoffSeconds_capped. Qed.

Lemma generic_backoff_doubles_up_to_thirty_witness :
  backoffSeconds 4 = Z.min 30 (2 ^ 4)
  /\ mul (backoffSeconds 4) Second = Z.min 30 (2 ^ 4) * Second.
Proof. apply (generic_backoff_doubles_up_to_thirty 4). lia. Defined.

Context {World : Type}.
Variable fn : World -> option (error Value) * World.

Lemma generic_calls_app (log1 log2 : list (Event Value)) :
  calls (log1 ++ log2) = (calls log1 + calls log2)%nat.
Proof. unfold calls. rewrite filter_app, length_app. reflexivity. Qed.

Lemma generic_sleeps_app (log1 log2 : list (Event Value)) :
  sleeps (log1 ++ log2) = sleeps log1 ++ sleeps log2.
Proof. unfold sleeps. apply omap_app. Qed.

Lemma generic_retryLoop_step maxRetries n attempt lastErr w log :
  retryLoop ToLower fn maxRetries (S n) attempt lastErr w log
  = let '(err, w) := fn w in
    let log := log ++ [Called err] in
    match err with
    | None => (None, w, log)
    | Some _ =>
        if negb (IsRetryable ToLower err) || (attempt =? maxRetries) then
          (err, w, log)
        else
          retryLoop ToLower fn maxRetries n (add attempt 1) err w
            (log ++ [Slept (mul (backoffSeconds attempt) Second)])
    end.
Proof. reflexivity. Qed.

(** Every call fails, with an error [IsRetryable] accepts. *)
Hypothesis always_retryable :
  forall w, exists err w',
    fn w = (Some err, w') /\ IsRetryable ToLower (Some err) = true.

Lemma generic_retryLoop_exhausts maxRetries : forall n attempt lastErr w log,
  0 <= attempt -> maxRetries <= max_int ->
  attempt + Z.of_nat n = maxRetries ->
  exists err w' evs,
    retryLoop ToLower fn maxRetries (S n) attempt lastErr w log
    = (Some err, w', log ++ evs)
    /\ IsRetryable ToLower (Some err) = true
    /\ calls evs = S n
    /\ length (sleeps evs) = n
    /\ last evs = Some (Called (Some err)).
Proof.
  induction n as [|n IH]; intros attempt lastErr w log Ha Hmax Hn.
  - destruct (always_retryable w) as (err & w' & Hfn & Hre).
    exists err, w', [Called (Some err)]. rewrite generic_retryLoop_step, Hfn, Hre.
    replace (attempt =? maxRetries) with true by (symmetry; apply Z.eqb_eq; lia).
    repeat split; assumption.
  - destruct (always_retryable w) as (err & w' & Hfn & Hre).
    rewrite generic_retryLoop_step, Hfn, Hre.
    replace (attempt =? maxRetries) with false by (symmetry; apply Z.eqb_neq; lia).
    cbn [negb orb].
    assert (Hadd : add attempt 1 = attempt + 1).
    { unfold add. apply wrap64_id. unfold in_range, min_int, max_int in *. lia. }
    rewrite Hadd.
    destruct (IH (attempt + 1) (Some err) w'
                ((log ++ [Called (Some err)])
                 ++ [Slept (mul (backoffSeconds attempt) Second)]))
      as (err' & w'' & evs & Hloop & Hre' & Hcalls & Hsleeps & Hlast);
      [lia|lia|lia|].
    exists err', w'',
      ([Called (Some err); Slept (mul (backoffSeconds attempt) Second)] ++ evs).
    rewrite Hloop. split; [rewrite <- !app_assoc; reflexivity|].
    split; [exact Hre'|].
    split; [rewrite generic_calls_app, Hcalls; reflexivity|].
    split; [rewrite generic_sleeps_app, length_app, Hsleeps; reflexivity|].
    destruct evs as [|ev evs]; [discriminate|]. exact Hlast.
Qed.

End Laws.

Lemma WithContext_keeps_the_error_witness :
  WithContext "main.run" None (Some opContext) = Returns None
  /\ exists wrapped,
       WithContext "main.run" (Some timedOut) (Some opContext)
       = Returns (Some wrapped)
       /\ Error wrapped = Error timedOut
       /\ Unwrap wrapped = Some timedOut
       /\ (forall target, Is wrapped target = Is timedOut target)
       /\ IsRetryable (fun s => s) (Some wrapped)
          = IsRetryable (fun s => s) (Some timedOut)
       /\ As wrapped = Some (Some timedOut, Some opContext, "main.run").
Proof.
  apply (WithContext_keeps_the_error (fun s => s) "main.run" timedOut
           (Some opContext)).
  reflexivity.
Defined.

Lemma WithContext_returns_the_inner_context_witness :
  WithContext "main.run" (Some rewrapped) None
  = Returns (Some (ErrorWithContext (Some (errorString "boom"))
                     (Some opContext) "first.stack"))
  /\ (retryContext <> ∅ -> Some opContext = None ->
      WithContext "main.run" (Some rewrapped) (Some retryContext)
      = NilMapAssignment)
  /\ (forall map, Some opContext = Some map ->
      exists merged,
        WithContext "main.run" (Some rewrapped) (Some retryContext)
        = Returns (Some (ErrorWithContext (Some (errorString "boom"))
                           (Some merged) "first.stack"))
        /\ forall k, merged !! k
                     = match retryContext !! k with
                       | Some v => Some v
                       | None => map !! k
                       end).
Proof.
  apply (WithContext_returns_the_inner_context "main.run" rewrapped
           (Some (errorString "boom")) (Some opContext) "first.stack"
           retryContext).
  reflexivity.
Defined.


(** X23.  The generic retry calls an operation that keeps failing retryably
    once more than [maxRetries], waits between the calls and not after
    the last one, and returns the last error as the operation gave it. *)
Theorem generic_retry_exhausts {Value World : Type} ToLower
    (fn : World -> option (error Value) * World) maxRetries w :
  (forall w, exists err w',
     fn w = (Some err, w') /\ IsRetryable ToLower (Some err) = true) ->
  0 <= maxRetries <= max_int ->
  exists err w' log,
    WithRetry ToLower fn maxRetries w = (Some err, w', log)
    /\ calls log = Z.to_nat (maxRetries + 1)
    /\ length (sleeps log) = Z.to_nat maxRetries
    /\ last log = Some (Called (Some err)).
Proof.
  intros Hfn Hmax. unfold WithRetry.
  replace (Z.to_nat (maxRetries + 1)) with (S (Z.to_nat maxRetries)) by lia.
  destruct (generic_retryLoop_exhausts ToLower fn Hfn maxRetries (Z.to_nat maxRetries)
              0 None w []) as (err & w' & evs & Hloop & _ & Hc & Hs & Hl);
    [lia|lia|lia|].
  exists err, w', evs. split; [exact Hloop|]. repeat split; assumption.
Qed.

Lemma generic_retry_exhausts_witness :
  exists err w' log,
    WithRetry (fun s => s) alwaysRateLimited 3 tt = (Some err, w', log)
    /\ calls log = Z.to_nat (3 + 1)
    /\ length (sleeps log) = Z.to_nat 3
    /\ last log = Some (Called (Some err)).
Proof.
  apply (generic_retry_exhausts (fun s => s) alwaysRateLimited 3 tt).
  - intros []. eexists _, _. split; reflexivity.
  - unfold max_int. lia.
Defined.

(** X24.  The first call decides when it succeeds or fails with an error
    that is not retryable: one call, no wait, and the error comes back
    unwrapped; with a negative [maxRetries] the operation is never
    called and the function reports success. *)
Theorem generic_retry_first_call {Value World : Type} ToLower
    (fn : World -> option (error Value) * World) maxRetries w :
  (maxRetries < 0 -> WithRetry ToLower fn maxRetries w = (None, w, []))
  /\ (0 <= maxRetries ->
      forall err w', fn w = (err, w') -> IsRetryable ToLower err = false ->
      WithRetry ToLower fn maxRetries w = (err, w', [Called err])).
Proof.
  split.
  - intros Hneg. unfold WithRetry.
    replace (Z.to_nat (maxRetries + 1)) with 0%nat by lia. reflexivity.
  - intros Hn err w' Hfn Hre. unfold WithRetry.
    replace (Z.to_nat (maxRetries + 1)) with (S (Z.to_nat maxRetries)) by lia.
    rewrite generic_retryLoop_step, Hfn. destruct err as [err|]; [|reflexivity].
    rewrite Hre. reflexivity.
Qed.

End utils_laws.

(** ** The handler: formatting the response, preparing the request *)

Module handler_laws.
Import GoString GoStrings GoString_facts contextmgr handler handler_notions.

Lemma fold_formatStep actions : forall formattedResponse shouldPin,
  fold_left (formatStep) actions (formattedResponse, shouldPin)
  = (match last (formats actions) with
     | Some text => text
     | None => formattedResponse
     end,
     shouldPin || existsb (fun action => String.eqb (Type_ action) ActionPin) actions).
Proof.
  induction actions as [|action actions IH]; intros f p.
  - simpl. rewrite orb_false_r. reflexivity.
  - cbn [fold_left]. unfold formatStep at 2. unfold formats. cbn [omap list_omap existsb].
    fold (formats actions).
    destruct (String.eqb (Type_ action) ActionFormat) eqn:Ef.
    + assert (Hp : String.eqb (Type_ action) ActionPin = false).
      { apply String.eqb_eq in Ef. rewrite Ef. reflexivity. }
      rewrite Hp. cbn [orb].
      destruct (formatText (Parameters action)) as [text|]; rewrite IH.
      * rewrite last_cons. destruct (last (formats actions)); reflexivity.
      * reflexivity.
    + destruct (String.eqb (Type_ action) ActionPin); rewrite IH.
      * rewrite orb_true_r. reflexivity.
      * reflexivity.
Qed.

(** X25.  The last format action that assigns a text decides
    [formattedResponse], also over a silence action; without one it is
    empty under a silence action and the cleaned response otherwise; the
    flag [shouldPin] is set exactly when some action is a pin action. *)
Theorem last_format_action_decides ActionSilence cleanResponse actions :
  formatResponse ActionSilence cleanResponse actions
  = (match last (formats actions) with
     | Some text => text
     | None => if hasSilenceAction ActionSilence actions then "" else cleanResponse
     end,
     existsb (fun action => String.eqb (Type_ action) ActionPin) actions).
Proof.
  unfold formatResponse. rewrite fold_formatStep. reflexivity.
Qed.

Lemma cutAt_free sep s : free sep s -> cutAt sep s = None.
Proof.
  induction s as [|a s IH]; [reflexivity|]. intros [Ha Hs]. simpl.
  rewrite Ha, (IH Hs). reflexivity.
Qed.

Lemma cutAt_found sep before after :
  free sep before ->
  cutAt sep (before +:+ String sep after) = Some (before, after).
Proof.
  induction before as [|a before IH]; intros Hfree.
  - simpl. rewrite Ascii.eqb_refl. reflexivity.
  - destruct Hfree as [Ha Hb].
    change (String a before +:+ String sep after)
      with (String a (before +:+ String sep after)).
    simpl. rewrite Ha, (IH Hb). reflexivity.
Qed.

Lemma Split_free sep s : free sep s -> Split sep s = [s].
Proof.
  induction s as [|a s IH]; [reflexivity|]. intros [Ha Hs]. simpl.
  rewrite Ha, (IH Hs). reflexivity.
Qed.

Lemma Split_found sep before after :
  free sep before ->
  Split sep (before +:+ String sep after) = before :: Split sep after.
Proof.
  induction before as [|a before IH]; intros Hfree.
  - simpl. rewrite Ascii.eqb_refl. reflexivity.
  - destruct Hfree as [Ha Hb].
    change (String a before +:+ String sep after)
      with (String a (before +:+ String sep after)).
    simpl. rewrite Ha, (IH Hb). reflexivity.
Qed.

(** The fields [Split] returns hold no separator, and there is at least
    one. *)
Lemma Split_fields_free sep s :
  Forall (free sep) (Split sep s) /\ Split sep s <> [].
Proof.
  induction s as [|a s [IH Hne]]; simpl.
  - split; [repeat constructor|discriminate].
  - destruct (Ascii.eqb a sep) eqn:E.
    + split; [constructor; [exact I|exact IH]|discriminate].
    + destruct (Split sep s) as [|field fields]; [congruence|].
      inversion IH; subst. split; [|discriminate].
      constructor; [split; assumption|assumption].
Qed.

Lemma Join_cons elem elems sep :
  elems <> [] -> Join (elem :: elems) sep = elem +:+ sep +:+ Join elems sep.
Proof. destruct elems; [congruence|reflexivity]. Qed.

(** Joining fields and splitting again gives the fields back. *)
Lemma Split_Join sep elems :
  elems <> [] -> Forall (free sep) elems ->
  Split sep (Join elems (String sep "")) = elems.
Proof.
  induction elems as [|elem elems IH]; [congruence|]. intros _ Hall.
  inversion Hall as [|? ? Helem Hrest]; subst.
  destruct elems as [|elem' elems].
  - simpl. apply Split_free, Helem.
  - rewrite Join_cons by discriminate.
    change (String sep "" +:+ Join (elem' :: elems) (String sep ""))
      with (String sep (Join (elem' :: elems) (String sep ""))).
    rewrite Split_found by exact Helem.
    rewrite IH by (try discriminate; exact Hrest). reflexivity.
Qed.

Lemma Join_Split sep s : Join (Split sep s) (String sep "") = s.
Proof.
  induction s as [|a s IH]; [reflexivity|]. simpl.
  destruct (Split_fields_free sep s) as [_ Hne].
  destruct (Ascii.eqb_spec a sep) as [->|Hneq].
  - rewrite Join_cons by exact Hne. rewrite IH. reflexivity.
  - destruct (Split sep s) as [|field fields] eqn:E; [congruence|].
    destruct fields as [|field' fields].
    + simpl in *. rewrite IH. reflexivity.
    + rewrite Join_cons by discriminate. rewrite Join_cons in IH by discriminate.
      change (String a field +:+ String sep "" +:+ Join (field' :: fields) (String sep ""))
        with (String a (field +:+ String sep "" +:+ Join (field' :: fields) (String sep ""))).
      rewrite IH. reflexivity.
Qed.

Lemma free_quoted line : free lf line -> free lf ("> " +:+ line).
Proof. intros H. simpl. repeat split; exact H. Qed.

Lemma unquote_lines (lines : list string) :
  (dropBytes 2 ∘ (fun line => "> " +:+ line)) <$> lines = lines.
Proof.
  induction lines as [|line lines IH]; [reflexivity|].
  cbn [fmap list_fmap]. f_equal. exact IH.
Qed.

(** X26.  A quote action marks every line: the text it assigns has as many
    lines as the content, each the line of the content behind a mark,
    and taking the marks off gives the content back. *)
Theorem quote_marks_every_line formatContent :
  exists text,
    formatText ("quote|" +:+ formatContent) = Some text
    /\ Split lf text = (fun line => "> " +:+ line) <$> Split lf formatContent
    /\ Join (dropBytes 2 <$> Split lf text) newline = formatContent.
Proof.
  unfold formatText, SplitN2.
  change ("quote|" +:+ formatContent) with ("quote" +:+ String pipe formatContent).
  rewrite cutAt_found by (simpl; repeat split; reflexivity).
  cbn [String.eqb Ascii.eqb Bool.eqb andb]. simpl String.eqb.
  eexists. split; [reflexivity|].
  destruct (Split_fields_free lf formatContent) as [Hfree Hne].
  assert (Hsplit : Split lf (Join ((fun line => "> " +:+ line) <$> Split lf formatContent) newline)
                   = (fun line => "> " +:+ line) <$> Split lf formatContent).
  { apply (Split_Join lf).
    - destruct (Split lf formatContent); [congruence|discriminate].
    - apply Forall_fmap. eapply Forall_impl; [exact Hfree|].
      intros line. apply free_quoted. }
  split; [exact Hsplit|].
  rewrite Hsplit, <- list_fmap_compose.
  rewrite unquote_lines. apply (Join_Split lf).
Qed.

(** X27.  The type of a code format is the word [code] alone, with the
    language in a field of its own: written with a colon and the
    language, as the examples of the system prompt write it, the action
    assigns nothing. *)
Theorem code_with_colon_is_not_formatted language code :
  free pipe language ->
  formatText ("code:" +:+ language +:+ "|" +:+ code) = None
  /\ formatText ("code|" +:+ language +:+ "|" +:+ code)
     = Some ("```" +:+ language +:+ newline +:+ code +:+ newline +:+ "```").
Proof.
  intros Hfree. unfold formatText, SplitN2. split.
  - change ("code:" +:+ language +:+ "|" +:+ code)
      with (("code:" +:+ language) +:+ String pipe code).
    rewrite cutAt_found by (simpl; repeat split; exact Hfree).
    reflexivity.
  - change ("code|" +:+ language +:+ "|" +:+ code)
      with ("code" +:+ String pipe (language +:+ String pipe code)).
    rewrite cutAt_found by (simpl; repeat split; reflexivity).
    simpl String.eqb. rewrite cutAt_found by exact Hfree. reflexivity.
Qed.

Lemma code_with_colon_is_not_formatted_witness :
  formatText ("code:" +:+ "python" +:+ "|" +:+ "print(1)") = None
  /\ formatText ("code|" +:+ "python" +:+ "|" +:+ "print(1)")
     = Some ("```" +:+ "python" +:+ newline +:+ "print(1)" +:+ newline +:+ "```").
Proof.
  apply (code_with_colon_is_not_formatted "python" "print(1)").
  simpl. repeat split.
Defined.

Lemma prepared_window systemPrompt channelID m :
  head (prepareMessages systemPrompt channelID m)
  = Some {| openwebui_chat.Role := "system";
            openwebui_chat.Content := systemPrompt |}
  /\ length (prepareMessages systemPrompt channelID m)
     = S (length (GetMessages channelID m)).
Proof.
  unfold prepareMessages. split; [reflexivity|].
  simpl. rewrite length_fmap. reflexivity.
Qed.

(** X28.  What the handler sends to the model right after it stored the
    message of a user: the system prompt first, one message per message
    of the window, and last the content the user wrote, under the role
    [user] and without the name. *)
Theorem prepared_messages_end_with_the_user_message nowMessage nowActive
    nowPrune systemPrompt channelID content username m :
  let m' := AddMessage nowMessage nowActive nowPrune channelID "user" content
              username m in
  head (prepareMessages systemPrompt channelID m')
  = Some {| openwebui_chat.Role := "system";
            openwebui_chat.Content := systemPrompt |}
  /\ last (prepareMessages systemPrompt channelID m')
     = Some {| openwebui_chat.Role := "user"; openwebui_chat.Content := content |}
  /\ length (prepareMessages systemPrompt channelID m')
     = S (length (GetMessages channelID m'))
  /\ (2 <= length (prepareMessages systemPrompt channelID m'))%nat.
Proof.
  intros m'.
  destruct (contextmgr_laws.added_message_kept nowMessage nowActive nowPrune
              channelID "user" content username m) as (_ & Hlast & Hsize & _).
  fold m' in Hlast, Hsize.
  destruct (prepared_window systemPrompt channelID m') as [Hhead Hlen].
  split; [exact Hhead|]. split; [|split; [exact Hlen|]].
  - unfold prepareMessages.
    destruct (GetMessages channelID m') as [|msg0 msgs] eqn:E; [discriminate|].
    rewrite last_app. rewrite fmap_last, Hlast. reflexivity.
  - rewrite Hlen. unfold GetContextSize in Hsize. unfold GetMessages.
    destruct (contexts m' !! channelID); [|lia].
    destruct (Messages c); simpl in *; lia.
Qed.

End handler_laws.

(** ** The action markup *)

Module actions_laws.
Import GoString GoString_facts regexp handler actions actions_notions.

Lemma app_assoc_s (s t u : string) : (s +:+ t) +:+ u = s +:+ (t +:+ u).
Proof. symmetry. apply openwebui_facts.append_assoc. Qed.

Lemma length_append (s t : string) :
  String.length (s +:+ t) = (String.length s + String.length t)%nat.
Proof.
  induction s as [|a s IH]; [reflexivity|].
  change (String a s +:+ t) with (String a (s +:+ t)). simpl. rewrite IH. reflexivity.
Qed.

Lemma takeBytes_app s t : takeBytes (String.length s) (s +:+ t) = s.
Proof.
  induction s as [|a s IH]; [destruct t; reflexivity|].
  change (String a s +:+ t) with (String a (s +:+ t)). simpl. rewrite IH. reflexivity.
Qed.

Lemma dropBytes_app s t : dropBytes (String.length s) (s +:+ t) = t.
Proof.
  induction s as [|a s IH]; [destruct t; reflexivity|].
  change (String a s +:+ t) with (String a (s +:+ t)). simpl. exact IH.
Qed.

Lemma hasPrefix_append text s : openwebui.hasPrefix (text +:+ s) text = true.
Proof.
  induction text as [|a text IH]; [reflexivity|].
  change (String a text +:+ s) with (String a (text +:+ s)). simpl.
  rewrite Ascii.eqb_refl. exact IH.
Qed.

Lemma hasPrefix_inv s text :
  openwebui.hasPrefix s text = true ->
  s = text +:+ dropBytes (String.length text) s.
Proof.
  revert s. induction text as [|a text IH]; intros s H.
  - destruct s; reflexivity.
  - destruct s as [|b s]; [discriminate|]. simpl in H.
    apply andb_true_iff in H. destruct H as [Hab H].
    apply Ascii.eqb_eq in Hab. subst b.
    change (String a text +:+ dropBytes (String.length (String a text)) (String a s))
      with (String a (text +:+ dropBytes (String.length text) s)).
    f_equal. apply IH, H.
Qed.

(** The run of a class in front of a byte that is not of it. *)
Lemma span_run class run s :
  every class run ->
  match s with String a _ => class a = false | EmptyString => True end ->
  span class (run +:+ s) = String.length run.
Proof.
  intros Hrun Hstop. induction run as [|a run IH].
  - destruct s as [|b s]; [reflexivity|]. simpl. rewrite Hstop. reflexivity.
  - destruct Hrun as [Ha Hrun].
    change (String a run +:+ s) with (String a (run +:+ s)). simpl.
    rewrite Ha, (IH Hrun). reflexivity.
Qed.

Lemma span_take class s : forall k,
  (k <= span class s)%nat ->
  every class (takeBytes k s) /\ String.length (takeBytes k s) = k
  /\ s = takeBytes k s +:+ dropBytes k s.
Proof.
  induction s as [|a s IH]; intros k Hk.
  - simpl in Hk. assert (k = 0%nat) by lia. subst. repeat split.
  - destruct k as [|k]; [repeat split|].
    simpl in Hk. destruct (class a) eqn:Ea; [|lia].
    destruct (IH k ltac:(lia)) as (He & Hl & Hs).
    simpl. repeat split; try assumption; [lia|].
    change (String a (takeBytes k s) +:+ dropBytes k s)
      with (String a (takeBytes k s +:+ dropBytes k s)).
    rewrite <- Hs. reflexivity.
Qed.

Lemma tryLengths_inv k s rest groups unread :
  tryLengths k s rest = Some (groups, unread) ->
  exists j behind,
    (1 <= j <= k)%nat /\ groups = takeBytes j s :: behind
    /\ rest (dropBytes j s) = Some (behind, unread).
Proof.
  induction k as [|k IH]; [discriminate|].
  cbn [tryLengths].
  destruct (rest (dropBytes (S k) s)) as [[behind unread']|] eqn:E.
  - intros H. injection H as <- <-. exists (S k), behind.
    split; [lia|]. split; [reflexivity|exact E].
  - intros H. destruct (IH H) as (j & behind & Hj & Hg & Hr).
    exists j, behind. split; [lia|]. split; assumption.
Qed.

Lemma tryLengths_longest k s rest behind unread :
  (1 <= k)%nat ->
  rest (dropBytes k s) = Some (behind, unread) ->
  tryLengths k s rest = Some (takeBytes k s :: behind, unread).
Proof.
  intros Hk H. destruct k as [|k]; [lia|]. cbn [tryLengths]. rewrite H.
  reflexivity.
Qed.

Lemma markup_behind action behind :
  markup action +:+ behind
  = "[ACTION:" +:+ Type_ action +:+ "|" +:+ Parameters action +:+ "]" +:+ behind.
Proof. unfold markup. rewrite !app_assoc_s. reflexivity. Qed.

Lemma nonempty_length (s : string) : s <> "" -> (1 <= String.length s)%nat.
Proof. destruct s; [congruence|simpl; lia]. Qed.

(** The expression matches the markup of a well-formed action, whatever
    follows it. *)
Lemma matchHere_markup action behind :
  wellFormed action ->
  matchHere actionRegex (markup action +:+ behind)
  = Some ([Type_ action; Parameters action], behind).
Proof.
  intros (Hty & Hletters & Hpar & Hfree).
  rewrite markup_behind. unfold actionRegex. cbn [matchHere].
  rewrite hasPrefix_append, dropBytes_app.
  rewrite (span_run isLetter (Type_ action)) by (try exact Hletters; reflexivity).
  rewrite (tryLengths_longest _ _ _ [Parameters action] behind).
  - rewrite takeBytes_app. reflexivity.
  - apply nonempty_length, Hty.
  - rewrite dropBytes_app.
    change ("|" +:+ Parameters action +:+ "]" +:+ behind)
      with (String (Ascii.ascii_of_nat 124) (Parameters action +:+ "]" +:+ behind)).
    cbn [openwebui.hasPrefix]. rewrite Ascii.eqb_refl. cbn [andb].
    cbn [String.length dropBytes].
    rewrite (span_run notBracket (Parameters action))
      by (try exact Hfree; reflexivity).
    rewrite (tryLengths_longest _ _ _ [] behind).
    + rewrite takeBytes_app. reflexivity.
    + apply nonempty_length, Hpar.
    + rewrite dropBytes_app.
      change ("]" +:+ behind) with (String (Ascii.ascii_of_nat 93) behind).
      cbn [openwebui.hasPrefix]. rewrite Ascii.eqb_refl. reflexivity.
Qed.

(** What the expression matches is the markup of a well-formed action. *)
Lemma matchHere_inv s groups unread :
  matchHere actionRegex s = Some (groups, unread) ->
  exists action,
    wellFormed action
    /\ groups = [Type_ action; Parameters action]
    /\ s = markup action +:+ unread.
Proof.
  unfold actionRegex. cbn [matchHere].
  destruct (openwebui.hasPrefix s "[ACTION:") eqn:E1; [|discriminate].
  apply hasPrefix_inv in E1.
  set (s1 := dropBytes (String.length "[ACTION:") s) in *.
  intros H. apply tryLengths_inv in H.
  destruct H as (j & behind & Hj & Hg & H).
  destruct (span_take isLetter s1 j ltac:(lia)) as (Hletters & Hlen & Hs1).
  set (ty := takeBytes j s1) in *. set (s2 := dropBytes j s1) in *.
  destruct (openwebui.hasPrefix s2 "|") eqn:E2; [|discriminate].
  apply hasPrefix_inv in E2.
  set (s3 := dropBytes (String.length "|") s2) in *.
  apply tryLengths_inv in H.
  destruct H as (i & behind' & Hi & Hg' & H).
  destruct (span_take notBracket s3 i ltac:(lia)) as (Hfree & Hlen' & Hs3).
  set (params := takeBytes i s3) in *. set (s4 := dropBytes i s3) in *.
  destruct (openwebui.hasPrefix s4 "]") eqn:E3; [|discriminate].
  apply hasPrefix_inv in E3.
  injection H as <- <-.
  exists {| Type_ := ty; Parameters := params |}.
  split; [|split].
  - unfold wellFormed. simpl. repeat split; try assumption.
    + intros Hty. rewrite Hty in Hlen. simpl in Hlen. lia.
    + intros Hp. rewrite Hp in Hlen'. simpl in Hlen'. lia.
  - subst groups behind. reflexivity.
  - rewrite markup_behind. simpl Type_. simpl Parameters.
    etransitivity; [exact E1|]. f_equal.
    etransitivity; [exact Hs1|]. f_equal.
    etransitivity; [exact E2|]. f_equal.
    etransitivity; [exact Hs3|]. f_equal.
    exact E3.
Qed.

Lemma takeBytes_whole s unread :
  takeBytes (String.length (s +:+ unread) - String.length unread) (s +:+ unread) = s.
Proof.
  rewrite length_append.
  replace (String.length s + String.length unread - String.length unread)%nat
    with (String.length s) by lia.
  apply takeBytes_app.
Qed.

Lemma markup_length action behind :
  (String.length behind < String.length (markup action +:+ behind))%nat.
Proof. rewrite length_append. unfold markup. rewrite length_append. simpl. lia. Qed.

(** A text in front of a response does not change what is found behind
    it when the expression matches nowhere in front. *)
Lemma findAll_matches action behind matches without :
  wellFormed action ->
  (forall fuel, (String.length behind <= fuel)%nat ->
     findAll fuel actionRegex behind = Some (matches, without)) ->
  forall fuel, (String.length (markup action +:+ behind) <= fuel)%nat ->
    findAll fuel actionRegex (markup action +:+ behind)
    = Some ([markup action; Type_ action; Parameters action] :: matches, without).
Proof.
  intros Hwf Hbehind fuel Hfuel.
  pose proof (markup_length action behind) as Hlt.
  pose proof (matchHere_markup action behind Hwf) as Hm.
  pose proof (takeBytes_whole (markup action) behind) as Hw.
  destruct (markup action +:+ behind) as [|a s] eqn:E; [simpl in Hlt; lia|].
  destruct fuel as [|fuel]; [simpl in Hfuel; lia|].
  cbn [findAll]. rewrite Hm, Hbehind by (simpl in *; lia).
  rewrite Hw. reflexivity.
Qed.

Lemma matchHere_plain a s :
  notOpen a = true -> matchHere actionRegex (String a s) = None.
Proof.
  intros Ha. unfold actionRegex. cbn [matchHere openwebui.hasPrefix].
  unfold notOpen in Ha. apply negb_true_iff in Ha.
  rewrite Ascii.eqb_sym in Ha.
  change (Ascii.Ascii true true false true true false true false)
    with (Ascii.ascii_of_nat 91).
  rewrite Ha. reflexivity.
Qed.

Lemma findAll_plain text behind matches without :
  every notOpen text ->
  (forall fuel, (String.length behind <= fuel)%nat ->
     findAll fuel actionRegex behind = Some (matches, without)) ->
  forall fuel, (String.length (text +:+ behind) <= fuel)%nat ->
    findAll fuel actionRegex (text +:+ behind) = Some (matches, text +:+ without).
Proof.
  intros Hplain Hbehind. induction text as [|a text IH]; intros fuel Hfuel.
  - apply Hbehind. exact Hfuel.
  - destruct Hplain as [Ha Hplain].
    change (String a text +:+ behind) with (String a (text +:+ behind)) in *.
    destruct fuel as [|fuel]; [simpl in Hfuel; lia|].
    cbn [findAll]. rewrite (matchHere_plain a _ Ha).
    rewrite (IH Hplain fuel) by (simpl in Hfuel; lia). reflexivity.
Qed.

Lemma findAll_render segments tail :
  Forall (fun segment => every notOpen (fst segment) /\ wellFormed (snd segment))
    segments ->
  every notOpen tail ->
  forall fuel, (String.length (render segments tail) <= fuel)%nat ->
    findAll fuel actionRegex (render segments tail)
    = Some ((fun segment => [markup (snd segment); Type_ (snd segment);
                             Parameters (snd segment)]) <$> segments,
            textOf segments tail).
Proof.
  intros Hall Htail. induction Hall as [|[text action] segments [Hplain Hwf] _ IH].
  - intros fuel Hfuel. simpl.
    rewrite <- (append_empty_r tail) at 1 2.
    rewrite (findAll_plain tail "" [] "" Htail).
    + rewrite append_empty_r. reflexivity.
    + intros fuel' _. destruct fuel'; reflexivity.
    + rewrite append_empty_r. exact Hfuel.
  - cbn [render fold_right fst snd fmap list_fmap textOf].
    fold (render segments tail). fold (textOf segments tail).
    apply findAll_plain; [exact Hplain|].
    apply findAll_matches; [exact Hwf|exact IH].
Qed.

Lemma actionsOf_matches (segments : list (string * Action)) :
  actionsOf ((fun segment => [markup (snd segment); Type_ (snd segment);
                              Parameters (snd segment)]) <$> segments)
  = (fun segment => normalised (snd segment)) <$> segments.
Proof.
  induction segments as [|segment segments IH]; [reflexivity|].
  cbn [fmap list_fmap actionsOf]. f_equal. exact IH.
Qed.

(** X29.  [ParseActions] reads back what was written: on a response made of
    texts without an opening bracket and of the markups of well-formed
    actions it returns these actions in order, their types in lower
    case, and the texts put together and trimmed. *)
Theorem ParseActions_reads_what_was_written TrimSpace segments tail :
  Forall (fun segment => every notOpen (fst segment) /\ wellFormed (snd segment))
    segments ->
  every notOpen tail ->
  ParseActions TrimSpace (render segments tail)
  = Some ((fun segment => normalised (snd segment)) <$> segments,
          TrimSpace (textOf segments tail)).
Proof.
  intros Hall Htail. unfold ParseActions.
  rewrite (findAll_render segments tail Hall Htail) by lia.
  rewrite actionsOf_matches. reflexivity.
Qed.

Lemma ParseActions_reads_what_was_written_witness :
  ParseActions (fun s => s)
    (render [("Sure! ", {| Type_ := "STATUS"; Parameters := "Playing chess" |})]
       " Done.")
  = Some ((fun segment => normalised (snd segment))
            <$> [("Sure! ", {| Type_ := "STATUS"; Parameters := "Playing chess" |})],
          (fun s => s)
            (textOf [("Sure! ", {| Type_ := "STATUS";
                                   Parameters := "Playing chess" |})] " Done.")).
Proof.
  apply (ParseActions_reads_what_was_written (fun s => s)
           [("Sure! ", {| Type_ := "STATUS"; Parameters := "Playing chess" |})]
           " Done.").
  - constructor; [|constructor]. split.
    + simpl. repeat split.
    + unfold wellFormed. simpl. repeat split; discriminate.
  - simpl. repeat split.
Defined.

(** Whatever the content, the search ends, and what it finds are markups
    of well-formed actions that stand in the content. *)
Lemma findAll_sound : forall fuel s,
  (String.length s <= fuel)%nat ->
  exists segments tail,
    s = render segments tail
    /\ Forall (fun segment => wellFormed (snd segment)) segments
    /\ findAll fuel actionRegex s
       = Some ((fun segment => [markup (snd segment); Type_ (snd segment);
                                Parameters (snd segment)]) <$> segments,
               textOf segments tail).
Proof.
  induction fuel as [|fuel IH]; intros s Hfuel.
  - destruct s; [|simpl in Hfuel; lia].
    exists [], "". repeat split. constructor.
  - destruct s as [|a behind].
    + exists [], "". repeat split. constructor.
    + cbn [findAll].
      destruct (matchHere actionRegex (String a behind)) as [[groups unread]|] eqn:E.
      * destruct (matchHere_inv _ _ _ E) as (action & Hwf & Hg & Hs).
        assert (Hlen : (String.length unread <= fuel)%nat).
        { pose proof (markup_length action unread) as Hlt.
          rewrite <- Hs in Hlt. simpl in *. lia. }
        destruct (IH unread Hlen) as (segments & tail & Hr & Hall & Hfind).
        exists (("", action) :: segments), tail.
        split; [|split].
        -- cbn [render fold_right fst snd]. fold (render segments tail).
           rewrite <- Hr. exact Hs.
        -- constructor; [exact Hwf|exact Hall].
        -- rewrite Hfind. rewrite Hs at 1 2. rewrite takeBytes_whole, Hg.
           reflexivity.
      * destruct (IH behind ltac:(simpl in Hfuel; lia))
          as (segments & tail & Hr & Hall & Hfind).
        rewrite Hfind. destruct segments as [|[text action] segments].
        -- exists [], (String a tail). simpl in *. subst behind.
           repeat split. constructor.
        -- exists ((String a text, action) :: segments), tail.
           inversion Hall; subst. split; [|split].
           ++ reflexivity.
           ++ constructor; assumption.
           ++ reflexivity.
Qed.

(** X30.  [ParseActions] returns for every content; every action it returns
    is the well-formed action of a markup that stands in the content,
    in the order of the content, and the text it returns is the content
    without these markups, trimmed. *)
Theorem ParseActions_removes_markups_only TrimSpace content :
  exists segments tail,
    content = render segments tail
    /\ Forall (fun segment => wellFormed (snd segment)) segments
    /\ ParseActions TrimSpace content
       = Some ((fun segment => normalised (snd segment)) <$> segments,
               TrimSpace (textOf segments tail)).
Proof.
  destruct (findAll_sound (String.length content) content (le_n _))
    as (segments & tail & Hr & Hall & Hfind).
  exists segments, tail. split; [exact Hr|]. split; [exact Hall|].
  unfold ParseActions. rewrite Hfind, actionsOf_matches. reflexivity.
Qed.

End actions_laws.
